(** * Connection manager of the abstract dialect

    A shallow embedding of [lib/dialects/abstract/connection-manager.js]
    and the properties of its version detection, its replication router and
    its configuration snapshot.

    The manager is asynchronous JavaScript.  It is modelled as a
    deterministic machine: a state (the fields of the instance, the
    JavaScript heap, the pending promise chains), events that the
    surroundings deliver (calls of the public methods, completions of the
    external asynchronous operations, invocations of the pool factories by
    the pool engine) and, for every event, the list of calls the manager
    makes to its collaborators.

    - The completion of an external operation and the reactions chained on
      it run in one step, as the microtasks of JavaScript do; the callback
      queued on an already resolved promise runs before the next
      completion is handled.
    - generic-pool, the dialect, the query layer and the hooks are the
      surroundings.  They allocate objects; they do not write to the
      objects of the manager.
    - Function values are opaque.  The debug output is not an effect.
      [_validate] is the function value the constructor puts into the pool
      settings; what the dialect answers to it is not modelled.
      [refreshTypeParser] does not touch the state of the manager: it is a
      function of its own, at the end. *)

From Stdlib Require Import ZArith.
From stdpp Require Import base option list gmap strings.

Local Open Scope string_scope.
Local Open Scope list_scope.

(** ** JavaScript values and the heap *)

Module JS.

Abbreviation loc := nat (only parsing).

(** Primitive values, opaque function values and references to heap
    objects.  Numbers are integers: the code only compares with [0] and
    counts. *)
Inductive jsval :=
| JUndef
| JNull
| JBool (b : bool)
| JNum (n : Z)
| JStr (s : string)
| JFun (name : string)
| JRef (l : loc).

#[global] Instance jsval_eq_dec : EqDecision jsval.
Proof. solve_decision. Defined.

Inductive okind :=
| KObj
| KArr (elems : list jsval).

#[global] Instance okind_eq_dec : EqDecision okind.
Proof. solve_decision. Defined.

(** An object: a plain object or an array, with its own named properties in
    insertion order. *)
Record obj := Obj { kind : okind; props : list (string * jsval) }.

#[global] Instance obj_eq_dec : EqDecision obj.
Proof. solve_decision. Defined.

(** The heap is append-only: a reference is an index, allocation appends. *)
Abbreviation heap := (list obj) (only parsing).

Definition alloc (h : heap) (o : obj) : heap * jsval := (h ++ [o], JRef (length h)).

(** Truthiness ([if (v)], [!v], [a || b]). *)
Definition truthy (v : jsval) : bool :=
  match v with
  | JUndef | JNull => false
  | JBool b => b
  | JNum n => negb (n =? 0)%Z
  | JStr s => negb (String.eqb s "")
  | JFun _ | JRef _ => true
  end.

(** [a === b]. *)
Definition strict_eq (a b : jsval) : bool := bool_decide (a = b).

(** [a || b]. *)
Definition js_or (a b : jsval) : jsval := if truthy a then a else b.

Fixpoint prop_get (k : string) (ps : list (string * jsval)) : jsval :=
  match ps with
  | [] => JUndef
  | (k', v) :: ps' => if String.eqb k k' then v else prop_get k ps'
  end.

Fixpoint prop_set (k : string) (v : jsval) (ps : list (string * jsval))
  : list (string * jsval) :=
  match ps with
  | [] => [(k, v)]
  | (k', v') :: ps' =>
      if String.eqb k k' then (k', v) :: ps' else (k', v') :: prop_set k v ps'
  end.

(** [v.k] for the property names the manager reads.  [None] is the
    [TypeError] of a property read on [undefined] or [null]; a primitive or
    a function has none of these properties. *)
Definition get (h : heap) (v : jsval) (k : string) : option jsval :=
  match v with
  | JUndef | JNull => None
  | JRef l => o ← h !! l; Some (prop_get k (props o))
  | _ => Some JUndef
  end.

(** [v.k = x] in strict mode (the file starts with ['use strict']): [None]
    is the [TypeError] of an assignment to a property of a value that is
    not an object. *)
Definition set (h : heap) (v : jsval) (k : string) (x : jsval) : option heap :=
  match v with
  | JRef l =>
      o ← h !! l;
      Some (<[l := Obj (kind o) (prop_set k x (props o))]> h)
  | _ => None
  end.

(** [Array.isArray(v)] and the elements of an array. *)
Definition elems_of (h : heap) (v : jsval) : option (list jsval) :=
  match v with
  | JRef l =>
      match h !! l with
      | Some (Obj (KArr es) _) => Some es
      | _ => None
      end
  | _ => None
  end.

Definition isArray (h : heap) (v : jsval) : bool :=
  match elems_of h v with Some _ => true | None => false end.

(** The own properties of an object value, as a source of [_.defaults]. *)
Definition props_of (h : heap) (v : jsval) : list (string * jsval) :=
  match v with
  | JRef l => match h !! l with Some o => props o | None => [] end
  | _ => []
  end.

End JS.

(** ** The lodash functions the manager calls

    lodash is an external library; these definitions follow its documented
    behaviour on the values above.  A source object of [_.defaults] is
    passed as its list of properties: the temporary objects built by
    [_.omit] and by object literals are never stored. *)

Module Lodash.
Import JS.

(** [_.isUndefined(v)]. *)
Definition isUndefined (v : jsval) : bool := strict_eq v JUndef.

(** One source of [_.defaults]: every key of the source whose value in the
    destination is [undefined] is assigned. *)
Fixpoint defaults_from (src dst : list (string * jsval)) : list (string * jsval) :=
  match src with
  | [] => dst
  | (k, v) :: src' =>
      defaults_from src'
        (if strict_eq (prop_get k dst) JUndef then prop_set k v dst else dst)
  end.

Definition defaults_props (dst : list (string * jsval))
    (sources : list (list (string * jsval))) : list (string * jsval) :=
  foldl (fun d s => defaults_from s d) dst sources.

(** [_.defaults(object, ...sources)]: an object is completed in place and
    returned; any other destination is first replaced by a new object
    ([Object(object)]). *)
Definition defaults (h : heap) (object : jsval)
    (sources : list (list (string * jsval))) : heap * jsval :=
  match object with
  | JRef l =>
      match h !! l with
      | Some o => (<[l := Obj (kind o) (defaults_props (props o) sources)]> h, object)
      | None => (h, object)
      end
  | _ => alloc h (Obj KObj (defaults_props [] sources))
  end.

(** [_.omit(object, key)]: the properties of a shallow copy without [key]. *)
Definition omit (h : heap) (object : jsval) (key : string) : list (string * jsval) :=
  List.filter (fun kv => negb (String.eqb (fst kv) key)) (props_of h object).

(** [_.cloneDeep]: objects and arrays are copied recursively into new
    objects, an object met twice is copied once ([memo]), a function nested
    in an object is shared and a function at the top becomes an empty
    object.  Only the elements of an array are copied.  [fuel] bounds the
    nesting depth. *)
Definition lookup_memo (memo : list (loc * loc)) (l : loc) : option loc :=
  snd <$> List.find (fun p => Nat.eqb (fst p) l) memo.

Section clone_children.
Variable clone : heap -> list (loc * loc) -> jsval -> option (heap * list (loc * loc) * jsval).

Fixpoint clone_elems (h : heap) (memo : list (loc * loc)) (vs : list jsval)
  : option (heap * list (loc * loc) * list jsval) :=
  match vs with
  | [] => Some (h, memo, [])
  | v :: vs' =>
      '(h1, memo1, v') ← clone h memo v;
      '(h2, memo2, vs'') ← clone_elems h1 memo1 vs';
      Some (h2, memo2, v' :: vs'')
  end.

Fixpoint clone_props (h : heap) (memo : list (loc * loc)) (ps : list (string * jsval))
  : option (heap * list (loc * loc) * list (string * jsval)) :=
  match ps with
  | [] => Some (h, memo, [])
  | (k, v) :: ps' =>
      '(h1, memo1, v') ← clone h memo v;
      '(h2, memo2, ps'') ← clone_props h1 memo1 ps';
      Some (h2, memo2, (k, v') :: ps'')
  end.
End clone_children.

Fixpoint baseClone (fuel : nat) (h : heap) (memo : list (loc * loc)) (v : jsval)
  : option (heap * list (loc * loc) * jsval) :=
  match fuel with
  | 0 => None
  | S fuel' =>
      match v with
      | JRef l =>
          match lookup_memo memo l with
          | Some l' => Some (h, memo, JRef l')
          | None =>
              o ← h !! l;
              let l' := length h in
              let h1 := h ++ [Obj KObj []] in
              let memo1 := (l, l') :: memo in
              match kind o with
              | KArr es =>
                  '(h2, memo2, es') ← clone_elems (baseClone fuel') h1 memo1 es;
                  Some (<[l' := Obj (KArr es') []]> h2, memo2, JRef l')
              | KObj =>
                  '(h2, memo2, ps') ← clone_props (baseClone fuel') h1 memo1 (props o);
                  Some (<[l' := Obj KObj ps']> h2, memo2, JRef l')
              end
          end
      | _ => Some (h, memo, v)
      end
  end.

Definition cloneDeep (h : heap) (v : jsval) : option (heap * jsval) :=
  match v with
  | JFun _ => Some (alloc h (Obj KObj []))
  | _ => '(h', _, v') ← baseClone (S (length h)) h [] v; Some (h', v')
  end.

End Lodash.

(** ** Events, effects and the state of a manager *)

Import JS Lodash.

(** The pools a manager can own: the only pool of a manager without
    replication ([this.pool]) and the two pools of the replication router
    ([this.pool.read], [this.pool.write]). *)
Inductive pool_kind := PSingle | PRead | PWrite.

#[global] Instance pool_kind_eq_dec : EqDecision pool_kind.
Proof. solve_decision. Defined.

Inductive js_error :=
| TypeError
| Error (msg : string)
| Rejection (reason : jsval).

#[global] Instance js_error_eq_dec : EqDecision js_error.
Proof. solve_decision. Defined.

(** Who called [_connect]: the version detection of [getConnection] or the
    [create] function of a pool. *)
Inductive origin := Detection | Creation (pk : pool_kind).

#[global] Instance origin_eq_dec : EqDecision origin.
Proof. solve_decision. Defined.

(** Where a pending promise chain waits. *)
Inductive phase :=
| Hooks (cfg : jsval)
| Connecting (cfg : jsval)
| Querying (connection : jsval)
| Disconnecting (connection : jsval).

Record task := Task { task_origin : origin; task_phase : phase }.

(** [this.pool]: the pool of generic-pool, or the router object with the
    counter [reads] its [create] closure captured. *)
Inductive pool_obj := SinglePool | Router (reads : nat).

(** The callbacks the manager hands to [drain]. *)
Inductive drain_cb := DestroyAllNow | DrainRead | NoCallback.

(** The [_options] object built for the version query. *)
Record query_options := QueryOptions {
  transaction_connection : jsval;
  logging_is_noop : bool;
  testLoggingFn : bool
}.

(** Calls of the manager to its collaborators, and the settlements of the
    promises it returned. *)
Inductive effect :=
| ERunHooks (t : nat) (o : origin) (cfg : jsval)
| EConnect (t : nat) (o : origin) (cfg : jsval)
| EDatabaseVersion (t : nat) (options : query_options)
| EDisconnect (o : origin) (connection : jsval)
| ECreatePool (pk : pool_kind) (validate max min idle : jsval)
| EPoolAcquire (caller : nat) (pk : pool_kind) (priority : jsval)
| EPoolRelease (pk : pool_kind) (client : jsval)
| EPoolDrain (pk : pool_kind) (cb : drain_cb)
| EPoolDestroyAllNow (pk : pool_kind)
| EOnExit
| ERemoveExitListener
| ECreated (t : nat) (pk : pool_kind) (connection : jsval)
| ECreateFailed (t : nat) (pk : pool_kind) (e : js_error)
| EReject (caller : nat) (e : js_error)
| EThrow (e : js_error).

#[global] Instance query_options_eq_dec : EqDecision query_options.
Proof. solve_decision. Defined.
#[global] Instance drain_cb_eq_dec : EqDecision drain_cb.
Proof. solve_decision. Defined.
#[global] Instance effect_eq_dec : EqDecision effect.
Proof. solve_decision. Defined.

(** What the surroundings do: calls of the public methods, the pool engine
    calling a factory, the completion of an external asynchronous
    operation, the allocation of an object by other code. *)
Inductive event :=
| EvGetConnection (caller : nat) (options : jsval)
| EvReleaseConnection (connection : jsval)
| EvClose
| EvInitPools
| EvProcessExit
| EvAlloc (o : obj)
| EvTick
| EvFactoryCreate (pk : pool_kind)
| EvFactoryDestroy (pk : pool_kind) (connection : jsval)
| EvDrainCallback (cb : drain_cb)
| EvHooksDone (t : nat) (r : js_error + unit)
| EvConnectDone (t : nat) (r : js_error + jsval)
| EvVersionDone (t : nat) (r : js_error + jsval)
| EvDisconnectDone (t : nat) (r : js_error + unit).

Record state := State {
  heap_of : heap;
  config : jsval;                       (* this.config *)
  databaseVersion : jsval;              (* this.sequelize.options.databaseVersion *)
  defaultVersion : jsval;               (* this.defaultVersion *)
  versionPromise : option nat;          (* this.versionPromise *)
  closed : bool;                        (* getConnection replaced by close *)
  pool : option pool_obj;               (* this.pool *)
  exit_listener : bool;                 (* process.on('exit', this.onProcessExit) *)
  tasks : gmap nat task;                (* pending promise chains *)
  waiters : list (nat * nat * jsval);   (* caller, awaited promise, options *)
  jobs : list (nat * jsval);            (* callbacks queued on a resolved promise *)
  next_task : nat
}.

Definition with_heap (h : heap) (s : state) : state :=
  State h (config s) (databaseVersion s) (defaultVersion s) (versionPromise s)
    (closed s) (pool s) (exit_listener s) (tasks s) (waiters s) (jobs s) (next_task s).

Definition with_databaseVersion (v : jsval) (s : state) : state :=
  State (heap_of s) (config s) v (defaultVersion s) (versionPromise s)
    (closed s) (pool s) (exit_listener s) (tasks s) (waiters s) (jobs s) (next_task s).

Definition with_versionPromise (p : option nat) (s : state) : state :=
  State (heap_of s) (config s) (databaseVersion s) (defaultVersion s) p
    (closed s) (pool s) (exit_listener s) (tasks s) (waiters s) (jobs s) (next_task s).

Definition with_closed (b : bool) (s : state) : state :=
  State (heap_of s) (config s) (databaseVersion s) (defaultVersion s) (versionPromise s)
    b (pool s) (exit_listener s) (tasks s) (waiters s) (jobs s) (next_task s).

Definition with_pool (p : option pool_obj) (s : state) : state :=
  State (heap_of s) (config s) (databaseVersion s) (defaultVersion s) (versionPromise s)
    (closed s) p (exit_listener s) (tasks s) (waiters s) (jobs s) (next_task s).

Definition with_exit_listener (b : bool) (s : state) : state :=
  State (heap_of s) (config s) (databaseVersion s) (defaultVersion s) (versionPromise s)
    (closed s) (pool s) b (tasks s) (waiters s) (jobs s) (next_task s).

Definition with_tasks (ts : gmap nat task) (s : state) : state :=
  State (heap_of s) (config s) (databaseVersion s) (defaultVersion s) (versionPromise s)
    (closed s) (pool s) (exit_listener s) ts (waiters s) (jobs s) (next_task s).

Definition with_waiters (ws : list (nat * nat * jsval)) (s : state) : state :=
  State (heap_of s) (config s) (databaseVersion s) (defaultVersion s) (versionPromise s)
    (closed s) (pool s) (exit_listener s) (tasks s) ws (jobs s) (next_task s).

Definition with_jobs (js : list (nat * jsval)) (s : state) : state :=
  State (heap_of s) (config s) (databaseVersion s) (defaultVersion s) (versionPromise s)
    (closed s) (pool s) (exit_listener s) (tasks s) (waiters s) js (next_task s).

Definition with_next_task (n : nat) (s : state) : state :=
  State (heap_of s) (config s) (databaseVersion s) (defaultVersion s) (versionPromise s)
    (closed s) (pool s) (exit_listener s) (tasks s) (waiters s) (jobs s) n.

(** ** Heap computations that may throw

    [M A] threads the heap; [None] is a [TypeError] thrown at that point,
    with the heap as it was left. *)

Definition M (A : Type) : Type := heap -> heap * option A.

Definition mret {A} (a : A) : M A := fun h => (h, Some a).

Definition mbind {A B} (m : M A) (f : A -> M B) : M B :=
  fun h => match m h with
           | (h', Some a) => f a h'
           | (h', None) => (h', None)
           end.

Notation "'let*' x ':=' m 'in' k" := (mbind m (fun x => k))
  (at level 10, x name, m at level 100, k at level 200).

Definition read (v : jsval) (k : string) : M jsval := fun h => (h, get h v k).

Definition write (v : jsval) (k : string) (x : jsval) : M unit :=
  fun h => match set h v k x with
           | Some h' => (h', Some tt)
           | None => (h, None)
           end.

Definition new (o : obj) : M jsval :=
  fun h => let '(h', r) := alloc h o in (h', Some r).

Definition defaultsM (object : jsval) (sources : list (list (string * jsval))) : M jsval :=
  fun h => let '(h', r) := defaults h object sources in (h', Some r).

Definition omitM (object : jsval) (key : string) : M (list (string * jsval)) :=
  fun h => (h, Some (omit h object key)).

(** ** The constructor *)

Definition defaultPoolingConfig : list (string * jsval) :=
  [("max", JNum 5); ("min", JNum 0); ("idle", JNum 10000); ("handleDisconnects", JBool true)].

Definition pool_false_error : js_error :=
  Error "Support for pool:false was removed in v4.0".

Inductive outcome :=
| Threw (h : heap) (e : js_error)
| Built (s : state) (effects : list effect).

(** [new ConnectionManager(dialect, sequelize)], given the heap,
    [sequelize.config], [sequelize.options.databaseVersion] and the
    [defaultVersion] of the dialect's subclass.  The result is [None] only
    when the clone is not defined (a dangling reference). *)
Definition constructor (h : heap) (sequelize_config databaseVersion0 defaultVersion0 : jsval)
  : option outcome :=
  '(h1, config) ← cloneDeep h sequelize_config;
  Some
    match get h1 config "pool" with
    | None => Threw h1 TypeError
    | Some p =>
        if negb (strict_eq p (JBool false)) then
          let '(h2, dst) := if truthy p then (h1, p) else alloc h1 (Obj KObj []) in
          let '(h3, p') :=
            defaults h2 dst [defaultPoolingConfig; [("validate", JFun "_validate")]] in
          match set h3 config "pool" p' with
          | None => Threw h3 TypeError
          | Some h4 =>
              Built (State h4 config databaseVersion0 defaultVersion0 None false None true
                       ∅ [] [] 0)
                    [EOnExit]
          end
        else Threw h1 pool_false_error
    end.

(** ** initPools *)

Definition pool_field (config : jsval) (k : string) : M jsval :=
  let* p := read config "pool" in read p k.

(** The arguments of [Pooling.createPool] that come from the
    configuration. *)
Definition createPool (pk : pool_kind) (config : jsval) : M effect :=
  let* validate := pool_field config "validate" in
  let* max := pool_field config "max" in
  let* min := pool_field config "min" in
  let* idle := pool_field config "idle" in
  mret (ECreatePool pk validate max min idle).

(** [_.map(reads, readConfig => _.defaults(readConfig, _.omit(this.config, 'replication')))]
    on the elements of the array. *)
Fixpoint map_defaults (config : jsval) (es : list jsval) : M (list jsval) :=
  match es with
  | [] => mret []
  | readConfig :: es' =>
      let* src := omitM config "replication" in
      let* r := defaultsM readConfig [src] in
      let* rs := map_defaults config es' in
      mret (r :: rs)
  end.

Definition elemsM (v : jsval) : M (list jsval) := fun h => (h, elems_of h v).

(** The body of [initPools]: the pool object and the pools created.
    [config.replication] is read once: no statement assigns it. *)
Definition initPools_body (config : jsval) : M (pool_obj * list effect) :=
  let* replication := read config "replication" in
  if negb (truthy replication) then
    let* e := createPool PSingle config in
    mret (SinglePool, [e])
  else
    (* if (!Array.isArray(config.replication.read)) config.replication.read = [config.replication.read] *)
    let* rd := read replication "read" in
    let* _ := (fun h =>
                 if isArray h rd then (h, Some tt)
                 else (let* a := new (Obj (KArr [rd]) []) in write replication "read" a) h) in
    (* config.replication.write = _.defaults(config.replication.write, _.omit(config, 'replication')) *)
    let* w := read replication "write" in
    let* src := omitM config "replication" in
    let* w' := defaultsM w [src] in
    let* _ := write replication "write" w' in
    (* config.replication.read = _.map(config.replication.read, ...): the
       value read here is an array since the first statement *)
    let* rd' := read replication "read" in
    let* es := elemsM rd' in
    let* es' := map_defaults config es in
    let* a' := new (Obj (KArr es') []) in
    let* _ := write replication "read" a' in
    let* er := createPool PRead config in
    let* ew := createPool PWrite config in
    mret (Router 0, [er; ew]).

Definition initPools (s : state) : state * list effect :=
  match initPools_body (config s) (heap_of s) with
  | (h', Some (p, effs)) => (with_pool (Some p) (with_heap h' s), effs)
  | (h', None) => (with_heap h' s, [EThrow TypeError])
  end.

(** ** The replication router *)

(** [acquire: (priority, queryType, useMaster) => ...]: the sub-pool whose
    [acquire] is called, and the priority it is called with. *)
Definition router_acquire (priority queryType useMaster : jsval) : pool_kind * jsval :=
  let useMaster := if isUndefined useMaster then JBool false else useMaster in
  if strict_eq queryType (JStr "SELECT") && negb (truthy useMaster)
  then (PRead, priority)
  else (PWrite, priority).

(** [release: client => ...]: the sub-pool whose [release] is called;
    [None] is the [TypeError] of reading [client.queryType]. *)
Definition router_release (h : heap) (client : jsval) : option (pool_kind * jsval) :=
  t ← get h client "queryType";
  Some (if strict_eq t (JStr "read") then (PRead, client) else (PWrite, client)).

(** [destroy: connection => this.pool[connection.queryType].destroy(connection)]:
    of the properties of the router only [read] and [write] have a
    [destroy] method. *)
Definition router_destroy (h : heap) (connection : jsval) : option (pool_kind * jsval) :=
  t ← get h connection "queryType";
  if strict_eq t (JStr "read") then Some (PRead, connection)
  else if strict_eq t (JStr "write") then Some (PWrite, connection)
  else None.

(** [this.pool.acquire(priority, type, useMaster)]: generic-pool's
    [acquire] takes the priority only. *)
Definition pool_acquire (p : pool_obj) (priority queryType useMaster : jsval)
  : pool_kind * jsval :=
  match p with
  | SinglePool => (PSingle, priority)
  | Router _ => router_acquire priority queryType useMaster
  end.

Definition pool_release (h : heap) (p : pool_obj) (client : jsval)
  : option (pool_kind * jsval) :=
  match p with
  | SinglePool => Some (PSingle, client)
  | Router _ => router_release h client
  end.

(** ** The methods of the manager *)

Section Manager.

(** [semver.valid(version)] is truthy, for a string; semver answers [null]
    for every value that is not a string. *)
Variable semver_valid : string -> bool.

Definition valid_version (version : jsval) : bool :=
  match version with
  | JStr s => semver_valid s
  | _ => false
  end.

(** [_connect(config)]: a new promise chain that starts with the
    [beforeConnect] hooks. *)
Definition _connect (o : origin) (cfg : jsval) (s : state) : state * nat * list effect :=
  let t := next_task s in
  (with_next_task (S t) (with_tasks (<[t := Task o (Hooks cfg)]> (tasks s)) s),
   t, [ERunHooks t o cfg]).

(** [_disconnect(connection)]. *)
Definition _disconnect (o : origin) (connection : jsval) : list effect :=
  [EDisconnect o connection].

(** [options.k] after [options = options || {}]: the empty object has no
    property, and a truthy value can be read. *)
Definition option_get (h : heap) (options : jsval) (k : string) : jsval :=
  if truthy options then default JUndef (get h options k) else JUndef.

(** The callback of [promise.then(() => this.pool.acquire(options.priority,
    options.type, options.useMaster))]: the promise returned to the caller
    follows the promise of the pool, or is rejected when [this.pool] is
    not set. *)
Definition resume (s : state) (j : nat * jsval) : list effect :=
  let '(c, options) := j in
  match pool s with
  | None => [EReject c TypeError]
  | Some p =>
      let '(pk, priority) :=
        pool_acquire p (option_get (heap_of s) options "priority")
                       (option_get (heap_of s) options "type")
                       (option_get (heap_of s) options "useMaster") in
      [EPoolAcquire c pk priority]
  end.

(** [this.config.replication.write || this.config]. *)
Definition detection_target (s : state) : option jsval :=
  r ← get (heap_of s) (config s) "replication";
  w ← get (heap_of s) r "write";
  Some (js_or w (config s)).

Definition closed_error : js_error :=
  Error "ConnectionManager.getConnection was called after the connection manager was closed!".

Definition getConnection (s : state) (c : nat) (options : jsval) : state * list effect :=
  if closed s then (s, [EReject c closed_error])
  else if strict_eq (databaseVersion s) (JNum 0) then
    match versionPromise s with
    | Some p => (with_waiters (waiters s ++ [(c, p, options)]) s, [])
    | None =>
        match detection_target s with
        | None => (s, [EThrow TypeError])
        | Some cfg =>
            let '(s1, p, effs) := _connect Detection cfg s in
            (with_waiters (waiters s1 ++ [(c, p, options)])
               (with_versionPromise (Some p) s1), effs)
        end
    end
  else (with_jobs (jobs s ++ [(c, options)]) s, []).

Definition releaseConnection (s : state) (connection : jsval) : state * list effect :=
  match pool s with
  | None => (s, [EThrow TypeError])
  | Some p =>
      match pool_release (heap_of s) p connection with
      | None => (s, [EThrow TypeError])
      | Some (pk, client) => (s, [EPoolRelease pk client])
      end
  end.

(** [onProcessExit]: the router's [drain] takes no argument, it drains the
    write pool and then, in the callback, the read pool. *)
Definition onProcessExit (s : state) : list effect :=
  match pool s with
  | None => []
  | Some SinglePool => [EPoolDrain PSingle DestroyAllNow]
  | Some (Router _) => [EPoolDrain PWrite DrainRead]
  end.

Definition close (s : state) : state * list effect :=
  (with_closed true (with_exit_listener false s),
   onProcessExit s ++ [ERemoveExitListener]).

(** The callbacks handed to [drain], when the pool engine calls them. *)
Definition drain_callback (s : state) (cb : drain_cb) : list effect :=
  match cb, pool s with
  | NoCallback, _ => []
  | DestroyAllNow, Some SinglePool => [EPoolDestroyAllNow PSingle]
  | DestroyAllNow, Some (Router _) => [EPoolDestroyAllNow PRead; EPoolDestroyAllNow PWrite]
  | DrainRead, Some (Router _) => [EPoolDrain PRead NoCallback]
  | _, _ => [EThrow TypeError]
  end.

(** *** The factories handed to the pool engine *)

(** [config.replication.read[reads % config.replication.read.length]], for
    the value [n] of the counter. *)
Definition read_target (s : state) (n : nat) : option jsval :=
  r ← get (heap_of s) (config s) "replication";
  rd ← get (heap_of s) r "read";
  _ ← get (heap_of s) rd "length";
  Some match elems_of (heap_of s) rd with
       | Some es => default JUndef (es !! (n mod length es))
       | None => JUndef
       end.

Definition write_target (s : state) : option jsval :=
  r ← get (heap_of s) (config s) "replication";
  get (heap_of s) r "write".

(** The pool engine calls [create] of one of the pools built by the last
    [initPools].  [reads++] is evaluated before the configuration is
    read. *)
Definition factory_create (s : state) (pk : pool_kind) : state * list effect :=
  match pk, pool s with
  | PSingle, Some SinglePool =>
      let '(s1, _, effs) := _connect (Creation PSingle) (config s) s in (s1, effs)
  | PRead, Some (Router n) =>
      let s0 := with_pool (Some (Router (S n))) s in
      match read_target s n with
      | None => (s0, [EThrow TypeError])
      | Some cfg =>
          let '(s1, _, effs) := _connect (Creation PRead) cfg s0 in (s1, effs)
      end
  | PWrite, Some (Router _) =>
      match write_target s with
      | None => (s, [EThrow TypeError])
      | Some cfg =>
          let '(s1, _, effs) := _connect (Creation PWrite) cfg s in (s1, effs)
      end
  | _, _ => (s, [])
  end.

Definition factory_destroy (s : state) (pk : pool_kind) (connection : jsval)
  : state * list effect :=
  match pk, pool s with
  | PSingle, Some SinglePool
  | PRead, Some (Router _)
  | PWrite, Some (Router _) => (s, _disconnect (Creation pk) connection)
  | _, _ => (s, [])
  end.

(** *** Completions of the external operations *)

Definition awaits (t : nat) (w : nat * nat * jsval) : bool := Nat.eqb (snd (fst w)) t.

(** The [catch] of the detection chain: [versionPromise] is cleared and
    the error thrown again, which rejects every promise derived from the
    chain. *)
Definition reject_detection (s : state) (t : nat) (e : js_error) : state * list effect :=
  (with_waiters (List.filter (fun w => negb (awaits t w)) (waiters s))
     (with_versionPromise None (with_tasks (delete t (tasks s)) s)),
   (fun w : nat * nat * jsval => EReject (fst (fst w)) e)
     <$> List.filter (awaits t) (waiters s)).

(** The detection chain is fulfilled: the callbacks of the callers run in
    the order of their registration. *)
Definition resolve_detection (s : state) (t : nat) : state * list effect :=
  (with_waiters (List.filter (fun w => negb (awaits t w)) (waiters s))
     (with_tasks (delete t (tasks s)) s),
   List.flat_map (fun w : nat * nat * jsval => resume s (fst (fst w), snd w))
     (List.filter (awaits t) (waiters s))).

Definition fail (s : state) (t : nat) (o : origin) (e : js_error) : state * list effect :=
  match o with
  | Detection => reject_detection s t e
  | Creation pk => (with_tasks (delete t (tasks s)) s, [ECreateFailed t pk e])
  end.

Definition hooks_done (s : state) (t : nat) (r : js_error + unit) : state * list effect :=
  match tasks s !! t with
  | Some (Task o (Hooks cfg)) =>
      match r with
      | inr _ => (with_tasks (<[t := Task o (Connecting cfg)]> (tasks s)) s, [EConnect t o cfg])
      | inl e => fail s t o e
      end
  | _ => (s, [])
  end.

(** What the [create] of a pool does with the connection. *)
Definition created (s : state) (t : nat) (pk : pool_kind) (connection : jsval)
  : state * list effect :=
  let s' := with_tasks (delete t (tasks s)) s in
  match pk with
  | PSingle =>
      (* the debug message reads config.pool.max and config.pool.min *)
      match (let* _ := pool_field (config s) "max" in pool_field (config s) "min") (heap_of s) with
      | (_, Some _) => (s', [ECreated t PSingle connection])
      | (_, None) => (s', [ECreateFailed t PSingle TypeError])
      end
  | PRead =>
      match set (heap_of s) connection "queryType" (JStr "read") with
      | Some h' => (with_heap h' s', [ECreated t PRead connection])
      | None => (s', [ECreateFailed t PRead TypeError])
      end
  | PWrite =>
      match set (heap_of s) connection "queryType" (JStr "write") with
      | Some h' => (with_heap h' s', [ECreated t PWrite connection])
      | None => (s', [ECreateFailed t PWrite TypeError])
      end
  end.

Definition connect_done (s : state) (t : nat) (r : js_error + jsval) : state * list effect :=
  match tasks s !! t with
  | Some (Task o (Connecting cfg)) =>
      match r with
      | inl e => fail s t o e
      | inr connection =>
          match o with
          | Detection =>
              (with_tasks (<[t := Task Detection (Querying connection)]> (tasks s)) s,
               [EDatabaseVersion t (QueryOptions connection true true)])
          | Creation pk => created s t pk connection
          end
      end
  | _ => (s, [])
  end.

Definition version_done (s : state) (t : nat) (r : js_error + jsval) : state * list effect :=
  match tasks s !! t with
  | Some (Task Detection (Querying connection)) =>
      match r with
      | inl e => reject_detection s t e
      | inr version =>
          (with_tasks (<[t := Task Detection (Disconnecting connection)]> (tasks s))
             (with_versionPromise None
                (with_databaseVersion
                   (if valid_version version then version else defaultVersion s) s)),
           _disconnect Detection connection)
      end
  | _ => (s, [])
  end.

Definition disconnect_done (s : state) (t : nat) (r : js_error + unit) : state * list effect :=
  match tasks s !! t with
  | Some (Task Detection (Disconnecting connection)) =>
      match r with
      | inl e => reject_detection s t e
      | inr _ => resolve_detection s t
      end
  | _ => (s, [])
  end.

(** *** The machine *)

(** The callbacks queued on resolved promises run before anything the
    surroundings complete. *)
Definition flush (s : state) : state * list effect :=
  (with_jobs [] s, List.flat_map (resume s) (jobs s)).

Definition after_flush (s : state) (f : state -> state * list effect) : state * list effect :=
  let '(s1, e1) := flush s in
  let '(s2, e2) := f s1 in
  (s2, e1 ++ e2).

Definition step (s : state) (ev : event) : state * list effect :=
  match ev with
  | EvGetConnection c options => getConnection s c options
  | EvReleaseConnection connection => releaseConnection s connection
  | EvClose => close s
  | EvInitPools => initPools s
  | EvProcessExit => if exit_listener s then (s, onProcessExit s) else (s, [])
  | EvAlloc o => (with_heap (heap_of s ++ [o]) s, [])
  | EvTick => flush s
  | EvFactoryCreate pk => after_flush s (fun s => factory_create s pk)
  | EvFactoryDestroy pk connection => after_flush s (fun s => factory_destroy s pk connection)
  | EvDrainCallback cb => after_flush s (fun s => (s, drain_callback s cb))
  | EvHooksDone t r => after_flush s (fun s => hooks_done s t r)
  | EvConnectDone t r => after_flush s (fun s => connect_done s t r)
  | EvVersionDone t r => after_flush s (fun s => version_done s t r)
  | EvDisconnectDone t r => after_flush s (fun s => disconnect_done s t r)
  end.

Fixpoint run (s : state) (tr : list event) : state * list effect :=
  match tr with
  | [] => (s, [])
  | ev :: tr' =>
      let '(s1, e1) := step s ev in
      let '(s2, e2) := run s1 tr' in
      (s2, e1 ++ e2)
  end.

End Manager.

(** * Properties *)

(** ** The replication router *)

(** The routing rule in the words of the specification: the read pool for
    a read that is not forced to the master, the write pool otherwise. *)
Definition spec_route (is_read use_master : bool) : pool_kind :=
  if is_read && negb use_master then PRead else PWrite.

(** A query type indicates a read when it is the string ['SELECT']. *)
Definition indicates_read (queryType : jsval) : bool := strict_eq queryType (JStr "SELECT").

(** C3: the router's [acquire(priority, queryType, useMaster)] delegates to
    the read pool when the query type indicates a read and [useMaster] is
    false, and to the write pool in every other case — a query type that
    is not a read, or [useMaster] true; the priority is passed on.  A
    [useMaster] that is not a boolean counts by its truthiness. *)
Theorem router_acquire_routes (n : nat) (priority queryType useMaster : jsval) :
  pool_acquire (Router n) priority queryType useMaster
  = (spec_route (indicates_read queryType) (truthy useMaster), priority)
  /\ pool_acquire (Router n) priority queryType (JBool false)
     = (if indicates_read queryType then PRead else PWrite, priority)
  /\ pool_acquire (Router n) priority queryType (JBool true) = (PWrite, priority).
Proof.
  unfold pool_acquire, router_acquire, spec_route, indicates_read, isUndefined.
  split; [|split].
  - destruct (strict_eq queryType (JStr "SELECT"));
      destruct useMaster as [| |[]|z|str| |]; simpl; try reflexivity.
    + by destruct (z =? 0)%Z.
    + by destruct (String.eqb str "").
  - simpl. destruct (strict_eq queryType (JStr "SELECT")); reflexivity.
  - simpl. destruct (strict_eq queryType (JStr "SELECT")); reflexivity.
Qed.

Lemma strict_eq_true (a b : jsval) : strict_eq a b = true <-> a = b.
Proof. unfold strict_eq. apply bool_decide_eq_true. Qed.

Lemma strict_eq_false (a b : jsval) : strict_eq a b = false <-> a <> b.
Proof. unfold strict_eq. apply bool_decide_eq_false. Qed.

(** C10: an omitted [useMaster] is treated as [false], and the read pool is
    chosen only for the exact query type ['SELECT'] (with a falsy
    [useMaster]); [undefined], ['read'] and every other query type go to the
    write pool. *)
Theorem router_acquire_undefined_and_select (n : nat) (priority queryType useMaster : jsval) :
  pool_acquire (Router n) priority queryType JUndef
    = pool_acquire (Router n) priority queryType (JBool false)
  /\ (fst (pool_acquire (Router n) priority queryType useMaster) = PRead
      <-> queryType = JStr "SELECT" /\ truthy useMaster = false)
  /\ (queryType <> JStr "SELECT"
      -> pool_acquire (Router n) priority queryType useMaster = (PWrite, priority))
  /\ pool_acquire (Router n) priority JUndef useMaster = (PWrite, priority)
  /\ pool_acquire (Router n) priority (JStr "read") useMaster = (PWrite, priority)
  /\ pool_acquire (Router n) priority (JStr "SELECT") JUndef = (PRead, priority).
Proof.
  assert (Hne : queryType <> JStr "SELECT"
                -> pool_acquire (Router n) priority queryType useMaster = (PWrite, priority)).
  { intros H. apply strict_eq_false in H. simpl. unfold router_acquire. by rewrite H. }
  assert (Hrd : fst (pool_acquire (Router n) priority queryType useMaster) = PRead
                -> queryType = JStr "SELECT" /\ truthy useMaster = false).
  { simpl. unfold router_acquire, isUndefined.
    destruct (strict_eq queryType (JStr "SELECT")) eqn:E; simpl; [|done].
    apply strict_eq_true in E.
    destruct useMaster as [| |[]| | | |]; simpl; try done.
    - destruct (n0 =? 0)%Z; done.
    - destruct (String.eqb s ""); done. }
  split; [done|]. split; [split; [done|]|done].
  intros [-> Hu]. simpl. unfold router_acquire, isUndefined.
  destruct useMaster as [| |[]| | | |]; simpl in *; try done; by rewrite Hu.
Qed.

(** The intent tag of a handle: [client.queryType]; [None] when the handle
    is [undefined] or [null]. *)
Definition intent_tag (h : heap) (client : jsval) : option jsval := get h client "queryType".


(** ** Closing the manager *)

Lemma closed_initPools (s : state) : closed (fst (initPools s)) = closed s.
Proof.
  unfold initPools. destruct (initPools_body (config s) (heap_of s)) as [h' [[p effs]|]]; done.
Qed.

Lemma closed_getConnection (s : state) (c : nat) (options : jsval) :
  closed (fst (getConnection s c options)) = closed s.
Proof.
  unfold getConnection, _connect. repeat case_match; simplify_eq; done.
Qed.

Lemma closed_releaseConnection (s : state) (connection : jsval) :
  closed (fst (releaseConnection s connection)) = closed s.
Proof. unfold releaseConnection. repeat case_match; done. Qed.

Lemma closed_factory_create (s : state) (pk : pool_kind) :
  closed (fst (factory_create s pk)) = closed s.
Proof. unfold factory_create, _connect. repeat case_match; simplify_eq; done. Qed.

Lemma closed_factory_destroy (s : state) (pk : pool_kind) (connection : jsval) :
  closed (fst (factory_destroy s pk connection)) = closed s.
Proof. unfold factory_destroy. repeat case_match; done. Qed.

Lemma closed_fail (s : state) (t : nat) (o : origin) (e : js_error) :
  closed (fst (fail s t o e)) = closed s.
Proof. destruct o; done. Qed.

Lemma closed_hooks_done (s : state) (t : nat) (r : js_error + unit) :
  closed (fst (hooks_done s t r)) = closed s.
Proof. unfold hooks_done. repeat case_match; try done; apply closed_fail. Qed.

Lemma closed_created (s : state) (t : nat) (pk : pool_kind) (connection : jsval) :
  closed (fst (created s t pk connection)) = closed s.
Proof. unfold created. repeat case_match; done. Qed.

Lemma closed_connect_done (s : state) (t : nat) (r : js_error + jsval) :
  closed (fst (connect_done s t r)) = closed s.
Proof.
  unfold connect_done.
  repeat case_match; try done; first [apply closed_fail | apply closed_created].
Qed.

Section ManagerProperties.

Variable semver_valid : string -> bool.

Lemma closed_version_done (s : state) (t : nat) (r : js_error + jsval) :
  closed (fst (version_done semver_valid s t r)) = closed s.
Proof. unfold version_done. repeat case_match; done. Qed.

Lemma closed_disconnect_done (s : state) (t : nat) (r : js_error + unit) :
  closed (fst (disconnect_done s t r)) = closed s.
Proof. unfold disconnect_done. repeat case_match; done. Qed.

Lemma closed_after_flush (s : state) (f : state -> state * list effect) :
  (forall s1, closed (fst (f s1)) = closed s1) ->
  closed (fst (after_flush s f)) = closed s.
Proof.
  intros Hf. unfold after_flush, flush.
  specialize (Hf (with_jobs [] s)). destruct (f (with_jobs [] s)). done.
Qed.

(** Only [close] changes the closed flag, and it sets it. *)
Lemma closed_step (s : state) (ev : event) :
  closed s = true -> closed (fst (step semver_valid s ev)) = true.
Proof.
  intros Hc. destruct ev; simpl;
    try (rewrite closed_after_flush; [done|intros s1]).
  - by rewrite closed_getConnection.
  - by rewrite closed_releaseConnection.
  - done.
  - by rewrite closed_initPools.
  - by destruct (exit_listener s).
  - done.
  - done.
  - apply closed_factory_create.
  - apply closed_factory_destroy.
  - done.
  - apply closed_hooks_done.
  - apply closed_connect_done.
  - apply closed_version_done.
  - apply closed_disconnect_done.
Qed.

Lemma run_app (s : state) (tr1 tr2 : list event) :
  run semver_valid s (tr1 ++ tr2)
  = let '(s1, e1) := run semver_valid s tr1 in
    let '(s2, e2) := run semver_valid s1 tr2 in
    (s2, e1 ++ e2).
Proof.
  revert s. induction tr1 as [|ev tr1 IH]; intros s; simpl.
  - by destruct (run semver_valid s tr2).
  - destruct (step semver_valid s ev) as [s1 e1]. rewrite IH.
    destruct (run semver_valid s1 tr1) as [s2 e2].
    destruct (run semver_valid s2 tr2) as [s3 e3]. by rewrite app_assoc.
Qed.

Lemma closed_run (s : state) (tr : list event) :
  closed s = true -> closed (fst (run semver_valid s tr)) = true.
Proof.
  revert s. induction tr as [|ev tr IH]; intros s Hc; simpl; [done|].
  pose proof (closed_step s ev Hc) as H1.
  destruct (step semver_valid s ev) as [s1 e1]. simpl in H1.
  specialize (IH s1 H1). by destruct (run semver_valid s1 tr).
Qed.

(** C2: once [close] has been called, whatever happens afterwards, every
    later call of [getConnection] is rejected with the error of the closed
    manager, performs no pool operation and leaves the manager as it is:
    the closed state is never left. *)
Theorem getConnection_after_close (s0 : state) (tr : list event) (c : nat) (options : jsval) :
  let s := fst (run semver_valid (fst (close s0)) tr) in
  closed s = true
  /\ step semver_valid s (EvGetConnection c options) = (s, [EReject c closed_error]).
Proof.
  intros s.
  assert (Hc : closed s = true) by (apply closed_run; done).
  split; [done|]. simpl. unfold getConnection. by rewrite Hc.
Qed.

(** C9: [close] replaces [getConnection] only.  The pool and the heap are
    the ones the manager had, and [releaseConnection] on the closed manager
    does exactly what it does on the open one: it delegates to the pool and
    never answers with the error of the closed manager. *)
Theorem releaseConnection_after_close (s : state) (connection : jsval) :
  let s' := fst (close s) in
  pool s' = pool s
  /\ heap_of s' = heap_of s
  /\ snd (releaseConnection s' connection) = snd (releaseConnection s connection)
  /\ fst (releaseConnection s' connection) = s'
  /\ (forall c, EReject c closed_error ∉ snd (releaseConnection s' connection))
  /\ EThrow closed_error ∉ snd (releaseConnection s' connection).
Proof.
  simpl. split; [done|]. split; [done|].
  unfold releaseConnection; simpl.
  destruct (pool s) as [p|]; simpl.
  - destruct (pool_release (heap_of s) p connection) as [[pk client]|]; simpl;
      (split; [done|]); (split; [done|]);
      (split; [intros c|]); rewrite list_elem_of_singleton; done.
  - (split; [done|]); (split; [done|]);
      (split; [intros c|]); rewrite list_elem_of_singleton; done.
Qed.

(** ** Version detection *)

(** The callbacks of the callers that await promise [t], run by [s]. *)
Definition resumed (s : state) (t : nat) (ws : list (nat * nat * jsval)) : list effect :=
  List.flat_map (fun w : nat * nat * jsval => resume s (fst (fst w), snd w))
    (List.filter (awaits t) ws).

Lemma resume_ext (s s' : state) (j : nat * jsval) :
  pool s' = pool s -> heap_of s' = heap_of s -> resume s' j = resume s j.
Proof. intros Hp Hh. unfold resume. destruct j. by rewrite Hp, Hh. Qed.

Lemma resumed_ext (s s' : state) (t : nat) (ws : list (nat * nat * jsval)) :
  pool s' = pool s -> heap_of s' = heap_of s -> resumed s' t ws = resumed s t ws.
Proof.
  intros Hp Hh. unfold resumed, resume. by rewrite Hp, Hh.
Qed.

(** C7: a [getConnection] that finds the version unresolved and no
    detection in flight opens a private connection through the factory
    ([_connect], not a pool), runs the version query on that connection with
    a logging function that does nothing, records the version — the default
    one when the answer is not a valid version — and then disconnects the
    private connection; the callers proceed to the pool only after that. *)
Theorem version_detection_sequence
    (s : state) (c : nat) (options cfg connection version : jsval) :
  closed s = false ->
  databaseVersion s = JNum 0 ->
  versionPromise s = None ->
  detection_target s = Some cfg ->
  jobs s = [] ->
  let t := next_task s in
  exists s',
    run semver_valid s
      [EvGetConnection c options; EvHooksDone t (inr tt); EvConnectDone t (inr connection);
       EvVersionDone t (inr version); EvDisconnectDone t (inr tt)]
    = (s', [ERunHooks t Detection cfg;
            EConnect t Detection cfg;
            EDatabaseVersion t (QueryOptions connection true true);
            EDisconnect Detection connection]
           ++ resumed s t (waiters s ++ [(c, t, options)]))
    /\ databaseVersion s' = (if valid_version semver_valid version then version else defaultVersion s)
    /\ versionPromise s' = None
    /\ tasks s' !! t = None
    /\ heap_of s' = heap_of s
    /\ pool s' = pool s.
Proof.
  intros Hc Hv Hp Ht Hj t.
  eexists. split.
  - unfold run, step, after_flush, flush, getConnection, _connect.
    rewrite Hc, Hv, Hp, Ht. simpl. rewrite Hj. simpl.
    unfold hooks_done. simpl. rewrite lookup_insert_eq. simpl.
    unfold connect_done. simpl. rewrite lookup_insert_eq. simpl.
    unfold version_done. simpl. rewrite lookup_insert_eq. simpl.
    unfold disconnect_done. simpl. rewrite lookup_insert_eq.
    unfold resolve_detection. simpl.
    f_equal. do 4 f_equal. rewrite app_nil_r.
    apply (resumed_ext s); done.
  - simpl. repeat split; try done. apply lookup_delete_eq.
Qed.

(** The event that makes the operation awaited in phase [ph] fail. *)
Definition failure_event (ph : phase) (t : nat) (e : js_error) : event :=
  match ph with
  | Hooks _ => EvHooksDone t (inl e)
  | Connecting _ => EvConnectDone t (inl e)
  | Querying _ => EvVersionDone t (inl e)
  | Disconnecting _ => EvDisconnectDone t (inl e)
  end.

(** The rejections of the callers that await promise [t]. *)
Definition rejected (e : js_error) (t : nat) (ws : list (nat * nat * jsval)) : list effect :=
  (fun w : nat * nat * jsval => EReject (fst (fst w)) e) <$> List.filter (awaits t) ws.

(** A call of [getConnection] in [s] starts a detection of its own. *)
Definition starts_detection (s : state) (cfg : jsval) : Prop :=
  forall c options,
    snd (getConnection s c options) = [ERunHooks (next_task s) Detection cfg]
    /\ versionPromise (fst (getConnection s c options)) = Some (next_task s).

Lemma getConnection_starts_detection (s : state) (cfg : jsval) :
  closed s = false ->
  databaseVersion s = JNum 0 ->
  versionPromise s = None ->
  detection_target s = Some cfg ->
  starts_detection s cfg.
Proof.
  intros Hc Hv Hp Ht c options. unfold getConnection, _connect.
  rewrite Hc, Hv, Hp, Ht. done.
Qed.

Lemma reject_detection_spec (s : state) (t : nat) (e : js_error) :
  let s' := fst (reject_detection s t e) in
  versionPromise s' = None
  /\ closed s' = closed s
  /\ databaseVersion s' = databaseVersion s
  /\ detection_target s' = detection_target s
  /\ snd (reject_detection s t e) = rejected e t (waiters s).
Proof. done. Qed.

(** C6: [versionPromise] is cleared when the detection fails, in whatever
    phase, and when it succeeds in reading the version.  On failure every
    caller that awaits the detection is rejected with the error, and
    afterwards, the version being still unresolved, the next
    [getConnection] starts a detection of its own. *)
Theorem versionPromise_reset (s : state) (t : nat) (ph : phase) (cfg : jsval) :
  tasks s !! t = Some (Task Detection ph) ->
  closed s = false ->
  detection_target s = Some cfg ->
  (forall e,
     let s' := fst (step semver_valid s (failure_event ph t e)) in
     versionPromise s' = None
     /\ snd (step semver_valid s (failure_event ph t e))
        = snd (flush s) ++ rejected e t (waiters s)
     /\ (databaseVersion s = JNum 0 -> starts_detection s' cfg))
  /\ (forall connection version,
        ph = Querying connection ->
        let s' := fst (step semver_valid s (EvVersionDone t (inr version))) in
        versionPromise s' = None
        /\ (databaseVersion s' = JNum 0 -> starts_detection s' cfg)).
Proof.
  intros Ht Hc Hcfg. split.
  - intros e.
    assert (Hstep : step semver_valid s (failure_event ph t e)
                    = (fst (reject_detection (with_jobs [] s) t e),
                       snd (flush s) ++ rejected e t (waiters s))).
    { destruct ph; simpl; unfold after_flush, flush;
        unfold hooks_done, connect_done, version_done, disconnect_done; simpl;
        rewrite Ht; done. }
    rewrite Hstep. simpl. split; [done|]. split; [done|].
    intros Hv. by apply getConnection_starts_detection.
  - intros connection version -> s'. subst s'. simpl.
    unfold after_flush, flush, version_done. simpl. rewrite Ht. simpl.
    split; [done|]. intros Hv. by apply getConnection_starts_detection.
Qed.

(** *** One detection at a time *)

(** The phase of the detection chain [t], if [t] is one. *)
Definition det_phase (s : state) (t : nat) : option phase :=
  match tasks s !! t with
  | Some (Task Detection ph) => Some ph
  | _ => None
  end.

(** A detection is in flight until it has recorded the version. *)
Definition early (ph : phase) : bool :=
  match ph with
  | Disconnecting _ => false
  | _ => true
  end.

(** What every reachable state of a manager satisfies: [versionPromise] is
    set exactly while one detection is in flight, and then the version is
    unresolved. *)
Record detection_inv (s : state) : Prop := DetectionInv {
  inv_in_flight : forall t ph, det_phase s t = Some ph -> early ph = true -> versionPromise s = Some t;
  inv_promise : forall t, versionPromise s = Some t ->
                          exists ph, det_phase s t = Some ph /\ early ph = true;
  inv_recorded : forall t c, det_phase s t = Some (Disconnecting c) -> databaseVersion s <> JNum 0;
  inv_unresolved : forall t, versionPromise s = Some t -> databaseVersion s = JNum 0;
  inv_default : defaultVersion s <> JNum 0;
  inv_fresh : forall t, next_task s <= t -> tasks s !! t = None;
  inv_jobs : jobs s <> [] -> databaseVersion s <> JNum 0
}.

(** How far the detection has come: 0 not started, 1 the hooks run, 2 the
    private connection is being opened, 3 the version query runs, 4 the
    version is resolved. *)
Definition rank (s : state) : nat :=
  match versionPromise s with
  | Some t =>
      match det_phase s t with
      | Some (Hooks _) => 1
      | Some (Connecting _) => 2
      | Some (Querying _) => 3
      | _ => 0
      end
  | None => if strict_eq (databaseVersion s) (JNum 0) then 0 else 4
  end.

Definition credit (k : nat) (s : state) : nat := if (k <=? rank s)%nat then 1 else 0.

(** The calls of the detection: 1 the hooks of a private connection, 2 the
    opening of a private connection, 3 the version query. *)
Definition detection_call (k : nat) (e : effect) : bool :=
  match k, e with
  | 1, ERunHooks _ Detection _ => true
  | 2, EConnect _ Detection _ => true
  | 3, EDatabaseVersion _ _ => true
  | _, _ => false
  end.

Definition calls (k : nat) (log : list effect) : nat :=
  length (List.filter (detection_call k) log).

Lemma calls_app (k : nat) (l1 l2 : list effect) : calls k (l1 ++ l2) = calls k l1 + calls k l2.
Proof. unfold calls. by rewrite List.filter_app, length_app. Qed.

(** The event makes a detection fail. *)
Definition fails_detection (s : state) (ev : event) : bool :=
  match ev with
  | EvHooksDone t (inl _) =>
      match det_phase s t with Some (Hooks _) => true | _ => false end
  | EvConnectDone t (inl _) =>
      match det_phase s t with Some (Connecting _) => true | _ => false end
  | EvVersionDone t (inl _) =>
      match det_phase s t with Some (Querying _) => true | _ => false end
  | EvDisconnectDone t (inl _) =>
      match det_phase s t with Some (Disconnecting _) => true | _ => false end
  | _ => false
  end.

Fixpoint detection_failures (s : state) (tr : list event) : nat :=
  match tr with
  | [] => 0
  | ev :: tr' =>
      (if fails_detection s ev then 1 else 0)
      + detection_failures (fst (step semver_valid s ev)) tr'
  end.

(** A step keeps the invariant and pays every detection call with progress
    of the detection or with a failure. *)
Definition step_ok (s : state) (r : state * list effect) (failed : bool) : Prop :=
  detection_inv (fst r)
  /\ (forall k, calls k (snd r) + credit k s <= credit k (fst r) + (if failed then 1 else 0))
  /\ (databaseVersion s <> JNum 0 -> databaseVersion (fst r) = databaseVersion s).

Lemma calls_resume (k : nat) (s : state) (j : nat * jsval) : calls k (resume s j) = 0.
Proof.
  unfold resume. destruct j as [c o]. destruct (pool s); [|by destruct k as [|[|[|[|]]]]].
  destruct (pool_acquire _ _ _ _). by destruct k as [|[|[|[|]]]].
Qed.

Lemma calls_flat_resume (k : nat) (s : state) (js : list (nat * jsval)) :
  calls k (List.flat_map (resume s) js) = 0.
Proof.
  induction js as [|j js IH]; [done|].
  cbn [List.flat_map]. by rewrite calls_app, IH, calls_resume.
Qed.

Lemma calls_resumed (k : nat) (s : state) (t : nat) (ws : list (nat * nat * jsval)) :
  calls k (resumed s t ws) = 0.
Proof.
  unfold resumed. induction (List.filter (awaits t) ws) as [|w l IH]; [done|].
  cbn [List.flat_map]. by rewrite calls_app, IH, calls_resume.
Qed.

Lemma calls_rejected (k : nat) (e : js_error) (t : nat) (ws : list (nat * nat * jsval)) :
  calls k (rejected e t ws) = 0.
Proof.
  unfold rejected. induction (List.filter (awaits t) ws) as [|w l IH]; [done|].
  rewrite fmap_cons. change (calls k (?x :: ?l)) with (calls k ([x] ++ l)).
  rewrite calls_app, IH. by destruct k as [|[|[|[|]]]].
Qed.

Lemma step_ok_trans (s s1 s2 : state) (e1 e2 : list effect) (b : bool) :
  step_ok s (s1, e1) false -> step_ok s1 (s2, e2) b -> step_ok s (s2, e1 ++ e2) b.
Proof.
  intros (_ & Hc1 & Hv1) (Hi & Hc2 & Hv2). cbn [fst snd] in *. split; [done|]. split.
  - intros k. specialize (Hc1 k). specialize (Hc2 k). cbn [fst snd]. rewrite calls_app. lia.
  - intros Hv. cbn [fst snd]. rewrite Hv2; [by apply Hv1|]. by rewrite Hv1.
Qed.

(** States with the same detection chains. *)
Record same_detection (s s' : state) : Prop := SameDetection {
  same_phase : forall t, det_phase s' t = det_phase s t;
  same_promise : versionPromise s' = versionPromise s;
  same_version : databaseVersion s' = databaseVersion s;
  same_default : defaultVersion s' = defaultVersion s;
  same_fresh : forall t, next_task s' <= t -> tasks s' !! t = None;
  same_jobs : jobs s' <> [] -> databaseVersion s' <> JNum 0
}.

Lemma same_detection_rank (s s' : state) : same_detection s s' -> rank s' = rank s.
Proof.
  intros H. unfold rank. rewrite (same_promise _ _ H), (same_version _ _ H).
  destruct (versionPromise s); [|done]. by rewrite (same_phase _ _ H).
Qed.

Lemma same_detection_ok (s s' : state) (effs : list effect) :
  detection_inv s -> same_detection s s' -> (forall k, calls k effs = 0) ->
  step_ok s (s', effs) false.
Proof.
  intros Hi Hs Hc. split; [|split]; simpl.
  - destruct Hi, Hs. rewrite same_version0 in same_jobs0. split; intros *;
      rewrite ?same_phase0, ?same_promise0, ?same_version0, ?same_default0; eauto.
  - intros k. unfold credit. rewrite (same_detection_rank s s' Hs), Hc. lia.
  - intros _. apply Hs.
Qed.

Lemma det_phase_insert (s : state) (t t' : nat) (o : origin) (ph : phase) :
  det_phase (with_tasks (<[t := Task o ph]> (tasks s)) s) t'
  = if decide (t = t') then match o with Detection => Some ph | Creation _ => None end
    else det_phase s t'.
Proof.
  unfold det_phase. simpl. rewrite lookup_insert. destruct (decide (t = t')); [|done].
  by destruct o.
Qed.

Lemma det_phase_delete (s : state) (t t' : nat) :
  det_phase (with_tasks (delete t (tasks s)) s) t'
  = if decide (t = t') then None else det_phase s t'.
Proof. unfold det_phase. simpl. rewrite lookup_delete. by destruct (decide (t = t')). Qed.

Lemma det_phase_None (s : state) (t : nat) : tasks s !! t = None -> det_phase s t = None.
Proof. unfold det_phase. by intros ->. Qed.

Lemma det_phase_creation (s : state) (t : nat) (pk : pool_kind) (ph : phase) :
  tasks s !! t = Some (Task (Creation pk) ph) -> det_phase s t = None.
Proof. unfold det_phase. by intros ->. Qed.

Lemma det_phase_detection (s : state) (t : nat) (ph : phase) :
  tasks s !! t = Some (Task Detection ph) -> det_phase s t = Some ph.
Proof. unfold det_phase. by intros ->. Qed.

Ltac no_calls := intros k; by destruct k as [|[|[|[|]]]].

(** The operations that leave the detection alone. *)

Lemma flush_ok (s : state) : detection_inv s -> step_ok s (flush s) false.
Proof.
  intros Hi. unfold flush. apply same_detection_ok; [done| |].
  - destruct Hi. split; simpl; try done.
  - intros k. apply calls_flat_resume.
Qed.

Lemma after_flush_ok (s : state) (f : state -> state * list effect) (b : bool) :
  detection_inv s ->
  (forall s1, detection_inv s1 -> (forall t, det_phase s1 t = det_phase s t) -> step_ok s1 (f s1) b) ->
  step_ok s (after_flush s f) b.
Proof.
  intros Hi Hf. pose proof (flush_ok s Hi) as H1. unfold after_flush.
  destruct (flush s) as [s1 e1] eqn:E.
  assert (Hph : forall t, det_phase s1 t = det_phase s t).
  { unfold flush in E. by simplify_eq. }
  specialize (Hf s1 (proj1 H1) Hph). destruct (f s1) as [s2 e2].
  by apply (step_ok_trans s s1 s2).
Qed.

Lemma releaseConnection_ok (s : state) (connection : jsval) :
  detection_inv s -> step_ok s (releaseConnection s connection) false.
Proof.
  intros Hi. unfold releaseConnection.
  repeat case_match; (apply same_detection_ok; [done| |no_calls]); destruct Hi; by split.
Qed.

Lemma close_ok (s : state) : detection_inv s -> step_ok s (close s) false.
Proof.
  intros Hi. unfold close. apply same_detection_ok; [done| |].
  - destruct Hi; by split.
  - intros k. unfold onProcessExit. repeat case_match; by destruct k as [|[|[|[|]]]].
Qed.

Lemma calls_createPool (pk : pool_kind) (cfg : jsval) (h h' : heap) (e : effect) (k : nat) :
  createPool pk cfg h = (h', Some e) -> detection_call k e = false.
Proof.
  unfold createPool, mbind, mret.
  repeat case_match; intros; simplify_eq; by destruct k as [|[|[|[|]]]].
Qed.

Lemma mbind_Some {A B} (m : M A) (f : A -> M B) (h h' : heap) (b : B) :
  mbind m f h = (h', Some b) ->
  exists h1 a, m h = (h1, Some a) /\ f a h1 = (h', Some b).
Proof. unfold mbind. destruct (m h) as [h1 [a|]]; [eauto|done]. Qed.

Lemma calls_initPools_body (cfg : jsval) (h h' : heap) (p : pool_obj) (effs : list effect)
    (k : nat) :
  initPools_body cfg h = (h', Some (p, effs)) -> calls k effs = 0.
Proof.
  unfold initPools_body. intros H.
  apply mbind_Some in H as (h1 & r & _ & H).
  destruct (negb (truthy r)).
  - apply mbind_Some in H as (h2 & e & He & H). unfold mret in H. simplify_eq.
    unfold calls. simpl. by rewrite (calls_createPool _ _ _ _ _ _ He).
  - do 11 (apply mbind_Some in H as (? & ? & _ & H)).
    apply mbind_Some in H as (h2 & er & Her & H).
    apply mbind_Some in H as (h3 & ew & Hew & H). unfold mret in H. simplify_eq.
    unfold calls. simpl.
    by rewrite (calls_createPool _ _ _ _ _ _ Her), (calls_createPool _ _ _ _ _ _ Hew).
Qed.

Lemma initPools_ok (s : state) : detection_inv s -> step_ok s (initPools s) false.
Proof.
  intros Hi. unfold initPools.
  destruct (initPools_body (config s) (heap_of s)) as [h' [[p effs]|]] eqn:E.
  - apply same_detection_ok; [done| |].
    + destruct Hi; by split.
    + intros k. by eapply calls_initPools_body.
  - apply same_detection_ok; [done| |no_calls]. destruct Hi; by split.
Qed.

Lemma connect_creation_ok (s : state) (pk : pool_kind) (cfg : jsval) :
  detection_inv s ->
  step_ok s (let '(s1, _, effs) := _connect (Creation pk) cfg s in (s1, effs)) false.
Proof.
  intros Hi. unfold _connect. apply same_detection_ok; [done| |no_calls].
  pose proof (inv_fresh s Hi) as Hf.
  split; simpl; try done; [|intros t Ht|apply Hi].
  - intros t. unfold det_phase. simpl. rewrite lookup_insert.
    destruct (decide (next_task s = t)) as [<-|]; [|done].
    rewrite Hf; [done|lia].
  - rewrite lookup_insert_ne by lia. apply Hf. lia.
Qed.

Lemma with_pool_ok (s : state) (p : option pool_obj) (effs : list effect) :
  detection_inv s -> (forall k, calls k effs = 0) -> step_ok s (with_pool p s, effs) false.
Proof. intros Hi Hc. apply same_detection_ok; [done| |done]. destruct Hi; by split. Qed.

Lemma with_pool_inv (s : state) (p : option pool_obj) :
  detection_inv s -> detection_inv (with_pool p s).
Proof. intros Hi. destruct Hi; by split. Qed.

Lemma factory_create_ok (s : state) (pk : pool_kind) :
  detection_inv s -> step_ok s (factory_create s pk) false.
Proof.
  intros Hi. unfold factory_create.
  destruct pk, (pool s) as [[|n]|] eqn:Hp;
    try (apply same_detection_ok; [done| |no_calls]; destruct Hi; by split).
  - by apply connect_creation_ok.
  - destruct (read_target s n).
    + pose proof (connect_creation_ok (with_pool (Some (Router (S n))) s) PRead j
                    (with_pool_inv _ _ Hi)) as H.
      destruct (_connect _ _ _) as [[s1 t] effs]. destruct H as (H1 & H2 & H3).
      split; [done|]. split; [|done]. intros k. specialize (H2 k).
      unfold credit, rank in *. simpl in *. done.
    + apply with_pool_ok; [done|no_calls].
  - destruct (write_target s); [by apply connect_creation_ok|].
    apply same_detection_ok; [done| |no_calls]. destruct Hi; by split.
Qed.

Lemma factory_destroy_ok (s : state) (pk : pool_kind) (connection : jsval) :
  detection_inv s -> step_ok s (factory_destroy s pk connection) false.
Proof.
  intros Hi. unfold factory_destroy.
  repeat case_match; (apply same_detection_ok; [done| |no_calls]); destruct Hi; by split.
Qed.

Lemma drain_callback_ok (s : state) (cb : drain_cb) :
  detection_inv s -> step_ok s (s, drain_callback s cb) false.
Proof.
  intros Hi. apply same_detection_ok; [done| |].
  - destruct Hi; by split.
  - intros k. unfold drain_callback. repeat case_match; by destruct k as [|[|[|[|]]]].
Qed.

(** The steps of the detection. *)

Lemma credit_le_1 (k : nat) (s : state) : credit k s <= 1.
Proof. unfold credit. destruct (k <=? rank s)%nat; lia. Qed.

Lemma rank_le_4 (s : state) : rank s <= 4.
Proof.
  unfold rank. destruct (versionPromise s).
  - destruct (det_phase s n) as [[]|]; lia.
  - destruct (strict_eq _ _); lia.
Qed.

Lemma getConnection_ok (s : state) (c : nat) (options : jsval) :
  detection_inv s -> step_ok s (getConnection s c options) false.
Proof.
  intros Hi. unfold getConnection.
  destruct (closed s).
  { apply same_detection_ok; [done| |no_calls]. destruct Hi; by split. }
  destruct (strict_eq (databaseVersion s) (JNum 0)) eqn:Hv.
  2:{ apply strict_eq_false in Hv. apply same_detection_ok; [done| |no_calls].
      destruct Hi; by split. }
  apply strict_eq_true in Hv.
  destruct (versionPromise s) as [p|] eqn:Hp.
  { apply same_detection_ok; [done| |no_calls]. destruct Hi; by split. }
  destruct (detection_target s) as [cfg|].
  2:{ apply same_detection_ok; [done| |no_calls]. destruct Hi; by split. }
  unfold _connect. set (t := next_task s).
  pose proof (inv_fresh s Hi) as Hf.
  assert (Hph : forall t', det_phase
            (with_waiters (waiters s ++ [(c, t, options)])
               (with_versionPromise (Some t)
                  (with_next_task (S t)
                     (with_tasks (<[t := Task Detection (Hooks cfg)]> (tasks s)) s)))) t'
            = if decide (t = t') then Some (Hooks cfg) else det_phase s t').
  { intros t'. unfold det_phase. simpl. rewrite lookup_insert. by destruct (decide (t = t')). }
  split; [|split]; cbn [fst snd].
  - split.
    + intros t' ph. rewrite Hph. destruct (decide (t = t')) as [<-|]; [done|].
      intros H1 H2. pose proof (inv_in_flight s Hi _ _ H1 H2). congruence.
    + intros t' [= <-]. exists (Hooks cfg). rewrite Hph. by rewrite decide_True.
    + intros t' c'. rewrite Hph. destruct (decide (t = t')); [done|].
      apply (inv_recorded s Hi).
    + done.
    + apply Hi.
    + intros t' Ht'. simpl in *. rewrite lookup_insert_ne by (subst t; lia).
      apply Hf. subst t. lia.
    + apply Hi.
  - intros k. unfold credit, rank. cbn [versionPromise with_waiters with_versionPromise].
    rewrite Hph, decide_True by done. rewrite Hp, Hv.
    by destruct k as [|[|[|[|]]]].
  - done.
Qed.

(** The [catch] of a detection chain. *)
Lemma reject_detection_ok (s : state) (t : nat) (ph : phase) (e : js_error) :
  detection_inv s -> det_phase s t = Some ph ->
  step_ok s (reject_detection s t e) true.
Proof.
  intros Hi Ht. unfold reject_detection.
  assert (Hph : forall t', det_phase
            (with_waiters (List.filter (fun w => negb (awaits t w)) (waiters s))
               (with_versionPromise None (with_tasks (delete t (tasks s)) s))) t'
            = if decide (t = t') then None else det_phase s t').
  { intros t'. unfold det_phase. simpl. rewrite lookup_delete. by destruct (decide (t = t')). }
  assert (Hnone : forall t' ph', t <> t' -> det_phase s t' = Some ph' -> early ph' = true -> False).
  { intros t' ph' Hne H1 H2. pose proof (inv_in_flight s Hi _ _ H1 H2) as Hp.
    destruct (early ph) eqn:E.
    - pose proof (inv_in_flight s Hi _ _ Ht E). congruence.
    - destruct ph; try done.
      by apply (inv_recorded s Hi _ _ Ht), (inv_unresolved s Hi t'). }
  split; [|split]; cbn [fst snd].
  - split.
    + intros t' ph'. rewrite Hph. destruct (decide (t = t')); [done|].
      intros H1 H2. by destruct (Hnone t' ph').
    + done.
    + intros t' c'. rewrite Hph. destruct (decide (t = t')); [done|].
      apply (inv_recorded s Hi).
    + done.
    + apply Hi.
    + intros t' Ht'. simpl in *. rewrite lookup_delete_ne.
      * by apply (inv_fresh s Hi).
      * intros ->. unfold det_phase in Ht. by rewrite (inv_fresh s Hi t') in Ht.
    + apply Hi.
  - intros k. fold (rejected e t (waiters s)). rewrite calls_rejected.
    pose proof (credit_le_1 k s). lia.
  - done.
Qed.

Lemma fail_ok (s : state) (t : nat) (o : origin) (ph : phase) (e : js_error) :
  detection_inv s -> tasks s !! t = Some (Task o ph) ->
  step_ok s (fail s t o e) (match det_phase s t with Some _ => true | None => false end).
Proof.
  intros Hi Ht. destruct o; simpl.
  - rewrite (det_phase_detection _ _ _ Ht). by eapply reject_detection_ok, det_phase_detection.
  - rewrite (det_phase_creation _ _ _ _ Ht).
    apply same_detection_ok; [done| |no_calls].
    split; try apply Hi; try done.
    + intros t'. rewrite det_phase_delete. destruct (decide (t = t')) as [<-|]; [|done].
      by rewrite (det_phase_creation _ _ _ _ Ht).
    + intros t' Ht'. simpl. destruct (decide (t = t')) as [<-|].
      * apply lookup_delete_eq.
      * rewrite lookup_delete_ne by done. by apply (inv_fresh s Hi).
Qed.

(** A detection chain moves on to its next phase. *)
Lemma advance_ok (s : state) (t : nat) (ph ph' : phase) (effs : list effect) :
  detection_inv s ->
  det_phase s t = Some ph -> early ph = true -> early ph' = true ->
  (forall k, calls k effs + credit k s
             <= credit k (with_tasks (<[t := Task Detection ph']> (tasks s)) s)) ->
  step_ok s (with_tasks (<[t := Task Detection ph']> (tasks s)) s, effs) false.
Proof.
  intros Hi Ht He He' Hc.
  pose proof (inv_in_flight s Hi _ _ Ht He) as Hp.
  split; [|split]; cbn [fst snd].
  - split; try apply Hi.
    + intros t' ph''. rewrite det_phase_insert. destruct (decide (t = t')) as [<-|]; [done|].
      apply (inv_in_flight s Hi).
    + intros t' Ht'. simpl in Ht'. exists ph'. rewrite det_phase_insert.
      rewrite decide_True by congruence. done.
    + intros t' c'. rewrite det_phase_insert. destruct (decide (t = t')) as [<-|].
      * intros [= ->]. done.
      * apply (inv_recorded s Hi).
    + intros t' Ht'. simpl. rewrite lookup_insert_ne; [by apply (inv_fresh s Hi)|].
      intros ->. unfold det_phase in Ht. by rewrite (inv_fresh s Hi t') in Ht.
  - intros k. specialize (Hc k). lia.
  - done.
Qed.

Lemma rank_in_flight (s : state) (t : nat) (ph : phase) :
  detection_inv s -> det_phase s t = Some ph -> early ph = true ->
  rank s = match ph with Hooks _ => 1 | Connecting _ => 2 | Querying _ => 3 | _ => 0 end.
Proof.
  intros Hi Ht He. unfold rank. by rewrite (inv_in_flight s Hi _ _ Ht He), Ht.
Qed.

Lemma rank_advance (s : state) (t : nat) (ph ph' : phase) :
  detection_inv s -> det_phase s t = Some ph -> early ph = true -> early ph' = true ->
  rank (with_tasks (<[t := Task Detection ph']> (tasks s)) s)
  = match ph' with Hooks _ => 1 | Connecting _ => 2 | Querying _ => 3 | _ => 0 end.
Proof.
  intros Hi Ht He He'. unfold rank. cbn [versionPromise with_tasks].
  rewrite (inv_in_flight s Hi _ _ Ht He), det_phase_insert. by rewrite decide_True.
Qed.

(** A chain that is not a detection in flight is retired. *)
Lemma retire_ok (s s' : state) (t : nat) (effs : list effect) :
  detection_inv s ->
  (forall ph, det_phase s t = Some ph -> early ph = false) ->
  tasks s' = delete t (tasks s) ->
  versionPromise s' = versionPromise s ->
  databaseVersion s' = databaseVersion s ->
  defaultVersion s' = defaultVersion s ->
  next_task s' = next_task s ->
  jobs s' = jobs s ->
  (forall k, calls k effs = 0) ->
  step_ok s (s', effs) false.
Proof.
  intros Hi Ht Hts Hp Hv Hd Hn Hj Hc.
  assert (Hph : forall t', det_phase s' t' = if decide (t = t') then None else det_phase s t').
  { intros t'. unfold det_phase. rewrite Hts, lookup_delete. by destruct (decide (t = t')). }
  assert (Hrank : rank s' = rank s).
  { unfold rank. rewrite Hp, Hv. destruct (versionPromise s) as [p|] eqn:E; [|done].
    rewrite Hph. destruct (decide (t = p)) as [->|]; [|done].
    destruct (inv_promise s Hi p E) as (ph & H1 & H2). by rewrite (Ht ph H1) in H2. }
  split; [|split]; cbn [fst snd].
  - split.
    + intros t' ph. rewrite Hph, Hp. destruct (decide (t = t')); [done|].
      apply (inv_in_flight s Hi).
    + intros t'. rewrite Hp, Hph. intros E.
      destruct (inv_promise s Hi t' E) as (ph & H1 & H2). exists ph.
      destruct (decide (t = t')) as [->|]; [|done]. by rewrite (Ht ph H1) in H2.
    + intros t' c'. rewrite Hph, Hv. destruct (decide (t = t')); [done|].
      apply (inv_recorded s Hi).
    + rewrite Hp, Hv. apply Hi.
    + rewrite Hd. apply Hi.
    + intros t'. rewrite Hn, Hts. intros Ht'. destruct (decide (t = t')) as [->|].
      * apply lookup_delete_eq.
      * rewrite lookup_delete_ne by done. by apply (inv_fresh s Hi).
    + rewrite Hj, Hv. apply Hi.
  - intros k. unfold credit. rewrite Hrank, Hc. lia.
  - done.
Qed.

Lemma hooks_done_ok (s : state) (t : nat) (r : js_error + unit) :
  detection_inv s ->
  step_ok s (hooks_done s t r) (fails_detection s (EvHooksDone t r)).
Proof.
  intros Hi. unfold hooks_done, fails_detection.
  destruct (tasks s !! t) as [[o ph]|] eqn:Ht.
  2:{ rewrite (det_phase_None _ _ Ht). destruct r;
        (apply same_detection_ok; [done| |no_calls]); destruct Hi; by split. }
  assert (Hskip : step_ok s (s, []) false).
  { apply same_detection_ok; [done| |no_calls]. destruct Hi; by split. }
  destruct ph as [cfg| | |];
    try (destruct r, o; unfold det_phase; rewrite ?Ht; simpl; exact Hskip).
  destruct r as [e|[]].
  - pose proof (fail_ok s t o _ e Hi Ht) as H. unfold det_phase in *. rewrite Ht in *.
    by destruct o.
  - destruct o.
    + apply (advance_ok s t (Hooks cfg)); try done; [by apply det_phase_detection|].
      intros k. unfold credit.
      rewrite (rank_in_flight s t (Hooks cfg)), (rank_advance s t (Hooks cfg));
        try done; try by apply det_phase_detection.
      by destruct k as [|[|[|[|]]]].
    + apply same_detection_ok; [done| |no_calls]. split; try apply Hi; try done.
      * intros t'. rewrite det_phase_insert. destruct (decide (t = t')) as [<-|]; [|done].
        by rewrite (det_phase_creation _ _ _ _ Ht).
      * intros t' Ht'. simpl. rewrite lookup_insert_ne; [by apply (inv_fresh s Hi)|].
        intros ->. by rewrite (inv_fresh s Hi t') in Ht.
Qed.

Lemma created_ok (s : state) (t : nat) (pk : pool_kind) (ph : phase) (connection : jsval) :
  detection_inv s -> tasks s !! t = Some (Task (Creation pk) ph) ->
  step_ok s (created s t pk connection) false.
Proof.
  intros Hi Ht.
  assert (Hph : forall ph', det_phase s t = Some ph' -> early ph' = false).
  { intros ph'. by rewrite (det_phase_creation _ _ _ _ Ht). }
  unfold created. destruct pk.
  - destruct ((let* _ := pool_field (config s) "max" in pool_field (config s) "min") (heap_of s))
      as [h' [v|]]; by (apply (retire_ok s _ t); try done; no_calls).
  - destruct (set (heap_of s) connection "queryType" (JStr "read"));
      by (apply (retire_ok s _ t); try done; no_calls).
  - destruct (set (heap_of s) connection "queryType" (JStr "write"));
      by (apply (retire_ok s _ t); try done; no_calls).
Qed.

Lemma connect_done_ok (s : state) (t : nat) (r : js_error + jsval) :
  detection_inv s ->
  step_ok s (connect_done s t r) (fails_detection s (EvConnectDone t r)).
Proof.
  intros Hi. unfold connect_done, fails_detection.
  destruct (tasks s !! t) as [[o ph]|] eqn:Ht.
  2:{ rewrite (det_phase_None _ _ Ht). destruct r;
        (apply same_detection_ok; [done| |no_calls]); destruct Hi; by split. }
  assert (Hskip : step_ok s (s, []) false).
  { apply same_detection_ok; [done| |no_calls]. destruct Hi; by split. }
  destruct ph as [|cfg| |];
    try (destruct r, o; unfold det_phase; rewrite ?Ht; simpl; exact Hskip).
  destruct r as [e|connection].
  - pose proof (fail_ok s t o _ e Hi Ht) as H. unfold det_phase in *. rewrite Ht in *.
    by destruct o.
  - destruct o.
    + apply (advance_ok s t (Connecting cfg)); try done; [by apply det_phase_detection|].
      intros k. unfold credit.
      rewrite (rank_in_flight s t (Connecting cfg)), (rank_advance s t (Connecting cfg));
        try done; try by apply det_phase_detection.
      by destruct k as [|[|[|[|]]]].
    + by eapply created_ok.
Qed.

Lemma valid_version_nonzero (version : jsval) :
  valid_version semver_valid version = true -> version <> JNum 0.
Proof. by destruct version. Qed.

Lemma version_done_ok (s : state) (t : nat) (r : js_error + jsval) :
  detection_inv s ->
  step_ok s (version_done semver_valid s t r) (fails_detection s (EvVersionDone t r)).
Proof.
  intros Hi. unfold version_done, fails_detection.
  assert (Hskip : step_ok s (s, []) false).
  { apply same_detection_ok; [done| |no_calls]. destruct Hi; by split. }
  destruct (tasks s !! t) as [[o ph]|] eqn:Ht.
  2:{ rewrite (det_phase_None _ _ Ht). by destruct r. }
  destruct o.
  2:{ rewrite (det_phase_creation _ _ _ _ Ht). by destruct r, ph. }
  pose proof (det_phase_detection _ _ _ Ht) as Hd. rewrite Hd.
  destruct ph as [| |connection|]; try by destruct r.
  destruct r as [e|version]; [by eapply reject_detection_ok|].
  pose proof (inv_in_flight s Hi _ _ Hd eq_refl) as Hp.
  pose proof (inv_unresolved s Hi _ Hp) as Hv.
  set (v := if valid_version semver_valid version then version else defaultVersion s).
  assert (Hnz : v <> JNum 0).
  { subst v. destruct (valid_version semver_valid version) eqn:E.
    - by apply valid_version_nonzero.
    - apply Hi. }
  split; [|split]; cbn [fst snd].
  - split; cbn [versionPromise databaseVersion defaultVersion jobs next_task tasks
                  with_tasks with_versionPromise with_databaseVersion]; try done.
    + intros t' ph. unfold det_phase. cbn [tasks with_tasks]. rewrite lookup_insert.
      destruct (decide (t = t')) as [<-|].
      * by intros [= <-].
      * intros H1 H2. pose proof (inv_in_flight s Hi t' ph H1 H2). congruence.
    + apply Hi.
    + intros t' Ht'. rewrite lookup_insert_ne; [by apply (inv_fresh s Hi)|].
      intros ->. by rewrite (inv_fresh s Hi t') in Ht.
  - intros k. unfold credit, rank.
    cbn [versionPromise databaseVersion with_tasks with_versionPromise with_databaseVersion].
    apply strict_eq_false in Hnz. rewrite Hnz, Hp, Hd.
    destruct k as [|[|[|[|[|]]]]]; cbn; lia.
  - intros Hv'. done.
Qed.

Lemma disconnect_done_ok (s : state) (t : nat) (r : js_error + unit) :
  detection_inv s ->
  step_ok s (disconnect_done s t r) (fails_detection s (EvDisconnectDone t r)).
Proof.
  intros Hi. unfold disconnect_done, fails_detection.
  assert (Hskip : step_ok s (s, []) false).
  { apply same_detection_ok; [done| |no_calls]. destruct Hi; by split. }
  destruct (tasks s !! t) as [[o ph]|] eqn:Ht.
  2:{ rewrite (det_phase_None _ _ Ht). by destruct r. }
  destruct o.
  2:{ rewrite (det_phase_creation _ _ _ _ Ht). by destruct r, ph. }
  pose proof (det_phase_detection _ _ _ Ht) as Hd. rewrite Hd.
  destruct ph as [| | |connection]; try by destruct r.
  destruct r as [e|[]]; [by eapply reject_detection_ok|].
  unfold resolve_detection. apply (retire_ok s _ t); try done.
  - intros ph. rewrite Hd. by intros [= <-].
  - intros k. apply calls_resumed.
Qed.

(** Every step keeps the invariant. *)
Lemma step_step_ok (s : state) (ev : event) :
  detection_inv s -> step_ok s (step semver_valid s ev) (fails_detection s ev).
Proof.
  intros Hi.
  assert (Hflush : forall (f : state -> state * list effect) ev',
             (forall s1, detection_inv s1 -> step_ok s1 (f s1) (fails_detection s1 ev')) ->
             step_ok s (after_flush s f) (fails_detection s ev')).
  { intros f ev' Hf. apply after_flush_ok; [done|]. intros s1 H1 Hph.
    replace (fails_detection s ev') with (fails_detection s1 ev'); [by apply Hf|].
    unfold fails_detection. destruct ev'; try done; by rewrite Hph. }
  destruct ev; cbn [step].
  - by apply getConnection_ok.
  - by apply releaseConnection_ok.
  - by apply close_ok.
  - by apply initPools_ok.
  - destruct (exit_listener s); (apply same_detection_ok; [done| |]);
      try (destruct Hi; by split); try no_calls.
    intros k. unfold onProcessExit. repeat case_match; by destruct k as [|[|[|[|]]]].
  - apply same_detection_ok; [done| |no_calls]. destruct Hi; by split.
  - by apply flush_ok.
  - apply (Hflush _ (EvFactoryCreate pk)). intros s1 H1. by apply factory_create_ok.
  - apply (Hflush _ (EvFactoryDestroy pk connection)). intros s1 H1.
    by apply factory_destroy_ok.
  - apply (Hflush _ (EvDrainCallback cb)). intros s1 H1. by apply drain_callback_ok.
  - apply (Hflush _ (EvHooksDone t r)). intros s1 H1. by apply hooks_done_ok.
  - apply (Hflush _ (EvConnectDone t r)). intros s1 H1. by apply connect_done_ok.
  - apply (Hflush _ (EvVersionDone t r)). intros s1 H1. by apply version_done_ok.
  - apply (Hflush _ (EvDisconnectDone t r)). intros s1 H1. by apply disconnect_done_ok.
Qed.

Lemma run_ok (s : state) (tr : list event) :
  detection_inv s ->
  detection_inv (fst (run semver_valid s tr))
  /\ (forall k, calls k (snd (run semver_valid s tr)) + credit k s
                <= credit k (fst (run semver_valid s tr)) + detection_failures s tr)
  /\ (databaseVersion s <> JNum 0 ->
      databaseVersion (fst (run semver_valid s tr)) = databaseVersion s).
Proof.
  revert s. induction tr as [|ev tr IH]; intros s Hi.
  - split; [done|]. split; [|done]. intros k. cbn. unfold calls. simpl. lia.
  - destruct (step_step_ok s ev Hi) as (H1 & H2 & H3).
    cbn [run detection_failures].
    destruct (step semver_valid s ev) as [s1 e1]. cbn [fst snd] in *.
    destruct (IH s1 H1) as (H4 & H5 & H6).
    destruct (run semver_valid s1 tr) as [s2 e2]. cbn [fst snd] in *.
    split; [done|]. split.
    + intros k. specialize (H2 k). specialize (H5 k). rewrite calls_app.
      destruct (fails_detection s ev); lia.
    + intros Hv. rewrite H6; [by apply H3|]. by rewrite H3.
Qed.

(** A manager as the constructor leaves it, with the version to detect. *)
Definition fresh_unresolved (s : state) : Prop :=
  databaseVersion s = JNum 0
  /\ versionPromise s = None
  /\ tasks s = ∅
  /\ jobs s = []
  /\ defaultVersion s <> JNum 0.

Lemma fresh_unresolved_inv (s : state) :
  fresh_unresolved s -> detection_inv s /\ rank s = 0.
Proof.
  intros (Hv & Hp & Ht & Hj & Hd). split.
  - split; try done; unfold det_phase; rewrite ?Hp, ?Ht; done.
  - unfold rank. by rewrite Hp, Hv.
Qed.

(** C1, as the code has it.  Over any run of a manager that starts with the
    version unresolved: the private connections opened for the detection,
    the hooks run for them and the version queries are each at most one
    more than the detections that failed, so at most one when none fails;
    a call that arrives while a detection is in flight opens nothing and
    awaits the promise of that detection; when the detection completes,
    all its callers proceed in the same step, with the version resolved;
    and a resolved version never changes. *)
Theorem shared_version_detection (s0 : state) (tr : list event) :
  fresh_unresolved s0 ->
  let s := fst (run semver_valid s0 tr) in
  let log := snd (run semver_valid s0 tr) in
  calls 1 log <= 1 + detection_failures s0 tr
  /\ calls 2 log <= 1 + detection_failures s0 tr
  /\ calls 3 log <= 1 + detection_failures s0 tr
  /\ (forall p c options,
        versionPromise s = Some p -> closed s = false ->
        getConnection s c options = (with_waiters (waiters s ++ [(c, p, options)]) s, []))
  /\ (forall t connection,
        tasks s !! t = Some (Task Detection (Disconnecting connection)) ->
        databaseVersion s <> JNum 0
        /\ snd (step semver_valid s (EvDisconnectDone t (inr tt)))
           = snd (flush s) ++ resumed s t (waiters s))
  /\ (forall tr',
        databaseVersion s <> JNum 0 ->
        databaseVersion (fst (run semver_valid s tr')) = databaseVersion s).
Proof.
  intros Hf s log. destruct (fresh_unresolved_inv s0 Hf) as [Hi0 Hr0].
  destruct (run_ok s0 tr Hi0) as (Hi & Hc & _). fold s in Hi, Hc. fold log in Hc.
  assert (Hcalls : forall k, 1 <= k -> calls k log <= 1 + detection_failures s0 tr).
  { intros k Hk. specialize (Hc k). pose proof (credit_le_1 k s).
    unfold credit in Hc at 1. rewrite Hr0 in Hc.
    destruct k; [lia|]. simpl in Hc. lia. }
  split; [apply Hcalls; lia|]. split; [apply Hcalls; lia|]. split; [apply Hcalls; lia|].
  split; [|split].
  - intros p c options Hp Hcl. unfold getConnection.
    rewrite Hcl, (inv_unresolved s Hi p Hp), Hp. done.
  - intros t connection Ht. split.
    + by eapply (inv_recorded s Hi), det_phase_detection.
    + cbn [step]. unfold after_flush, flush, disconnect_done. cbn. rewrite Ht. done.
  - intros tr' Hv. by apply run_ok.
Qed.

(** ** What a step does to the heap and to the pool *)

(** The events that can write to the heap: [initPools], an allocation by
    the surroundings, and the connection handed to the [create] function
    of a pool. *)
Definition writes_heap (ev : event) : bool :=
  match ev with
  | EvInitPools | EvAlloc _ | EvConnectDone _ (inr _) => true
  | _ => false
  end.

Lemma frame_getConnection (s : state) (c : nat) (options : jsval) :
  let s' := fst (getConnection s c options) in
  heap_of s' = heap_of s /\ config s' = config s /\ pool s' = pool s.
Proof. unfold getConnection, _connect. repeat case_match; simplify_eq; done. Qed.

Lemma frame_reject_detection (s : state) (t : nat) (e : js_error) :
  let s' := fst (reject_detection s t e) in
  heap_of s' = heap_of s /\ config s' = config s /\ pool s' = pool s.
Proof. done. Qed.

Lemma frame_fail (s : state) (t : nat) (o : origin) (e : js_error) :
  let s' := fst (fail s t o e) in
  heap_of s' = heap_of s /\ config s' = config s /\ pool s' = pool s.
Proof. by destruct o. Qed.

Lemma frame_hooks_done (s : state) (t : nat) (r : js_error + unit) :
  let s' := fst (hooks_done s t r) in
  heap_of s' = heap_of s /\ config s' = config s /\ pool s' = pool s.
Proof. unfold hooks_done. repeat case_match; try done; apply frame_fail. Qed.

Lemma frame_version_done (s : state) (t : nat) (r : js_error + jsval) :
  let s' := fst (version_done semver_valid s t r) in
  heap_of s' = heap_of s /\ config s' = config s /\ pool s' = pool s.
Proof. unfold version_done. repeat case_match; done. Qed.

Lemma frame_disconnect_done (s : state) (t : nat) (r : js_error + unit) :
  let s' := fst (disconnect_done s t r) in
  heap_of s' = heap_of s /\ config s' = config s /\ pool s' = pool s.
Proof. unfold disconnect_done. repeat case_match; done. Qed.

Lemma frame_factory_destroy (s : state) (pk : pool_kind) (connection : jsval) :
  let s' := fst (factory_destroy s pk connection) in
  heap_of s' = heap_of s /\ config s' = config s /\ pool s' = pool s.
Proof. unfold factory_destroy. repeat case_match; done. Qed.

Lemma frame_factory_create (s : state) (pk : pool_kind) :
  let s' := fst (factory_create s pk) in
  heap_of s' = heap_of s /\ config s' = config s.
Proof. unfold factory_create, _connect. repeat case_match; simplify_eq; done. Qed.

Lemma frame_created (s : state) (t : nat) (pk : pool_kind) (connection : jsval) :
  let s' := fst (created s t pk connection) in
  config s' = config s /\ pool s' = pool s
  /\ (heap_of s' = heap_of s
      \/ exists tag : string,
           set (heap_of s) connection "queryType" (JStr tag) = Some (heap_of s')).
Proof. unfold created. repeat case_match; simplify_eq; simpl; eauto. Qed.

Lemma frame_connect_done (s : state) (t : nat) (r : js_error + jsval) :
  let s' := fst (connect_done s t r) in
  config s' = config s /\ pool s' = pool s
  /\ (heap_of s' = heap_of s
      \/ exists connection (tag : string),
           r = inr connection
           /\ set (heap_of s) connection "queryType" (JStr tag) = Some (heap_of s')).
Proof.
  unfold connect_done.
  destruct (tasks s !! t) as [[o [|cfg| |]]|]; try (simpl; by eauto).
  destruct r as [e|connection].
  - destruct (frame_fail s t o e) as (? & ? & ?). eauto.
  - destruct o as [|pk]; [simpl; by eauto|].
    destruct (frame_created s t pk connection) as (? & ? & [?|[tag ?]]); [by eauto|].
    split; [done|]. split; [done|]. right. by exists connection, tag.
Qed.

Lemma frame_initPools (s : state) : config (fst (initPools s)) = config s.
Proof.
  unfold initPools. by destruct (initPools_body (config s) (heap_of s)) as [h' [[p effs]|]].
Qed.

Lemma frame_after_flush (s : state) (f : state -> state * list effect) (P : state -> state -> Prop) :
  (forall s1, heap_of s1 = heap_of s -> config s1 = config s -> pool s1 = pool s ->
              P s (fst (f s1))) ->
  P s (fst (after_flush s f)).
Proof.
  intros Hf. unfold after_flush, flush. specialize (Hf (with_jobs [] s) eq_refl eq_refl eq_refl).
  by destruct (f (with_jobs [] s)).
Qed.

(** No step changes [this.config], the reference to the snapshot. *)
Lemma step_config (s : state) (ev : event) : config (fst (step semver_valid s ev)) = config s.
Proof.
  destruct ev; cbn [step];
    try (apply (frame_after_flush s _ (fun s s' => config s' = config s));
         intros s1 Hh Hc Hp; rewrite <- Hc).
  - apply frame_getConnection.
  - unfold releaseConnection. repeat case_match; done.
  - done.
  - apply frame_initPools.
  - by destruct (exit_listener s).
  - done.
  - done.
  - apply frame_factory_create.
  - apply frame_factory_destroy.
  - done.
  - apply frame_hooks_done.
  - apply frame_connect_done.
  - apply frame_version_done.
  - apply frame_disconnect_done.
Qed.

(** The heap is written by no method of the manager other than
    [initPools]: not by [getConnection], [releaseConnection], [close], the
    exit hook, the steps of the version detection or the factories.  The
    only other writes are the intent tag put on a connection and what the
    surroundings allocate. *)
Lemma step_heap_unchanged (s : state) (ev : event) :
  writes_heap ev = false -> heap_of (fst (step semver_valid s ev)) = heap_of s.
Proof.
  intros Hw. destruct ev; try done; cbn [step];
    try (apply (frame_after_flush s _ (fun s s' => heap_of s' = heap_of s));
         intros s1 Hh Hc Hp; rewrite <- Hh).
  - apply frame_getConnection.
  - unfold releaseConnection. repeat case_match; done.
  - by destruct (exit_listener s).
  - apply frame_factory_create.
  - apply frame_factory_destroy.
  - apply frame_hooks_done.
  - destruct r; [|done]. unfold connect_done. repeat case_match; try done. apply frame_fail.
  - apply frame_version_done.
  - apply frame_disconnect_done.
Qed.

(** *** Reading the heap after a write elsewhere *)

Lemma prop_get_set_ne (k k0 : string) (x : jsval) (ps : list (string * jsval)) :
  k <> k0 -> prop_get k (prop_set k0 x ps) = prop_get k ps.
Proof.
  intros Hne. induction ps as [|[k' v] ps IH]; simpl.
  - by rewrite (proj2 (String.eqb_neq k k0)).
  - destruct (String.eqb k0 k') eqn:E; simpl.
    + apply String.eqb_eq in E. subst k'. by rewrite (proj2 (String.eqb_neq k k0)).
    + destruct (String.eqb k k'); [done|apply IH].
Qed.

Lemma prop_get_set_eq (k : string) (x : jsval) (ps : list (string * jsval)) :
  prop_get k (prop_set k x ps) = x.
Proof.
  induction ps as [|[k' v] ps IH]; simpl.
  - by rewrite String.eqb_refl.
  - destruct (String.eqb k k') eqn:E; simpl; rewrite E; [done|apply IH].
Qed.

Lemma get_app (h : heap) (o : obj) (v : jsval) (k : string) (x : jsval) :
  get h v k = Some x -> get (h ++ [o]) v k = Some x.
Proof.
  destruct v; simpl; try done.
  destruct (h !! l) as [o'|] eqn:E; [|done]. simpl.
  by rewrite (lookup_app_l_Some _ _ _ _ E).
Qed.

Lemma elems_of_app (h : heap) (o : obj) (v : jsval) (es : list jsval) :
  elems_of h v = Some es -> elems_of (h ++ [o]) v = Some es.
Proof.
  destruct v; simpl; try done.
  destruct (h !! l) as [o'|] eqn:E; [|done].
  by rewrite (lookup_app_l_Some _ _ _ _ E).
Qed.

Lemma get_set_ne (h h' : heap) (c v x : jsval) (k k0 : string) :
  set h c k0 x = Some h' -> k <> k0 -> get h' v k = get h v k.
Proof.
  intros Hs Hne. destruct c as [| | | | | |l0]; try done. simpl in Hs.
  destruct (h !! l0) as [o0|] eqn:E0; [|done]. simpl in Hs. simplify_eq.
  destruct v as [| | | | | |l]; try done. simpl.
  destruct (decide (l0 = l)) as [->|].
  - rewrite list_lookup_insert_eq by (by eapply lookup_lt_Some).
    rewrite E0. simpl. by rewrite prop_get_set_ne.
  - by rewrite list_lookup_insert_ne.
Qed.

Lemma elems_of_set (h h' : heap) (c v x : jsval) (k0 : string) :
  set h c k0 x = Some h' -> elems_of h' v = elems_of h v.
Proof.
  intros Hs. destruct c as [| | | | | |l0]; try done. simpl in Hs.
  destruct (h !! l0) as [o0|] eqn:E0; [|done]. simpl in Hs. simplify_eq.
  destruct v as [| | | | | |l]; try done. simpl.
  destruct (decide (l0 = l)) as [->|].
  - rewrite list_lookup_insert_eq by (by eapply lookup_lt_Some).
    rewrite E0. by destruct o0.
  - by rewrite list_lookup_insert_ne.
Qed.

(** The elements of [config.replication.read]. *)
Definition read_targets (h : heap) (cfg : jsval) : option (list jsval) :=
  r ← get h cfg "replication";
  rd ← get h r "read";
  elems_of h rd.

(** What a step other than [initPools] does to the heap. *)
Definition heap_step (h h' : heap) : Prop :=
  h' = h
  \/ (exists o, h' = h ++ [o])
  \/ (exists c (tag : string), set h c "queryType" (JStr tag) = Some h').


Lemma step_heap_step (s : state) (ev : event) :
  ev <> EvInitPools -> heap_step (heap_of s) (heap_of (fst (step semver_valid s ev))).
Proof.
  intros Hne. destruct (writes_heap ev) eqn:Hw.
  - destruct ev as [| | | | |o| | | | | |t [e|connection]| |]; try done.
    + right. left. by exists o.
    + cbn [step]. apply (frame_after_flush s _ (fun s s' => heap_step (heap_of s) (heap_of s'))).
      intros s1 Hh _ _. rewrite <- Hh.
      destruct (frame_connect_done s1 t (inr connection)) as (_ & _ & [->|(c & tag & _ & H)]).
      * by left.
      * right. right. by exists c, tag.
  - left. by apply step_heap_unchanged.
Qed.

(** ** Round robin over the read targets *)















(** *** A connection is opened with the configuration of its creation *)

Definition hooks_of (e : effect) : option (nat * origin * jsval) :=
  match e with
  | ERunHooks t o cfg => Some (t, o, cfg)
  | _ => None
  end.

Definition connect_of (e : effect) : option (nat * origin * jsval) :=
  match e with
  | EConnect t o cfg => Some (t, o, cfg)
  | _ => None
  end.

(** The calls of [_connect], and the connections opened. *)
Definition hooked (log : list effect) : list (nat * origin * jsval) := omap hooks_of log.
Definition connects (log : list effect) : list (nat * origin * jsval) := omap connect_of log.

Section Projection.
Context {A : Type} (f : effect -> option A).
Hypothesis f_acquire : forall c pk p, f (EPoolAcquire c pk p) = None.
Hypothesis f_reject : forall c e, f (EReject c e) = None.

Lemma omap_resume (s : state) (j : nat * jsval) : omap f (resume s j) = [].
Proof using f_acquire f_reject.
  unfold resume. destruct j as [c o]. destruct (pool s); simpl; [|by rewrite f_reject].
  destruct (pool_acquire _ _ _ _). simpl. by rewrite f_acquire.
Qed.

Lemma omap_flat_resume (s : state) (js : list (nat * jsval)) :
  omap f (List.flat_map (resume s) js) = [].
Proof using f_acquire f_reject.
  induction js as [|j js IH]; [done|].
  cbn [List.flat_map]. by rewrite omap_app, IH, omap_resume.
Qed.

Lemma omap_resumed (s : state) (t : nat) (ws : list (nat * nat * jsval)) :
  omap f (resumed s t ws) = [].
Proof using f_acquire f_reject.
  unfold resumed. induction (List.filter (awaits t) ws) as [|w l IH]; [done|].
  cbn [List.flat_map]. by rewrite omap_app, IH, omap_resume.
Qed.

Lemma omap_rejected (e : js_error) (t : nat) (ws : list (nat * nat * jsval)) :
  omap f (rejected e t ws) = [].
Proof using f_reject.
  unfold rejected. induction (List.filter (awaits t) ws) as [|w l IH]; [done|].
  rewrite fmap_cons. simpl. by rewrite f_reject.
Qed.
End Projection.

Definition chain_step (s : state) (r : state * list effect) : Prop :=
  (forall t o cfg,
     tasks (fst r) !! t = Some (Task o (Hooks cfg)) ->
     tasks s !! t = Some (Task o (Hooks cfg)) \/ (t, o, cfg) ∈ hooked (snd r))
  /\ (forall t o cfg,
        (t, o, cfg) ∈ connects (snd r) -> tasks s !! t = Some (Task o (Hooks cfg))).

Lemma chain_same (s s' : state) (effs : list effect) :
  tasks s' = tasks s -> connects effs = [] -> chain_step s (s', effs).
Proof.
  intros Ht Hc. split; cbn [fst snd].
  - intros t o cfg. rewrite Ht. by left.
  - intros t o cfg. rewrite Hc. by intros ?%elem_of_nil.
Qed.

Lemma chain_delete (s s' : state) (t : nat) (effs : list effect) :
  tasks s' = delete t (tasks s) -> connects effs = [] -> chain_step s (s', effs).
Proof.
  intros Ht Hc. split; cbn [fst snd].
  - intros t' o cfg. rewrite Ht. intros H%lookup_delete_Some. left. apply H.
  - intros t' o cfg. rewrite Hc. by intros ?%elem_of_nil.
Qed.

Lemma chain_late (s s' : state) (t : nat) (o : origin) (ph : phase) (effs : list effect) :
  tasks s' = <[t := Task o ph]> (tasks s) ->
  (forall cfg, ph <> Hooks cfg) ->
  connects effs = [] ->
  chain_step s (s', effs).
Proof.
  intros Ht Hph Hc. split; cbn [fst snd].
  - intros t' o' cfg. rewrite Ht, lookup_insert. destruct (decide (t = t')); [|by left].
    intros [= -> ->]. by destruct (Hph cfg).
  - intros t' o' cfg. rewrite Hc. by intros ?%elem_of_nil.
Qed.

Lemma chain_connect (s : state) (o : origin) (cfg : jsval) :
  chain_step s (let '(s1, _, effs) := _connect o cfg s in (s1, effs)).
Proof.
  unfold _connect. split; cbn [fst snd].
  - intros t o' cfg'. simpl. rewrite lookup_insert. destruct (decide (next_task s = t)).
    + intros [= -> ->]. right. subst. apply list_elem_of_singleton. done.
    + by left.
  - intros t o' cfg'. by intros ?%elem_of_nil.
Qed.

Lemma chain_fail (s : state) (t : nat) (o : origin) (e : js_error) :
  chain_step s (fail s t o e).
Proof.
  destruct o; apply (chain_delete _ _ t); try done.
  apply (omap_rejected connect_of); done.
Qed.

Lemma chain_with_pool (s : state) (p : option pool_obj) (r : state * list effect) :
  chain_step (with_pool p s) r -> chain_step s r.
Proof. done. Qed.

Lemma chain_after_flush (s : state) (f : state -> state * list effect) :
  (forall s1, tasks s1 = tasks s -> chain_step s1 (f s1)) -> chain_step s (after_flush s f).
Proof.
  intros Hf. unfold after_flush, flush. specialize (Hf (with_jobs [] s) eq_refl).
  destruct (f (with_jobs [] s)) as [s2 e2]. destruct Hf as [H1 H2].
  unfold chain_step, hooked, connects in *. cbn [fst snd] in *. split; intros t o cfg.
  - rewrite omap_app, (omap_flat_resume hooks_of) by done. apply H1.
  - rewrite omap_app, (omap_flat_resume connect_of) by done. apply H2.
Qed.

Lemma chain_tasks (s s1 s2 : state) (effs : list effect) :
  tasks s2 = tasks s1 -> chain_step s (s1, effs) -> chain_step s (s2, effs).
Proof. intros Ht [H1 H2]. split; cbn [fst snd] in *; [by rewrite Ht|done]. Qed.

Lemma chain_step_step (s : state) (ev : event) : chain_step s (step semver_valid s ev).
Proof.
  destruct ev; cbn [step]; try (apply chain_after_flush; intros s1 _).
  - unfold getConnection. destruct (closed s); [by apply chain_same|].
    destruct (strict_eq _ _); [|by apply chain_same].
    destruct (versionPromise s); [by apply chain_same|].
    destruct (detection_target s) as [cfg|]; [|by apply chain_same].
    pose proof (chain_connect s Detection cfg) as Hc.
    destruct (_connect Detection cfg s) as [[s1 p] effs].
    by apply (chain_tasks s s1).
  - unfold releaseConnection. repeat case_match; by apply chain_same.
  - apply chain_same; [done|]. unfold close, onProcessExit. repeat case_match; done.
  - unfold initPools.
    destruct (initPools_body (config s) (heap_of s)) as [h' [[p effs]|]] eqn:E;
      [|by apply chain_same].
    apply chain_same; [done|].
    unfold initPools_body in E. apply mbind_Some in E as (h1 & r & _ & E).
    destruct (negb (truthy r)).
    + apply mbind_Some in E as (h2 & e & He & E). unfold mret in E. simplify_eq.
      unfold createPool in He. repeat (apply mbind_Some in He as (? & ? & _ & He)).
      unfold mret in He. by simplify_eq.
    + do 11 (apply mbind_Some in E as (? & ? & _ & E)).
      apply mbind_Some in E as (h2 & er & Her & E).
      apply mbind_Some in E as (h3 & ew & Hew & E). unfold mret in E. simplify_eq.
      unfold createPool in Her, Hew.
      repeat (apply mbind_Some in Her as (? & ? & _ & Her)).
      repeat (apply mbind_Some in Hew as (? & ? & _ & Hew)).
      unfold mret in *. by simplify_eq.
  - destruct (exit_listener s); apply chain_same; try done.
    unfold onProcessExit. repeat case_match; done.
  - by apply chain_same.
  - apply chain_same; [done|]. apply (omap_flat_resume connect_of); done.
  - unfold factory_create. destruct pk, (pool s1) as [[|n]|]; try by apply chain_same.
    + apply chain_connect.
    + destruct (read_target s1 n) as [cfg|]; [|by apply chain_same].
      apply (chain_with_pool s1 (Some (Router (S n)))), chain_connect.
    + destruct (write_target s1) as [cfg|]; [|by apply chain_same]. apply chain_connect.
  - unfold factory_destroy. repeat case_match; by apply chain_same.
  - apply chain_same; [done|]. unfold drain_callback. repeat case_match; done.
  - unfold hooks_done. destruct (tasks s1 !! t) as [[o [cfg| | |]]|] eqn:Ht;
      try by apply chain_same.
    destruct r; [apply chain_fail|]. split; cbn [fst snd].
    + intros t' o' cfg'. simpl. rewrite lookup_insert. destruct (decide (t = t')); [done|by left].
    + intros t' o' cfg'. intros H%list_elem_of_singleton. by simplify_eq.
  - unfold connect_done. destruct (tasks s1 !! t) as [[o [|cfg| |]]|] eqn:Ht;
      try by apply chain_same.
    destruct r as [e|connection]; [apply chain_fail|].
    destruct o as [|pk]; [by apply (chain_late _ _ t Detection (Querying connection))|].
    unfold created. repeat case_match; by apply (chain_delete _ _ t).
  - unfold version_done. destruct (tasks s1 !! t) as [[[|pk] [| |connection|]]|] eqn:Ht;
      try by apply chain_same.
    destruct r as [e|version]; [apply (chain_fail s1 t Detection)|].
    by apply (chain_late _ _ t Detection (Disconnecting connection)).
  - unfold disconnect_done. destruct (tasks s1 !! t) as [[[|pk] [| | |connection]]|] eqn:Ht;
      try by apply chain_same.
    destruct r as [e|[]]; [apply (chain_fail s1 t Detection)|].
    apply (chain_delete _ _ t); [done|]. apply (omap_resumed connect_of); done.
Qed.

Lemma chain_run (s : state) (tr : list event) (pre : list (nat * origin * jsval)) :
  (forall t o cfg, tasks s !! t = Some (Task o (Hooks cfg)) -> (t, o, cfg) ∈ pre) ->
  forall x, x ∈ connects (snd (run semver_valid s tr)) ->
            x ∈ pre ++ hooked (snd (run semver_valid s tr)).
Proof.
  revert s pre. induction tr as [|ev tr IH]; intros s pre Hpre x.
  - cbn. by intros ?%elem_of_nil.
  - destruct (chain_step_step s ev) as [H1 H2]. cbn [run].
    destruct (step semver_valid s ev) as [s1 e1]. cbn [fst snd] in *.
    specialize (IH s1 (pre ++ hooked e1)).
    destruct (run semver_valid s1 tr) as [s2 e2]. cbn [fst snd] in *.
    unfold connects, hooked in *. rewrite !omap_app, elem_of_app. intros [Hx|Hx].
    + destruct x as [[t o] cfg]. apply elem_of_app. left. by apply Hpre, H2.
    + rewrite app_assoc. apply IH; [|done].
      intros t o cfg Ht. apply elem_of_app. destruct (H1 t o cfg Ht); [left|right]; eauto.
Qed.



(** ** The configuration snapshot *)

(** *** The clone is made of new objects *)

(** A value that refers to no object outside [base, top). *)
Definition fresh_val (base top : nat) (v : jsval) : Prop :=
  match v with
  | JRef l => base <= l < top
  | _ => True
  end.

Definition fresh_obj (base top : nat) (o : obj) : Prop :=
  match kind o with
  | KArr es => Forall (fresh_val base top) es
  | KObj => True
  end
  /\ Forall (fun kv : string * jsval => fresh_val base top (snd kv)) (props o).

(** The objects from [base] on refer to objects from [base] on only. *)
Definition region_fresh (base : nat) (h : heap) : Prop :=
  forall l o, base <= l -> h !! l = Some o -> fresh_obj base (length h) o.
















(** *** The clone is defined

    On a heap without dangling references a nesting deeper than the number
    of objects meets an object already copied: the fuel of [cloneDeep] is
    enough. *)

(** [h] keeps the objects of [h0]. *)
Definition extends (h0 h : heap) : Prop :=
  (forall l, l < length h0 -> h !! l = h0 !! l) /\ length h0 <= length h.

(** The objects copied so far are distinct objects of [h0]. *)
Definition memo_ok (h0 : heap) (memo : list (loc * loc)) : Prop :=
  NoDup memo.*1 /\ Forall (fun k => k < length h0) memo.*1.

Definition clone_total (h0 : heap) (fuel : nat)
    (clone : heap -> list (loc * loc) -> jsval -> option (heap * list (loc * loc) * jsval))
  : Prop :=
  forall h memo v,
    extends h0 h -> memo_ok h0 memo -> fresh_val 0 (length h0) v ->
    length h0 < fuel + length memo ->
    exists h' memo' v',
      clone h memo v = Some (h', memo', v')
      /\ extends h0 h' /\ memo_ok h0 memo' /\ length memo <= length memo'.

Lemma bounded_NoDup_length (ks : list nat) (n : nat) :
  NoDup ks -> Forall (fun k => k < n) ks -> length ks <= n.
Proof.
  intros Hnd Hb. rewrite <- (size_list_to_set (C := gset nat) ks Hnd).
  rewrite <- (size_set_seq (C := gset nat) 0 n). apply subseteq_size.
  intros k Hk%elem_of_list_to_set. apply elem_of_set_seq.
  rewrite Forall_forall in Hb. specialize (Hb k Hk). lia.
Qed.

Lemma lookup_memo_None (memo : list (loc * loc)) (l : loc) :
  lookup_memo memo l = None -> l ∉ memo.*1.
Proof.
  unfold lookup_memo. destruct (List.find _ memo) as [p|] eqn:E; [done|]. intros _.
  intros (p & -> & Hp)%list_elem_of_fmap.
  apply list_elem_of_In in Hp. pose proof (List.find_none _ _ E p Hp) as H.
  simpl in H. by rewrite Nat.eqb_refl in H.
Qed.

Lemma clone_elems_total (h0 : heap) (fuel : nat) clone :
  clone_total h0 fuel clone ->
  forall vs h memo,
    extends h0 h -> memo_ok h0 memo -> Forall (fresh_val 0 (length h0)) vs ->
    length h0 < fuel + length memo ->
    exists h' memo' vs',
      clone_elems clone h memo vs = Some (h', memo', vs')
      /\ extends h0 h' /\ memo_ok h0 memo' /\ length memo <= length memo'.
Proof.
  intros Hc. induction vs as [|v vs IH]; intros h memo He Hm Hvs Hf.
  - exists h, memo, []. split; [done|]. split; [done|]. split; [done|lia].
  - apply Forall_cons in Hvs as [Hv Hvs].
    destruct (Hc h memo v He Hm Hv Hf) as (h1 & m1 & v1 & E1 & He1 & Hm1 & L1).
    destruct (IH h1 m1 He1 Hm1 Hvs ltac:(lia)) as (h2 & m2 & vs2 & E2 & He2 & Hm2 & L2).
    exists h2, m2, (v1 :: vs2). simpl. rewrite E1. simpl. rewrite E2. simpl.
    split; [done|]. split; [done|]. split; [done|lia].
Qed.

Lemma clone_props_total (h0 : heap) (fuel : nat) clone :
  clone_total h0 fuel clone ->
  forall ps h memo,
    extends h0 h -> memo_ok h0 memo ->
    Forall (fun kv : string * jsval => fresh_val 0 (length h0) (snd kv)) ps ->
    length h0 < fuel + length memo ->
    exists h' memo' ps',
      clone_props clone h memo ps = Some (h', memo', ps')
      /\ extends h0 h' /\ memo_ok h0 memo' /\ length memo <= length memo'.
Proof.
  intros Hc. induction ps as [|[k v] ps IH]; intros h memo He Hm Hps Hf.
  - exists h, memo, []. split; [done|]. split; [done|]. split; [done|lia].
  - apply Forall_cons in Hps as [Hv Hps].
    destruct (Hc h memo v He Hm Hv Hf) as (h1 & m1 & v1 & E1 & He1 & Hm1 & L1).
    destruct (IH h1 m1 He1 Hm1 Hps ltac:(lia)) as (h2 & m2 & ps2 & E2 & He2 & Hm2 & L2).
    exists h2, m2, ((k, v1) :: ps2). simpl. rewrite E1. simpl. rewrite E2. simpl.
    split; [done|]. split; [done|]. split; [done|lia].
Qed.

Lemma baseClone_total (h0 : heap) (fuel : nat) :
  region_fresh 0 h0 -> clone_total h0 fuel (baseClone fuel).
Proof.
  intros Hwf. induction fuel as [|fuel IH]; intros h memo v He Hm Hv Hf.
  { destruct Hm as [Hnd Hb]. pose proof (bounded_NoDup_length _ _ Hnd Hb) as Hl.
    rewrite length_fmap in Hl. lia. }
  assert (Hprim : (forall l, v <> JRef l) ->
            exists h' memo' v', baseClone (S fuel) h memo v = Some (h', memo', v')
              /\ extends h0 h' /\ memo_ok h0 memo' /\ length memo <= length memo').
  { intros Hne. exists h, memo, v. split; [|split; [done|split; [done|lia]]].
    destruct v; try done. by destruct (Hne l). }
  destruct v as [| | | | | |l]; try (apply Hprim; done). clear Hprim.
  simpl. destruct (lookup_memo memo l) as [l1|] eqn:El.
  { exists h, memo, (JRef l1). split; [done|]. split; [done|]. split; [done|lia]. }
  simpl in Hv. destruct He as [Hframe Hlen].
  destruct (lookup_lt_is_Some_2 h0 l ltac:(lia)) as [o Ho].
  rewrite (Hframe l) by lia. rewrite Ho. simpl.
  pose proof (Hwf l o ltac:(lia) Ho) as [Hk Hp].
  assert (He1 : extends h0 (h ++ [Obj KObj []])).
  { split.
    - intros l0 Hl0. rewrite lookup_app_l by lia. by apply Hframe.
    - rewrite length_app. lia. }
  assert (Hm1 : memo_ok h0 ((l, length h) :: memo)).
  { destruct Hm as [Hnd Hb]. split; rewrite fmap_cons; simpl.
    - constructor; [by apply lookup_memo_None|done].
    - constructor; [lia|done]. }
  assert (Hf1 : length h0 < fuel + length ((l, length h) :: memo)) by (simpl; lia).
  assert (Hfin : forall h2 (o2 : obj), extends h0 h2 -> extends h0 (<[length h := o2]> h2)).
  { intros h2 o2 [F L]. split.
    - intros l0 Hl0. rewrite list_lookup_insert_ne by lia. by apply F.
    - by rewrite length_insert. }
  destruct (kind o) as [|es].
  - destruct (clone_props_total h0 fuel _ IH (props o) _ _ He1 Hm1 Hp Hf1)
      as (h2 & m2 & ps2 & E2 & He2 & Hm2 & L2).
    rewrite E2. simpl. eexists _, _, _. split; [done|].
    split; [by apply Hfin|]. split; [done|]. simpl in L2. lia.
  - destruct (clone_elems_total h0 fuel _ IH es _ _ He1 Hm1 Hk Hf1)
      as (h2 & m2 & es2 & E2 & He2 & Hm2 & L2).
    rewrite E2. simpl. eexists _, _, _. split; [done|].
    split; [by apply Hfin|]. split; [done|]. simpl in L2. lia.
Qed.

(** On a heap without dangling references, for a value of that heap,
    [_.cloneDeep] returns. *)
Lemma cloneDeep_total (h : heap) (v : jsval) :
  region_fresh 0 h -> fresh_val 0 (length h) v -> is_Some (cloneDeep h v).
Proof.
  intros Hwf Hv. unfold cloneDeep.
  destruct (baseClone_total h (S (length h)) Hwf h [] v) as (h' & m' & v' & E & _).
  - by split.
  - split; simpl; constructor.
  - done.
  - simpl. lia.
  - rewrite E. by destruct v.
Qed.

(** *** The objects of the snapshot

    [R] is the set of the objects the manager made for its snapshot: the
    clone, and what [initPools] adds to it. *)























(** *** Heap computations keep the snapshot to itself *)


























(** *** The constructor and the runs after it *)















End ManagerProperties.

(** * The rest of the manager

    The life cycle, the order of the callers, the handles and the targets
    of the pools, the constructor and [initPools] on the snapshot, and
    [refreshTypeParser]. *)

(** The handlers of [step], unfolded. *)
Ltac handlers :=
  unfold after_flush, flush, getConnection, releaseConnection, close, initPools,
    factory_create, factory_destroy, hooks_done, connect_done, version_done,
    disconnect_done, created, fail, reject_detection, resolve_detection, _connect,
    _disconnect.

(** ** Closing, the exit hook and a known version *)

Section Lifecycle.
Variable semver_valid : string -> bool.

Lemma exit_listener_step (s : state) (ev : event) :
  exit_listener s = false -> exit_listener (fst (step semver_valid s ev)) = false.
Proof.
  intros H. destruct ev; cbn [step]; handlers; repeat case_match; simplify_eq; done.
Qed.

Lemma close_step (s : state) (ev : event) :
  (forall c options, ev <> EvGetConnection c options) ->
  ev <> EvProcessExit ->
  step semver_valid (fst (close s)) ev
  = (fst (close (fst (step semver_valid s ev))), snd (step semver_valid s ev)).
Proof.
  intros Hg He. destruct s. destruct ev; try done.
  1: by destruct (Hg caller options).
  all: try reflexivity.
  all: cbn [step]; handlers;
    unfold read_target, write_target, detection_target, resume, drain_callback, onProcessExit;
    cbn; repeat case_match; simplify_eq; done.
Qed.

Lemma exit_listener_run (s : state) (tr : list event) :
  exit_listener s = false -> exit_listener (fst (run semver_valid s tr)) = false.
Proof.
  revert s. induction tr as [|ev tr IH]; intros s H; cbn [run]; [done|].
  pose proof (exit_listener_step s ev H) as H1.
  destruct (step semver_valid s ev) as [s1 e1]. cbn [fst] in H1.
  specialize (IH s1 H1). by destruct (run semver_valid s1 tr).
Qed.

(** X1: [close] removes the exit hook for good.  Whatever happens after a
    [close], the exit hook stays removed and a process exit drains no pool
    and changes nothing. *)
Theorem exit_after_close (s0 : state) (tr : list event) :
  let s := fst (run semver_valid (fst (close s0)) tr) in
  exit_listener s = false
  /\ step semver_valid s EvProcessExit = (s, []).
Proof.
  intros s. assert (H : exit_listener s = false) by (by apply exit_listener_run).
  split; [done|]. cbn [step]. by rewrite H.
Qed.

(** The events whose handling [close] changes: a call of [getConnection]
    and the process exit. *)
Definition consults_closing (ev : event) : bool :=
  match ev with
  | EvGetConnection _ _ | EvProcessExit => true
  | _ => false
  end.

(** X2: [close] cancels nothing.  It replaces [getConnection] and removes
    the exit hook, and that is all: every completion, pool callback,
    release or tick that follows has on the closed manager the effects it
    has on the open one and leads to the same state, closed.  So a caller
    that was waiting when [close] was called still reaches the pool. *)
Theorem close_cancels_nothing (s : state) (tr : list event) :
  Forall (fun ev => consults_closing ev = false) tr ->
  run semver_valid (fst (close s)) tr
  = (fst (close (fst (run semver_valid s tr))), snd (run semver_valid s tr)).
Proof.
  revert s. induction tr as [|ev tr IH]; intros s Htr; [done|].
  apply Forall_cons in Htr as [Hev Htr]. cbn [run].
  rewrite close_step by (by destruct ev).
  destruct (step semver_valid s ev) as [s1 e1]. cbn [fst snd].
  rewrite (IH s1 Htr). by destruct (run semver_valid s1 tr).
Qed.

Lemma calls_failure (s : state) (ev : event) (k : nat) :
  fails_detection s ev = true -> calls k (snd (step semver_valid s ev)) = 0.
Proof.
  unfold fails_detection, det_phase.
  destruct ev as [| | | | | | | | | |t [e|]|t [e|]|t [e|]|t [e|]]; try done;
    destruct (tasks s !! t) as [[[|pk] [| | |]]|] eqn:Ht; try done; intros _;
    cbn [step]; unfold after_flush, flush, hooks_done, connect_done, version_done,
      disconnect_done, fail, reject_detection; cbn [tasks with_jobs]; rewrite Ht;
    cbn [fst snd]; rewrite calls_app, calls_flat_resume; apply (calls_rejected k e t).
Qed.

Lemma known_version_step (s : state) (ev : event) (k : nat) :
  detection_inv s -> databaseVersion s <> JNum 0 ->
  calls k (snd (step semver_valid s ev)) = 0.
Proof.
  intros Hi Hv. destruct (fails_detection s ev) eqn:Hf; [by apply calls_failure|].
  destruct (step_step_ok semver_valid s ev Hi) as (Hi' & Hc & Hv').
  rewrite Hf in Hc. specialize (Hc k). specialize (Hv' Hv).
  assert (Hr : forall s1, detection_inv s1 -> databaseVersion s1 <> JNum 0 -> rank s1 = 4).
  { intros s1 H1 H2. unfold rank. destruct (versionPromise s1) as [t|] eqn:E.
    - by destruct H2; apply (inv_unresolved s1 H1 t).
    - apply strict_eq_false in H2. by rewrite H2. }
  unfold credit in Hc. rewrite (Hr s Hi Hv) in Hc. rewrite (Hr _ Hi') in Hc by congruence.
  lia.
Qed.

(** X3: when the version is known — given in the options, or detected
    earlier — no run ever detects it again: no hooks are run for a private
    connection, no private connection is opened, no version query is
    made; the version stays as it is, no detection is in flight, and every
    [getConnection] on the open manager only queues the acquisition. *)
Theorem known_version_no_detection (s0 : state) (tr : list event) :
  detection_inv s0 ->
  databaseVersion s0 <> JNum 0 ->
  let s := fst (run semver_valid s0 tr) in
  let log := snd (run semver_valid s0 tr) in
  (forall k, calls k log = 0)
  /\ databaseVersion s = databaseVersion s0
  /\ versionPromise s = None
  /\ (forall c options,
        closed s = false ->
        getConnection s c options = (with_jobs (jobs s ++ [(c, options)]) s, [])).
Proof.
  intros Hi Hv s log.
  assert (Hlog : forall k, calls k log = 0).
  { intros k. subst log. clear s. revert s0 Hi Hv.
    induction tr as [|ev tr IH]; intros s0 Hi Hv; [done|]. cbn [run].
    pose proof (known_version_step s0 ev k Hi Hv) as H1.
    destruct (step_step_ok semver_valid s0 ev Hi) as (Hi1 & _ & Hv1).
    specialize (Hv1 Hv).
    destruct (step semver_valid s0 ev) as [s1 e1]. cbn [fst snd] in *.
    specialize (IH s1 Hi1 ltac:(congruence)).
    destruct (run semver_valid s1 tr) as [s2 e2]. cbn [fst snd] in *.
    rewrite calls_app. lia. }
  destruct (run_ok semver_valid s0 tr Hi) as (Hi' & _ & Hv'). fold s in Hi', Hv'.
  specialize (Hv' Hv).
  assert (Hp : versionPromise s = None).
  { destruct (versionPromise s) as [t|] eqn:E; [|done].
    destruct Hv. rewrite <- Hv'. by apply (inv_unresolved s Hi' t). }
  split; [done|]. split; [done|]. split; [done|].
  intros c options Hc. unfold getConnection. rewrite Hc.
  assert (Hne : databaseVersion s <> JNum 0) by congruence.
  apply strict_eq_false in Hne. by rewrite Hne.
Qed.

End Lifecycle.

(** ** The callers of one detection *)

Section Order.
Variable semver_valid : string -> bool.

(** Calls of [getConnection], one per caller. *)
Definition called (cs : list (nat * jsval)) : list event :=
  (fun j : nat * jsval => EvGetConnection (fst j) (snd j)) <$> cs.

(** The callers as they wait for promise [p]. *)
Definition waiting (p : nat) (cs : list (nat * jsval)) : list (nat * nat * jsval) :=
  (fun j : nat * jsval => (fst j, p, snd j)) <$> cs.

(** The detection [t] of [s] is in phase [ph] and the callers [cs] wait for
    it; the pool and the heap are those of [s0]. *)
Record detecting_in (s0 s : state) (t : nat) (ph : phase) (cs : list (nat * jsval)) : Prop :=
  DetectingIn {
    det_open : closed s = false;
    det_unresolved : databaseVersion s = JNum 0;
    det_promise : versionPromise s = Some t;
    det_task : tasks s !! t = Some (Task Detection ph);
    det_jobs : jobs s = [];
    det_waiters : waiters s = waiting t cs;
    det_pool : pool s = pool s0;
    det_heap : heap_of s = heap_of s0
  }.

Lemma detecting_called (s0 s : state) (t : nat) (ph : phase) (cs cs' : list (nat * jsval)) :
  detecting_in s0 s t ph cs ->
  snd (run semver_valid s (called cs')) = []
  /\ detecting_in s0 (fst (run semver_valid s (called cs'))) t ph (cs ++ cs').
Proof.
  revert s cs. induction cs' as [|[c o] cs' IH]; intros s cs H.
  - cbn. by rewrite app_nil_r.
  - cbn [called fmap list_fmap run step fst snd]. fold (called cs').
    unfold getConnection. destruct H. rewrite det_open0, det_unresolved0, det_promise0.
    change (strict_eq (JNum 0) (JNum 0)) with true. cbn iota.
    destruct (IH (with_waiters (waiters s ++ [(c, t, o)]) s) (cs ++ [(c, o)])) as [H1 H2].
    { split; try done. cbn. rewrite det_waiters0. unfold waiting. by rewrite fmap_app. }
    destruct (run semver_valid _ (called cs')) as [s2 e2]. cbn [fst snd] in *.
    subst e2. split; [done|]. by rewrite <- app_assoc in H2.
Qed.

Lemma detecting_hooks (s0 s : state) (t : nat) (cfg : jsval) (cs : list (nat * jsval)) :
  detecting_in s0 s t (Hooks cfg) cs ->
  snd (step semver_valid s (EvHooksDone t (inr tt))) = [EConnect t Detection cfg]
  /\ detecting_in s0 (fst (step semver_valid s (EvHooksDone t (inr tt)))) t (Connecting cfg) cs.
Proof.
  intros []. cbn [step]. unfold after_flush, flush, hooks_done. cbn [tasks with_jobs].
  rewrite det_task0, det_jobs0. cbn [List.flat_map app fst snd]. split; [done|].
  split; try done. cbn. by rewrite lookup_insert_eq.
Qed.

Lemma detecting_connect (s0 s : state) (t : nat) (cfg connection : jsval)
    (cs : list (nat * jsval)) :
  detecting_in s0 s t (Connecting cfg) cs ->
  snd (step semver_valid s (EvConnectDone t (inr connection)))
  = [EDatabaseVersion t (QueryOptions connection true true)]
  /\ detecting_in s0 (fst (step semver_valid s (EvConnectDone t (inr connection)))) t
       (Querying connection) cs.
Proof.
  intros []. cbn [step]. unfold after_flush, flush, connect_done. cbn [tasks with_jobs].
  rewrite det_task0, det_jobs0. cbn [List.flat_map app fst snd]. split; [done|].
  split; try done. cbn. by rewrite lookup_insert_eq.
Qed.

Lemma waiting_awaits (t : nat) (cs : list (nat * jsval)) :
  List.filter (awaits t) (waiting t cs) = waiting t cs.
Proof.
  induction cs as [|[c o] cs IH]; [done|]. cbn. unfold awaits at 1. cbn.
  rewrite Nat.eqb_refl. f_equal. apply IH.
Qed.

Lemma waiting_resumed (s : state) (t : nat) (cs : list (nat * jsval)) :
  resumed s t (waiting t cs) = List.flat_map (resume s) cs.
Proof.
  unfold resumed. rewrite waiting_awaits.
  induction cs as [|[c o] cs IH]; [done|]. cbn [waiting fmap list_fmap List.flat_map fst snd].
  f_equal. apply IH.
Qed.

Lemma detecting_version (s0 s : state) (t : nat) (connection version : jsval)
    (cs : list (nat * jsval)) :
  detecting_in s0 s t (Querying connection) cs ->
  snd (run semver_valid s [EvVersionDone t (inr version); EvDisconnectDone t (inr tt)])
  = EDisconnect Detection connection :: List.flat_map (resume s0) cs.
Proof.
  intros []. cbn [run step]. unfold after_flush, flush, version_done, disconnect_done.
  cbn [tasks with_jobs]. rewrite det_task0, det_jobs0. cbn [List.flat_map app fst snd].
  cbn [tasks jobs with_jobs with_tasks with_versionPromise with_databaseVersion].
  rewrite lookup_insert_eq. cbn [List.flat_map app fst snd _disconnect].
  unfold resolve_detection. cbn [fst snd]. rewrite app_nil_r. f_equal.
  cbn [waiters with_jobs with_tasks with_versionPromise with_databaseVersion].
  rewrite det_waiters0. etrans; [|apply (waiting_resumed s0 t)].
  apply resumed_ext; done.
Qed.

(** X4: the callers of one detection.  The first caller starts the
    detection; callers that arrive while the hooks run, while the private
    connection is opened and while the version is queried all wait for it.
    When the private connection is disconnected every one of them is
    resumed exactly once, in the order of the calls, and only then. *)
Theorem callers_resumed_in_order
    (s : state) (c : nat) (options : jsval) (cs1 cs2 cs3 : list (nat * jsval))
    (cfg connection version : jsval) :
  closed s = false ->
  databaseVersion s = JNum 0 ->
  versionPromise s = None ->
  detection_target s = Some cfg ->
  jobs s = [] ->
  waiters s = [] ->
  let t := next_task s in
  snd (run semver_valid s
         (EvGetConnection c options :: called cs1
          ++ EvHooksDone t (inr tt) :: called cs2
          ++ EvConnectDone t (inr connection) :: called cs3
          ++ [EvVersionDone t (inr version); EvDisconnectDone t (inr tt)]))
  = [ERunHooks t Detection cfg;
     EConnect t Detection cfg;
     EDatabaseVersion t (QueryOptions connection true true);
     EDisconnect Detection connection]
    ++ List.flat_map (resume s) ((c, options) :: cs1 ++ cs2 ++ cs3).
Proof.
  intros Hc Hv Hp Ht Hj Hw t.
  assert (H0 : snd (step semver_valid s (EvGetConnection c options))
               = [ERunHooks t Detection cfg]
               /\ detecting_in s (fst (step semver_valid s (EvGetConnection c options))) t
                    (Hooks cfg) [(c, options)]).
  { cbn [step]. unfold getConnection, _connect. rewrite Hc, Hv, Hp, Ht.
    change (strict_eq (JNum 0) (JNum 0)) with true. cbn iota. split; [done|].
    split; try done; cbn.
    - by rewrite lookup_insert_eq.
    - by rewrite Hw. }
  cbn [run]. destruct (step semver_valid s (EvGetConnection c options)) as [s1 e1].
  cbn [fst snd] in H0. destruct H0 as [-> H1].
  rewrite run_app.
  destruct (detecting_called s s1 t _ _ cs1 H1) as [E2 H2].
  destruct (run semver_valid s1 (called cs1)) as [s2 e2]. cbn [fst snd] in E2, H2. subst e2.
  cbn [run]. destruct (detecting_hooks s s2 t cfg _ H2) as [E3 H3].
  destruct (step semver_valid s2 (EvHooksDone t (inr tt))) as [s3 e3].
  cbn [fst snd] in E3, H3. subst e3.
  rewrite run_app.
  destruct (detecting_called s s3 t _ _ cs2 H3) as [E4 H4].
  destruct (run semver_valid s3 (called cs2)) as [s4 e4]. cbn [fst snd] in E4, H4. subst e4.
  cbn [run]. destruct (detecting_connect s s4 t cfg connection _ H4) as [E5 H5].
  destruct (step semver_valid s4 (EvConnectDone t (inr connection))) as [s5 e5].
  cbn [fst snd] in E5, H5. subst e5.
  rewrite run_app.
  destruct (detecting_called s s5 t _ _ cs3 H5) as [E6 H6].
  destruct (run semver_valid s5 (called cs3)) as [s6 e6]. cbn [fst snd] in E6, H6. subst e6.
  pose proof (detecting_version s s6 t connection version _ H6) as E7.
  destruct (run semver_valid s6 _) as [s7 e7]. cbn [fst snd] in E7. subst e7.
  cbn [fst snd app]. by rewrite <- !app_assoc.
Qed.
End Order.

(** ** Routing, end to end *)

Lemma router_acquire_rule (priority queryType useMaster : jsval) :
  router_acquire priority queryType useMaster
  = (spec_route (indicates_read queryType) (truthy useMaster), priority).
Proof.
  unfold router_acquire, spec_route, indicates_read, isUndefined.
  destruct (strict_eq queryType (JStr "SELECT"));
    destruct useMaster as [| |[]|z|str| |]; simpl; try reflexivity.
  - by destruct (z =? 0)%Z.
  - by destruct (String.eqb str "").
Qed.

Section Routing.
Variable semver_valid : string -> bool.

(** X5: a call of [getConnection] with the version known, end to end.  The
    call itself does nothing; at the next tick the pool is asked, with the
    priority of the options.  A single pool is asked whatever the options
    are; the router is asked for the read pool exactly when
    [options.type] is ['SELECT'] and [options.useMaster] is falsy.
    Without options ([undefined], [null]) the write pool is asked, with
    priority [undefined]. *)
Theorem getConnection_routes (s : state) (p : pool_obj) (c : nat) (options : jsval) :
  closed s = false ->
  databaseVersion s <> JNum 0 ->
  jobs s = [] ->
  pool s = Some p ->
  let priority := option_get (heap_of s) options "priority" in
  let type := option_get (heap_of s) options "type" in
  let useMaster := option_get (heap_of s) options "useMaster" in
  snd (step semver_valid s (EvGetConnection c options)) = []
  /\ snd (run semver_valid s [EvGetConnection c options; EvTick])
     = [EPoolAcquire c
          match p with
          | SinglePool => PSingle
          | Router _ => spec_route (indicates_read type) (truthy useMaster)
          end
          priority]
  /\ (truthy options = false ->
      snd (run semver_valid s [EvGetConnection c options; EvTick])
      = [EPoolAcquire c match p with SinglePool => PSingle | Router _ => PWrite end JUndef]).
Proof.
  intros Hc Hv Hj Hp priority type useMaster.
  assert (Hrun : snd (run semver_valid s [EvGetConnection c options; EvTick])
                 = resume s (c, options)).
  { cbn [run step]. unfold getConnection, flush. rewrite Hc.
    apply strict_eq_false in Hv. rewrite Hv. cbn [fst snd jobs with_jobs].
    rewrite Hj. cbn [app List.flat_map]. rewrite !app_nil_r.
    apply resume_ext; done. }
  split; [|split].
  - cbn [step]. unfold getConnection. rewrite Hc.
    apply strict_eq_false in Hv. by rewrite Hv.
  - rewrite Hrun. unfold resume. rewrite Hp. fold priority type useMaster.
    destruct p as [|n]; [done|].
    cbn [pool_acquire]. by rewrite router_acquire_rule.
  - intros Ho. rewrite Hrun. unfold resume, option_get. rewrite Hp, Ho.
    by destruct p.
Qed.
End Routing.

(** ** The handles of the router *)


Section Handles.
Variable semver_valid : string -> bool.

(** A step other than [initPools] keeps the router, and the single pool. *)
Lemma router_step (s : state) (ev : event) (n : nat) :
  ev <> EvInitPools -> pool s = Some (Router n) ->
  exists n', pool (fst (step semver_valid s ev)) = Some (Router n').
Proof.
  intros Hne Hp. destruct ev; try done; cbn [step]; handlers;
    repeat case_match; simplify_eq; cbn in *; simplify_eq; eauto.
Qed.

(** The events that leave the tag of [connection] as it is: all but a new
    [initPools] and the delivery of the same object to a [create]
    function. *)
Definition keeps_tag (connection : jsval) (ev : event) : Prop :=
  match ev with
  | EvInitPools => False
  | EvConnectDone _ (inr c) => c <> connection
  | _ => True
  end.

Lemma get_set_other (h h' : heap) (c v x : jsval) (k k0 : string) :
  set h c k0 x = Some h' -> c <> v -> get h' v k = get h v k.
Proof.
  intros Hs Hne. destruct c as [| | | | | |l0]; try done. simpl in Hs.
  destruct (h !! l0) as [o0|] eqn:E0; [|done]. simpl in Hs. simplify_eq.
  destruct v as [| | | | | |l]; try done. simpl.
  rewrite list_lookup_insert_ne; [done|congruence].
Qed.

Lemma tag_step (s : state) (ev : event) (connection tag : jsval) :
  keeps_tag connection ev ->
  intent_tag (heap_of s) connection = Some tag ->
  intent_tag (heap_of (fst (step semver_valid s ev))) connection = Some tag.
Proof.
  unfold intent_tag. intros Hk Ht. destruct (writes_heap ev) eqn:Hw.
  2:{ by rewrite step_heap_unchanged. }
  destruct ev as [| | | | |o| | | | | |t [e|c]| |]; try done.
  - by apply get_app.
  - cbn [step].
    apply (frame_after_flush s _
             (fun s s' => get (heap_of s') connection "queryType" = Some tag)).
    intros s1 Hh _ _.
    destruct (frame_connect_done s1 t (inr c)) as (_ & _ & [->|(c' & tag' & [= <-] & H)]).
    + by rewrite Hh.
    + rewrite (get_set_other _ _ _ _ _ _ _ H Hk). by rewrite Hh.
Qed.

Lemma keeps_tag_run (s : state) (tr : list event) (connection tag : jsval) (n : nat) :
  Forall (keeps_tag connection) tr ->
  pool s = Some (Router n) ->
  intent_tag (heap_of s) connection = Some tag ->
  (exists n', pool (fst (run semver_valid s tr)) = Some (Router n'))
  /\ intent_tag (heap_of (fst (run semver_valid s tr))) connection = Some tag.
Proof.
  revert s n. induction tr as [|ev tr IH]; intros s n Htr Hp Ht; [by eauto|].
  apply Forall_cons in Htr as [Hev Htr]. cbn [run].
  destruct (router_step s ev n) as [n1 Hp1]; [by destruct ev|done|].
  pose proof (tag_step s ev connection tag Hev Ht) as Ht1.
  destruct (step semver_valid s ev) as [s1 e1]. cbn [fst] in *.
  specialize (IH s1 n1 Htr Hp1 Ht1). by destruct (run semver_valid s1 tr).
Qed.

(** The tag the [create] function of a pool of the router puts on its
    connections. *)
Definition tag_of (pk : pool_kind) : jsval :=
  match pk with
  | PRead => JStr "read"
  | _ => JStr "write"
  end.

(** X7: a connection made by a pool of the router comes back to that pool.
    When the dialect delivers an object to the [create] function of the
    read (write) pool, the object is tagged and handed to the pool; from
    then on, until [initPools] is called again or the same object is
    delivered to a [create] function once more, [releaseConnection]
    releases it to that pool and [destroy] destroys it there. *)
Theorem created_handle_round_trip
    (s : state) (n t l : nat) (pk : pool_kind) (cfg : jsval) (tr : list event) :
  pool s = Some (Router n) ->
  tasks s !! t = Some (Task (Creation pk) (Connecting cfg)) ->
  pk <> PSingle ->
  l < length (heap_of s) ->
  Forall (keeps_tag (JRef l)) tr ->
  let r := step semver_valid s (EvConnectDone t (inr (JRef l))) in
  let s' := fst (run semver_valid (fst r) tr) in
  snd r = snd (flush s) ++ [ECreated t pk (JRef l)]
  /\ intent_tag (heap_of s') (JRef l) = Some (tag_of pk)
  /\ releaseConnection s' (JRef l) = (s', [EPoolRelease pk (JRef l)])
  /\ router_destroy (heap_of s') (JRef l) = Some (pk, JRef l).
Proof.
  intros Hp Ht Hpk Hl Htr r s'.
  destruct (lookup_lt_is_Some_2 _ _ Hl) as [o Ho].
  assert (Hr : snd r = snd (flush s) ++ [ECreated t pk (JRef l)]
               /\ pool (fst r) = Some (Router n)
               /\ intent_tag (heap_of (fst r)) (JRef l) = Some (tag_of pk)).
  { subst r. cbn [step]. unfold after_flush, flush, connect_done, created, intent_tag.
    cbn [tasks with_jobs heap_of]. rewrite Ht.
    destruct pk; [done| |]; cbn [set heap_of with_jobs]; rewrite Ho; cbn;
      rewrite list_lookup_insert_eq by done; cbn; by rewrite prop_get_set_eq. }
  destruct Hr as (Hr1 & Hr2 & Hr3). split; [done|].
  destruct (keeps_tag_run (fst r) tr (JRef l) (tag_of pk) n Htr Hr2 Hr3) as [[n' Hp'] Ht'].
  fold s' in Hp', Ht'. split; [done|].
  unfold releaseConnection, pool_release, router_release, router_destroy.
  unfold intent_tag in Ht'. rewrite Hp', Ht'. by destruct pk.
Qed.
End Handles.

(** ** The configuration of a connection *)

Section Targets.
Variable semver_valid : string -> bool.

(** The configuration [_connect] is to be called with, by who calls it:
    [w] is [config.replication.write].  The read pool takes its target by
    round robin. *)
Definition prescribed (w config : jsval) (o : origin) (cfg : jsval) : Prop :=
  match o with
  | Detection => cfg = js_or w config
  | Creation PSingle => cfg = config
  | Creation PWrite => cfg = w
  | Creation PRead => True
  end.

Lemma write_target_heap_step (s s' : state) (w : jsval) :
  heap_step (heap_of s) (heap_of s') -> config s' = config s ->
  write_target s = Some w -> write_target s' = Some w.
Proof.
  unfold write_target. intros Hh ->. destruct Hh as [->|[[o ->]|(c & tag & Hs)]]; [done| |].
  - destruct (get (heap_of s) (config s) "replication") as [r|] eqn:E1; [|done]. simpl.
    intros E2. rewrite (get_app _ _ _ _ _ E1). simpl. by apply get_app.
  - rewrite (get_set_ne _ _ _ _ _ _ _ Hs) by done.
    destruct (get (heap_of s) (config s) "replication") as [r|]; [|done]. simpl.
    by rewrite (get_set_ne _ _ _ _ _ _ _ Hs).
Qed.

Lemma hooked_app (l1 l2 : list effect) : hooked (l1 ++ l2) = hooked l1 ++ hooked l2.
Proof. apply omap_app. Qed.

Lemma hooked_fail (s : state) (t : nat) (o : origin) (e : js_error) :
  hooked (snd (fail s t o e)) = [].
Proof. destruct o; [|done]. apply (omap_rejected hooks_of); done. Qed.


Lemma hooked_reject (s : state) (t : nat) (e : js_error) :
  hooked (snd (reject_detection s t e)) = [].
Proof. apply (omap_rejected hooks_of); done. Qed.

Lemma hooked_resolve (s : state) (t : nat) : hooked (snd (resolve_detection s t)) = [].
Proof. apply (omap_resumed hooks_of); done. Qed.

Lemma prescribed_step (s : state) (ev : event) (w : jsval) :
  ev <> EvInitPools ->
  write_target s = Some w ->
  Forall (fun x : nat * origin * jsval => prescribed w (config s) (snd (fst x)) (snd x))
    (hooked (snd (step semver_valid s ev))).
Proof.
  intros Hne Hw.
  assert (Hflush : forall f : state -> state * list effect,
    (forall s1, heap_of s1 = heap_of s -> config s1 = config s -> pool s1 = pool s ->
       Forall (fun x : nat * origin * jsval => prescribed w (config s) (snd (fst x)) (snd x))
         (hooked (snd (f s1)))) ->
    Forall (fun x : nat * origin * jsval => prescribed w (config s) (snd (fst x)) (snd x))
      (hooked (snd (after_flush s f)))).
  { intros f Hf. unfold after_flush, flush.
    specialize (Hf (with_jobs [] s) eq_refl eq_refl eq_refl).
    destruct (f (with_jobs [] s)) as [s2 e2]. cbn [fst snd] in *.
    by rewrite hooked_app, (omap_flat_resume hooks_of). }
  destruct ev; try done; cbn [step]; try (apply Hflush; intros s1 Hh Hc Hp); clear Hflush.
  - unfold getConnection, _connect. destruct (closed s); [by constructor|].
    destruct (strict_eq _ _); [|by constructor].
    destruct (versionPromise s); [by constructor|].
    unfold detection_target. unfold write_target in Hw.
    destruct (get (heap_of s) (config s) "replication") as [r|]; [|by constructor].
    simpl in *. rewrite Hw. simpl. by repeat constructor.
  - unfold releaseConnection. repeat case_match; by constructor.
  - unfold close, onProcessExit. repeat case_match; by constructor.
  - unfold onProcessExit. repeat case_match; by constructor.
  - cbn [flush snd]. rewrite (omap_flat_resume hooks_of) by done. by constructor.
  - assert (Hw1 : write_target s1 = Some w) by (unfold write_target; by rewrite Hh, Hc).
    unfold factory_create, _connect. rewrite Hw1.
    repeat case_match; simplify_eq; cbn; repeat constructor; by cbn.
  - unfold factory_destroy. repeat case_match; by constructor.
  - unfold drain_callback. repeat case_match; by constructor.
  - unfold hooks_done. repeat case_match; try by constructor. rewrite hooked_fail. constructor.
  - unfold connect_done, created. repeat case_match; try by constructor.
    all: rewrite hooked_fail; constructor.
  - unfold version_done. repeat case_match; try by constructor.
    rewrite hooked_reject. constructor.
  - unfold disconnect_done. repeat case_match; try by constructor.
    + rewrite hooked_reject. constructor.
    + rewrite hooked_resolve. constructor.
Qed.

Lemma prescribed_run (s : state) (tr : list event) (w : jsval) :
  EvInitPools ∉ tr ->
  write_target s = Some w ->
  Forall (fun x : nat * origin * jsval => prescribed w (config s) (snd (fst x)) (snd x))
    (hooked (snd (run semver_valid s tr))).
Proof.
  revert s. induction tr as [|ev tr IH]; intros s Hni Hw; [by constructor|].
  apply not_elem_of_cons in Hni as [Hne Hni]. cbn [run].
  pose proof (prescribed_step s ev w (not_eq_sym Hne) Hw) as H1.
  pose proof (step_heap_step semver_valid s ev (not_eq_sym Hne)) as Hh.
  pose proof (step_config semver_valid s ev) as Hc.
  destruct (step semver_valid s ev) as [s1 e1]. cbn [fst snd] in *.
  assert (Hw1 : write_target s1 = Some w) by (by apply (write_target_heap_step s)).
  specialize (IH s1 Hni Hw1). rewrite Hc in IH.
  destruct (run semver_valid s1 tr) as [s2 e2]. cbn [fst snd] in *.
  rewrite hooked_app. by apply Forall_app.
Qed.

(** X8: every connection is opened with the configuration its origin
    prescribes.  Over any run without a new [initPools], with [w] the
    value of [config.replication.write]: the version detection connects to
    [w || config], so to the write target when there is one; the write
    pool connects to [w]; the single pool connects to [config].  No write
    to the heap in between changes that. *)
Theorem connect_targets (s : state) (tr : list event) (w : jsval) :
  write_target s = Some w ->
  tasks s = ∅ ->
  EvInitPools ∉ tr ->
  let log := snd (run semver_valid s tr) in
  forall t o cfg,
    ERunHooks t o cfg ∈ log \/ EConnect t o cfg ∈ log ->
    prescribed w (config s) o cfg.
Proof.
  intros Hw Ht Hni log t o cfg H.
  assert (Hh : (t, o, cfg) ∈ hooked log).
  { destruct H as [H|H].
    - unfold hooked. apply list_elem_of_omap. by exists (ERunHooks t o cfg).
    - assert (Hc : (t, o, cfg) ∈ connects log).
      { unfold connects. apply list_elem_of_omap. by exists (EConnect t o cfg). }
      apply (chain_run semver_valid s tr []) in Hc; [done|].
      intros t' o' cfg'. by rewrite Ht, lookup_empty. }
  pose proof (prescribed_run s tr w Hni Hw) as Hall. rewrite Forall_forall in Hall.
  apply (Hall _ Hh).
Qed.
End Targets.

(** ** The read targets are used in rounds *)







Section Rounds.
Variable semver_valid : string -> bool.

End Rounds.

(** ** The calls of a step to the pool *)

Section StepEffects.
Variable semver_valid : string -> bool.

(** A property of effects that holds of the calls to the hooks, the dialect
    and the query layer, and of the settlements. *)
Variable P : effect -> Prop.
Variable ok : option pool_obj -> Prop.
Hypothesis P_hooks : forall t o cfg, P (ERunHooks t o cfg).
Hypothesis P_connect : forall t o cfg, P (EConnect t o cfg).
Hypothesis P_version : forall t options, P (EDatabaseVersion t options).
Hypothesis P_disconnect : forall o connection, P (EDisconnect o connection).
Hypothesis P_created : forall t pk connection, P (ECreated t pk connection).
Hypothesis P_failed : forall t pk e, P (ECreateFailed t pk e).
Hypothesis P_reject : forall c e, P (EReject c e).
Hypothesis P_throw : forall e, P (EThrow e).
Hypothesis P_remove : P ERemoveExitListener.
Hypothesis P_resume : forall s j, ok (pool s) -> Forall P (resume s j).

Lemma effects_flat_resume (s : state) (js : list (nat * jsval)) :
  ok (pool s) -> Forall P (List.flat_map (resume s) js).
Proof using P_resume.
  intros Hs. induction js as [|j js IH]; [constructor|].
  cbn [List.flat_map]. apply Forall_app. split; [by apply P_resume|done].
Qed.

Lemma effects_reject (s : state) (t : nat) (e : js_error) :
  Forall P (snd (reject_detection s t e)).
Proof using P_reject.
  cbn [reject_detection snd]. induction (List.filter (awaits t) (waiters s)) as [|w l IH];
    [constructor|]. rewrite fmap_cons. by constructor.
Qed.

Lemma effects_resolve (s : state) (t : nat) :
  ok (pool s) -> Forall P (snd (resolve_detection s t)).
Proof using P_resume.
  intros Hs. cbn [resolve_detection snd].
  induction (List.filter (awaits t) (waiters s)) as [|w l IH]; [constructor|].
  cbn [List.flat_map]. apply Forall_app. split; [by apply P_resume|done].
Qed.

Lemma effects_fail (s : state) (t : nat) (o : origin) (e : js_error) :
  Forall P (snd (fail s t o e)).
Proof using P_reject P_failed.
  destruct o; [apply effects_reject|]. by repeat constructor.
Qed.

(** The effects of a step satisfy [P] when the pool operations it can reach
    do. *)
Lemma effects_step (s : state) (ev : event) :
  ev <> EvInitPools ->
  ok (pool s) ->
  (forall c, Forall P (snd (releaseConnection s c))) ->
  Forall P (onProcessExit s) ->
  (forall cb, ev = EvDrainCallback cb -> Forall P (drain_callback s cb)) ->
  Forall P (snd (step semver_valid s ev)).
Proof using All.
  intros Hne Hs Hrel Hexit Hcb.
  assert (Hflush : forall f : state -> state * list effect,
    (forall s1, pool s1 = pool s -> heap_of s1 = heap_of s -> Forall P (snd (f s1))) ->
    Forall P (snd (after_flush s f))).
  { intros f Hf. unfold after_flush, flush. specialize (Hf (with_jobs [] s) eq_refl eq_refl).
    destruct (f (with_jobs [] s)) as [s2 e2]. cbn [fst snd] in *.
    apply Forall_app. split; [by apply effects_flat_resume|done]. }
  destruct ev; try done; cbn [step]; try (apply Hflush; intros s1 Hp Hh); clear Hflush.
  - unfold getConnection, _connect. repeat case_match; simplify_eq; by repeat constructor.
  - apply Hrel.
  - cbn [close snd]. apply Forall_app. split; [done|by repeat constructor].
  - destruct (exit_listener s); [done|constructor].
  - by apply effects_flat_resume.
  - unfold factory_create, _connect. repeat case_match; simplify_eq; by repeat constructor.
  - unfold factory_destroy, _disconnect. repeat case_match; by repeat constructor.
  - cbn [snd]. unfold drain_callback. rewrite Hp. by apply Hcb.
  - unfold hooks_done. repeat case_match; try by repeat constructor. apply effects_fail.
  - unfold connect_done, created. repeat case_match; try by repeat constructor.
    all: apply effects_fail.
  - unfold version_done, _disconnect. repeat case_match; try by repeat constructor.
    apply effects_reject.
  - unfold disconnect_done. repeat case_match; try by repeat constructor.
    + apply effects_reject.
    + apply effects_resolve. by rewrite Hp.
Qed.
End StepEffects.

(** The calls to a pool. *)
Definition pool_call (e : effect) : bool :=
  match e with
  | ECreatePool _ _ _ _ _ | EPoolAcquire _ _ _ | EPoolRelease _ _
  | EPoolDrain _ _ | EPoolDestroyAllNow _ => true
  | _ => false
  end.

(** The calls that destroy every connection of a pool at once, and the
    drains that ask for it. *)
Definition destroys_all (e : effect) : bool :=
  match e with
  | EPoolDestroyAllNow _ | EPoolDrain _ DestroyAllNow => true
  | _ => false
  end.

Section Pools.
Variable semver_valid : string -> bool.

Lemma pool_unset_step (s : state) (ev : event) :
  ev <> EvInitPools -> pool s = None -> pool (fst (step semver_valid s ev)) = None.
Proof.
  intros Hne Hp. destruct ev; try done; cbn [step]; handlers;
    repeat case_match; simplify_eq; cbn in *; simplify_eq; done.
Qed.

Lemma pool_unset_effects (s : state) (ev : event) :
  ev <> EvInitPools -> pool s = None ->
  Forall (fun e => pool_call e = false) (snd (step semver_valid s ev)).
Proof.
  intros Hne Hp.
  apply (effects_step semver_valid (fun e => pool_call e = false) (fun p => p = None));
    try done.
  - intros s1 [c o] H1. unfold resume. rewrite H1. by repeat constructor.
  - intros c. unfold releaseConnection. rewrite Hp. by repeat constructor.
  - unfold onProcessExit. rewrite Hp. constructor.
  - intros cb _. unfold drain_callback. rewrite Hp. destruct cb; by repeat constructor.
Qed.

(** X10: before [initPools] there is no pool.  Over any run without
    [initPools] of a manager whose pool is not set: no pool is created,
    asked, released to, drained or destroyed; [releaseConnection] throws a
    [TypeError]; and a caller of [getConnection] that is resumed — after a
    version detection that does run — is rejected with a [TypeError]. *)
Theorem no_pool_before_initPools (s0 : state) (tr : list event) :
  pool s0 = None ->
  EvInitPools ∉ tr ->
  let s := fst (run semver_valid s0 tr) in
  let log := snd (run semver_valid s0 tr) in
  pool s = None
  /\ Forall (fun e => pool_call e = false) log
  /\ (forall connection, releaseConnection s connection = (s, [EThrow TypeError]))
  /\ (forall c options, resume s (c, options) = [EReject c TypeError]).
Proof.
  intros Hp Hni s log.
  assert (H : pool s = None /\ Forall (fun e => pool_call e = false) log).
  { subst s log. revert s0 Hp. induction tr as [|ev tr IH]; intros s0 Hp; [by split|].
    apply not_elem_of_cons in Hni as [Hne Hni]. cbn [run].
    pose proof (pool_unset_step s0 ev (not_eq_sym Hne) Hp) as H1.
    pose proof (pool_unset_effects s0 ev (not_eq_sym Hne) Hp) as H2.
    destruct (step semver_valid s0 ev) as [s1 e1]. cbn [fst snd] in *.
    destruct (IH Hni s1 H1) as [H3 H4].
    destruct (run semver_valid s1 tr) as [s2 e2]. cbn [fst snd] in *.
    split; [done|]. by apply Forall_app. }
  destruct H as [H1 H2]. split; [done|]. split; [done|]. split.
  - intros connection. unfold releaseConnection. by rewrite H1.
  - intros c options. unfold resume. by rewrite H1.
Qed.

(** The pool engine calls the callbacks it was given: a callback of
    [drain] is invoked only after a [drain] that passed it. *)
Fixpoint callbacks_handed_out (s : state) (pre : list effect) (tr : list event) : Prop :=
  match tr with
  | [] => True
  | ev :: tr' =>
      match ev with
      | EvDrainCallback cb => exists pk, EPoolDrain pk cb ∈ pre
      | _ => True
      end
      /\ callbacks_handed_out (fst (step semver_valid s ev))
           (pre ++ snd (step semver_valid s ev)) tr'
  end.

Lemma router_effects (s : state) (ev : event) (n : nat) :
  ev <> EvInitPools -> ev <> EvDrainCallback DestroyAllNow ->
  pool s = Some (Router n) ->
  Forall (fun e => destroys_all e = false) (snd (step semver_valid s ev)).
Proof.
  intros Hne Hcb Hp.
  apply (effects_step semver_valid (fun e => destroys_all e = false) (fun _ => True));
    try done.
  - intros s1 [c o] _. unfold resume. destruct (pool s1); [|by repeat constructor].
    destruct (pool_acquire _ _ _ _). by repeat constructor.
  - intros c. unfold releaseConnection. repeat case_match; by repeat constructor.
  - unfold onProcessExit. rewrite Hp. by repeat constructor.
  - intros cb ->. unfold drain_callback. rewrite Hp. destruct cb; by repeat constructor.
Qed.

Lemma router_drain_run (s : state) (n : nat) (pre : list effect) (tr : list event) :
  pool s = Some (Router n) ->
  EvInitPools ∉ tr ->
  Forall (fun e => destroys_all e = false) pre ->
  callbacks_handed_out s pre tr ->
  Forall (fun e => destroys_all e = false) (snd (run semver_valid s tr)).
Proof.
  revert s n pre. induction tr as [|ev tr IH]; intros s n pre Hp Hni Hpre Hcb; [constructor|].
  apply not_elem_of_cons in Hni as [Hne Hni]. cbn [run]. destruct Hcb as [Hev Hcb].
  assert (Hev' : ev <> EvDrainCallback DestroyAllNow).
  { intros ->. destruct Hev as [pk Hin]. rewrite Forall_forall in Hpre.
    by specialize (Hpre _ Hin). }
  pose proof (router_effects s ev n (not_eq_sym Hne) Hev' Hp) as H1.
  destruct (router_step semver_valid s ev n (not_eq_sym Hne) Hp) as [n1 Hp1].
  destruct (step semver_valid s ev) as [s1 e1]. cbn [fst snd] in *.
  specialize (IH s1 n1 (pre ++ e1) Hp1 Hni ltac:(by apply Forall_app) Hcb).
  destruct (run semver_valid s1 tr) as [s2 e2]. cbn [fst snd] in *.
  by apply Forall_app.
Qed.

(** X11: with replication, draining never destroys the connections by
    force.  [close] and the exit hook call the router's [drain], which
    takes no argument: the callback that would call [destroyAllNow] is
    dropped.  The write pool is drained, then the read pool, and as long
    as the pool engine only invokes callbacks it was given, no
    [destroyAllNow] is ever called. *)
Theorem router_drain_never_destroys (s : state) (n : nat) (tr : list event) :
  pool s = Some (Router n) ->
  EvInitPools ∉ tr ->
  callbacks_handed_out s [] tr ->
  snd (close s) = [EPoolDrain PWrite DrainRead; ERemoveExitListener]
  /\ drain_callback s DrainRead = [EPoolDrain PRead NoCallback]
  /\ Forall (fun e => destroys_all e = false) (snd (run semver_valid s tr)).
Proof.
  intros Hp Hni Hcb. split; [|split].
  - unfold close, onProcessExit. by rewrite Hp.
  - unfold drain_callback. by rewrite Hp.
  - by apply (router_drain_run s n []).
Qed.
End Pools.

(** ** The clone is a copy *)

(** The copy of a value: a reference is replaced by the reference to the
    copy of its object, anything else is kept. *)
Definition rename (memo : list (loc * loc)) (v : jsval) : jsval :=
  match v with
  | JRef l => match lookup_memo memo l with Some l' => JRef l' | None => v end
  | _ => v
  end.

(** The copy of an object: of an array its elements, of a plain object its
    properties. *)
Definition copy (memo : list (loc * loc)) (o : obj) : obj :=
  match kind o with
  | KObj => Obj KObj (prod_map id (rename memo) <$> props o)
  | KArr es => Obj (KArr (rename memo <$> es)) []
  end.

Definition known (memo : list (loc * loc)) (v : jsval) : Prop :=
  match v with
  | JRef l => l ∈ memo.*1
  | _ => True
  end.

Definition known_obj (memo : list (loc * loc)) (o : obj) : Prop :=
  match kind o with
  | KObj => Forall (fun kv : string * jsval => known memo (snd kv)) (props o)
  | KArr es => Forall (known memo) es
  end.

(** The state of a clone in progress: the objects in [pend] are being
    copied, every other object of [memo] has its copy in [h]. *)
Record copying (h0 : heap) (pend : list loc) (h : heap) (memo : list (loc * loc)) : Prop :=
  Copying {
    cp_extends : extends h0 h;
    cp_keys : NoDup memo.*1;
    cp_vals : NoDup memo.*2;
    cp_new : Forall (fun l' => l' < length h) memo.*2;
    cp_done : forall l l', (l, l') ∈ memo -> l ∉ pend ->
                exists o, h0 !! l = Some o /\ known_obj memo o /\ h !! l' = Some (copy memo o)
  }.

Lemma lookup_memo_elem (memo : list (loc * loc)) (l l' : loc) :
  NoDup memo.*1 -> lookup_memo memo l = Some l' <-> (l, l') ∈ memo.
Proof.
  unfold lookup_memo. induction memo as [|[a b] memo IH]; intros Hnd.
  - simpl. split; [done|by intros ?%elem_of_nil].
  - rewrite fmap_cons in Hnd. apply NoDup_cons in Hnd as [Ha Hnd]. simpl in *.
    destruct (Nat.eqb a l) eqn:E.
    + apply Nat.eqb_eq in E. subst a. simpl. split.
      * intros [= ->]. apply elem_of_cons. by left.
      * intros [[= ->]|Hin]%elem_of_cons; [done|].
        destruct Ha. apply list_elem_of_fmap. by exists (l, l').
    + apply Nat.eqb_neq in E. rewrite (IH Hnd). split.
      * intros Hin. apply elem_of_cons. by right.
      * intros [[= -> ->]|Hin]%elem_of_cons; done.
Qed.

Lemma known_elem (memo : list (loc * loc)) (l : loc) :
  l ∈ memo.*1 -> exists l', (l, l') ∈ memo.
Proof. intros ([a b] & -> & Hin)%list_elem_of_fmap. by exists b. Qed.

Lemma rename_stable (memo memo' : list (loc * loc)) (v : jsval) :
  NoDup memo.*1 -> NoDup memo'.*1 -> memo ⊆ memo' -> known memo v ->
  rename memo' v = rename memo v.
Proof.
  intros Hnd Hnd' Hsub Hk. destruct v as [| | | | | |l]; try done. simpl in *.
  destruct (known_elem _ _ Hk) as [l' Hin].
  rewrite (proj2 (lookup_memo_elem memo l l' Hnd) Hin).
  by rewrite (proj2 (lookup_memo_elem memo' l l' Hnd') (Hsub _ Hin)).
Qed.

Lemma known_mono (memo memo' : list (loc * loc)) (v : jsval) :
  memo ⊆ memo' -> known memo v -> known memo' v.
Proof.
  intros Hsub. destruct v; try done. simpl.
  intros ([a b] & -> & Hin)%list_elem_of_fmap. apply list_elem_of_fmap.
  exists (a, b). split; [done|by apply Hsub].
Qed.

Lemma known_obj_mono (memo memo' : list (loc * loc)) (o : obj) :
  memo ⊆ memo' -> known_obj memo o -> known_obj memo' o.
Proof.
  intros Hsub. unfold known_obj. destruct (kind o); intros H;
    (eapply Forall_impl; [exact H|]); intros x; by apply known_mono.
Qed.

Lemma copy_stable (memo memo' : list (loc * loc)) (o : obj) :
  NoDup memo.*1 -> NoDup memo'.*1 -> memo ⊆ memo' -> known_obj memo o ->
  copy memo' o = copy memo o.
Proof.
  intros Hnd Hnd' Hsub. unfold known_obj, copy. destruct (kind o) as [|es]; intros Hk; f_equal.
  - apply Forall_fmap_ext. eapply Forall_impl; [exact Hk|]. intros [k v] Hv. simpl in *.
    unfold prod_map. simpl. f_equal. by apply rename_stable.
  - f_equal. apply Forall_fmap_ext. eapply Forall_impl; [exact Hk|]. intros v Hv.
    by apply rename_stable.
Qed.

Lemma memo_injective (memo : list (loc * loc)) (a a' b : loc) :
  NoDup memo.*2 -> (a, b) ∈ memo -> (a', b) ∈ memo -> a = a'.
Proof.
  induction memo as [|[x y] memo IH]; [by intros _ ?%elem_of_nil|].
  rewrite fmap_cons. intros [Hy Hnd]%NoDup_cons. simpl in Hy.
  intros [[= -> ->]|H1]%elem_of_cons [[= ->]|H2]%elem_of_cons; try done.
  - destruct Hy. apply list_elem_of_fmap. by exists (a', y).
  - simplify_eq. destruct Hy. apply list_elem_of_fmap. by exists (a, y).
  - by apply IH.
Qed.

Lemma memo_functional (memo : list (loc * loc)) (a b b' : loc) :
  NoDup memo.*1 -> (a, b) ∈ memo -> (a, b') ∈ memo -> b = b'.
Proof.
  intros Hnd H1 H2. apply (lookup_memo_elem _ _ _ Hnd) in H1, H2. congruence.
Qed.
Definition clone_copies (h0 : heap)
    (clone : heap -> list (loc * loc) -> jsval -> option (heap * list (loc * loc) * jsval))
  : Prop :=
  forall pend h memo v h' memo' v',
    copying h0 pend h memo -> fresh_val 0 (length h0) v ->
    clone h memo v = Some (h', memo', v') ->
    copying h0 pend h' memo' /\ memo ⊆ memo' /\ known memo' v /\ v' = rename memo' v
    /\ length h <= length h'.

Lemma clone_props_copies (h0 : heap) clone :
  clone_copies h0 clone ->
  forall ps pend h memo h' memo' ps',
    copying h0 pend h memo ->
    Forall (fun kv : string * jsval => fresh_val 0 (length h0) (snd kv)) ps ->
    clone_props clone h memo ps = Some (h', memo', ps') ->
    copying h0 pend h' memo' /\ memo ⊆ memo'
    /\ Forall (fun kv : string * jsval => known memo' (snd kv)) ps
    /\ ps' = prod_map id (rename memo') <$> ps
    /\ length h <= length h'.
Proof.
  intros Hc. induction ps as [|[k v] ps IH]; intros pend h memo h' memo' ps' Hcp Hps H.
  - simpl in H. simplify_eq.
    split; [done|]. split; [done|]. split; [constructor|]. split; [done|lia].
  - apply Forall_cons in Hps as [Hv Hps]. simpl in H, Hv.
    destruct (clone h memo v) as [[[h1 m1] v1]|] eqn:E1; [|done]. simpl in H.
    destruct (clone_props clone h1 m1 ps) as [[[h2 m2] ps2]|] eqn:E2; [|done].
    simpl in H. simplify_eq.
    destruct (Hc _ _ _ _ _ _ _ Hcp Hv E1) as (C1 & S1 & K1 & -> & L1).
    destruct (IH _ _ _ _ _ _ C1 Hps E2) as (C2 & S2 & K2 & -> & L2).
    split; [done|]. split; [by etrans|]. split; [|split; [|lia]].
    + constructor; [|done]. simpl. by eapply known_mono.
    + rewrite fmap_cons. f_equal. unfold prod_map. simpl. f_equal. symmetry.
      apply rename_stable; [apply (cp_keys _ _ _ _ C1)|apply (cp_keys _ _ _ _ C2)|done|done].
Qed.

Lemma clone_elems_copies (h0 : heap) clone :
  clone_copies h0 clone ->
  forall vs pend h memo h' memo' vs',
    copying h0 pend h memo ->
    Forall (fresh_val 0 (length h0)) vs ->
    clone_elems clone h memo vs = Some (h', memo', vs') ->
    copying h0 pend h' memo' /\ memo ⊆ memo'
    /\ Forall (known memo') vs
    /\ vs' = rename memo' <$> vs
    /\ length h <= length h'.
Proof.
  intros Hc. induction vs as [|v vs IH]; intros pend h memo h' memo' vs' Hcp Hvs H.
  - simpl in H. simplify_eq.
    split; [done|]. split; [done|]. split; [constructor|]. split; [done|lia].
  - apply Forall_cons in Hvs as [Hv Hvs]. simpl in H.
    destruct (clone h memo v) as [[[h1 m1] v1]|] eqn:E1; [|done]. simpl in H.
    destruct (clone_elems clone h1 m1 vs) as [[[h2 m2] vs2]|] eqn:E2; [|done].
    simpl in H. simplify_eq.
    destruct (Hc _ _ _ _ _ _ _ Hcp Hv E1) as (C1 & S1 & K1 & -> & L1).
    destruct (IH _ _ _ _ _ _ C1 Hvs E2) as (C2 & S2 & K2 & -> & L2).
    split; [done|]. split; [by etrans|]. split; [|split; [|lia]].
    + constructor; [|done]. by eapply known_mono.
    + rewrite fmap_cons. f_equal. symmetry.
      apply rename_stable; [apply (cp_keys _ _ _ _ C1)|apply (cp_keys _ _ _ _ C2)|done|done].
Qed.

(** Entering an object: a placeholder is allocated and the object is
    pending. *)
Lemma copying_enter (h0 : heap) (pend : list loc) (h : heap) (memo : list (loc * loc))
    (l : loc) :
  copying h0 pend h memo -> lookup_memo memo l = None ->
  copying h0 (l :: pend) (h ++ [Obj KObj []]) ((l, length h) :: memo).
Proof.
  intros [[Hf Hl] Hk Hv Hn Hd] Hnone.
  assert (Hsub : memo ⊆ (l, length h) :: memo) by (intros x Hx; apply elem_of_cons; by right).
  assert (Hk1 : NoDup ((l, length h) :: memo).*1).
  { rewrite fmap_cons. apply NoDup_cons. split; [by apply lookup_memo_None|done]. }
  split.
  - split.
    + intros l0 Hl0. rewrite lookup_app_l by lia. by apply Hf.
    + rewrite length_app. lia.
  - done.
  - rewrite fmap_cons. apply NoDup_cons. split; [|done]. simpl. intros Hin.
    rewrite Forall_forall in Hn. specialize (Hn _ Hin). lia.
  - rewrite fmap_cons, length_app. constructor; [simpl; lia|].
    eapply Forall_impl; [exact Hn|]. intros x. simpl. lia.
  - intros a a' [[= -> ->]|Hin]%elem_of_cons Hp.
    { destruct Hp. apply elem_of_cons. by left. }
    apply not_elem_of_cons in Hp as [_ Hp].
    destruct (Hd a a' Hin Hp) as (o & Ho & Hko & Hc). exists o.
    split; [done|]. split; [by eapply known_obj_mono|].
    rewrite (copy_stable memo) by done. apply lookup_app_l_Some. exact Hc.
Qed.

(** Leaving an object: the placeholder is replaced by the copy. *)
Lemma copying_leave (h0 : heap) (pend : list loc) (h h2 : heap) (memo2 : list (loc * loc))
    (l : loc) (o : obj) :
  length h0 <= length h -> length h < length h2 ->
  h0 !! l = Some o -> known_obj memo2 o -> (l, length h) ∈ memo2 ->
  copying h0 (l :: pend) h2 memo2 ->
  copying h0 pend (<[length h := copy memo2 o]> h2) memo2.
Proof.
  intros L0 L2 Ho Hko Hin [[Hf Hl] Hk Hv Hn Hd]. split; try done.
  - split.
    + intros l0 Hl0. rewrite list_lookup_insert_ne by lia. by apply Hf.
    + by rewrite length_insert.
  - by rewrite length_insert.
  - intros a a' Ha Hp. destruct (decide (a = l)) as [->|Hne].
    + assert (a' = length h) as -> by (by eapply memo_functional).
      exists o. split; [done|]. split; [done|]. by rewrite list_lookup_insert_eq.
    + destruct (Hd a a' Ha) as (oa & Hoa & Hka & Hc).
      { by intros [?|?]%elem_of_cons. }
      exists oa. split; [done|]. split; [done|].
      rewrite list_lookup_insert_ne; [done|]. intros <-.
      apply Hne. by eapply memo_injective.
Qed.

Lemma baseClone_copies (h0 : heap) (fuel : nat) :
  region_fresh 0 h0 -> clone_copies h0 (baseClone fuel).
Proof.
  intros Hwf. induction fuel as [|fuel IH]; intros pend h memo v h' memo' v' Hcp Hv H; [done|].
  simpl in H.
  destruct v as [| | | | | |l];
    try (simplify_eq; split; [done|]; split; [done|]; split; [done|]; split; [done|lia]).
  destruct (lookup_memo memo l) as [l1|] eqn:El.
  { simplify_eq. split; [done|]. split; [done|].
    apply (lookup_memo_elem _ _ _ (cp_keys _ _ _ _ Hcp)) in El as Hin.
    split; [|split; [|done]].
    - simpl. apply list_elem_of_fmap. by exists (l, l1).
    - simpl. by rewrite El. }
  simpl in Hv. pose proof (cp_extends _ _ _ _ Hcp) as [Hf Hl].
  rewrite (Hf l) in H by lia.
  destruct (h0 !! l) as [o|] eqn:Ho; [|done]. simpl in H.
  pose proof (Hwf l o ltac:(lia) Ho) as [Hke Hkp].
  pose proof (copying_enter _ _ _ _ l Hcp El) as C1.
  assert (Hlen1 : length (h ++ [Obj KObj []]) = S (length h))
    by (rewrite length_app; simpl; lia).
  assert (Hin1 : (l, length h) ∈ (l, length h) :: memo) by (apply elem_of_cons; by left).
  assert (Hsub1 : memo ⊆ (l, length h) :: memo)
    by (intros x Hx; apply elem_of_cons; by right).
  assert (Hfin : forall h2 m2,
            copying h0 (l :: pend) h2 m2 -> (l, length h) :: memo ⊆ m2 ->
            known_obj m2 o -> length (h ++ [Obj KObj []]) <= length h2 ->
            copying h0 pend (<[length h := copy m2 o]> h2) m2 /\ memo ⊆ m2
            /\ known m2 (JRef l) /\ JRef (length h) = rename m2 (JRef l)
            /\ length h <= length (<[length h := copy m2 o]> h2)).
  { intros h2 m2 C2 S2 K2 L2. rewrite Hlen1 in L2.
    pose proof (S2 _ Hin1) as Hin2.
    split; [apply (copying_leave h0 pend h h2 m2 l o); try done; lia|].
    split; [by etrans|]. split; [|split].
    - simpl. apply list_elem_of_fmap. by exists (l, length h).
    - simpl. by rewrite (proj2 (lookup_memo_elem _ _ _ (cp_keys _ _ _ _ C2)) Hin2).
    - rewrite length_insert. lia. }
  destruct (kind o) as [|es] eqn:Eko.
  - destruct (clone_props (baseClone fuel) _ _ (props o)) as [[[h2 m2] ps']|] eqn:E; [|done].
    simpl in H. simplify_eq.
    destruct (clone_props_copies h0 _ IH _ _ _ _ _ _ _ C1 Hkp E) as (C2 & S2 & K2 & -> & L2).
    replace (Obj KObj (prod_map id (rename memo') <$> props o)) with (copy memo' o)
      by (unfold copy; by rewrite Eko).
    apply Hfin; try done. unfold known_obj. by rewrite Eko.
  - destruct (clone_elems (baseClone fuel) _ _ es) as [[[h2 m2] es']|] eqn:E; [|done].
    simpl in H. simplify_eq.
    destruct (clone_elems_copies h0 _ IH _ _ _ _ _ _ _ C1 Hke E) as (C2 & S2 & K2 & -> & L2).
    replace (Obj (KArr (rename memo' <$> es)) []) with (copy memo' o)
      by (unfold copy; by rewrite Eko).
    apply Hfin; try done. unfold known_obj. by rewrite Eko.
Qed.
Lemma cloneDeep_copies (h0 h1 : heap) (v v' : jsval) :
  region_fresh 0 h0 -> fresh_val 0 (length h0) v -> (forall name, v <> JFun name) ->
  cloneDeep h0 v = Some (h1, v') ->
  exists memo, copying h0 [] h1 memo /\ known memo v /\ v' = rename memo v.
Proof.
  intros Hwf Hv Hf H. unfold cloneDeep in H.
  assert (H' : exists memo, baseClone (S (length h0)) h0 [] v = Some (h1, memo, v')).
  { destruct v; try (by destruct (Hf name));
      (destruct (baseClone (S (length h0)) h0 [] _) as [[[h' memo] v'']|]; [|done]);
      simpl in H; simplify_eq; by exists memo. }
  clear H. destruct H' as [memo E].
  destruct (baseClone_copies h0 (S (length h0)) Hwf [] h0 [] v h1 memo v') as (C & _ & K & R & _);
    try done.
  - split; try done; try constructor. intros l l' Hin. by apply elem_of_nil in Hin.
  - by exists memo.
Qed.

Lemma prop_get_rename (memo : list (loc * loc)) (k : string) (ps : list (string * jsval)) :
  prop_get k (prod_map id (rename memo) <$> ps) = rename memo (prop_get k ps).
Proof.
  induction ps as [|[k' v] ps IH]; [done|]. rewrite fmap_cons. simpl.
  by destruct (String.eqb k k').
Qed.

(** The setting [k] of a plain object, [undefined] for anything else. *)
Definition own_setting (h : heap) (v : jsval) (k : string) : jsval :=
  match v with
  | JRef l =>
      match h !! l with
      | Some (Obj KObj ps) => prop_get k ps
      | _ => JUndef
      end
  | _ => JUndef
  end.

Definition not_ref (v : jsval) : Prop :=
  match v with
  | JRef _ => False
  | _ => True
  end.

Lemma rename_not_ref (memo : list (loc * loc)) (v : jsval) : not_ref v -> rename memo v = v.
Proof. by destruct v. Qed.

(** The properties of the copy of a value of [h0]. *)
Lemma copied_props (h0 h1 : heap) (memo : list (loc * loc)) (v : jsval) (k : string) :
  copying h0 [] h1 memo -> known memo v ->
  prop_get k (props_of h1 (rename memo v)) = rename memo (own_setting h0 v k).
Proof.
  intros C K. destruct v as [| | | | | |l]; try done. simpl in K.
  destruct (known_elem _ _ K) as [l' Hin]. simpl.
  rewrite (proj2 (lookup_memo_elem _ _ _ (cp_keys _ _ _ _ C)) Hin). simpl.
  destruct (cp_done _ _ _ _ C l l' Hin) as (o & Ho & _ & Hc); [by intros ?%elem_of_nil|].
  rewrite Hc, Ho. unfold copy. destruct o as [[|es] ps]; simpl; [|done].
  apply prop_get_rename.
Qed.

Lemma copied_valid (h0 h1 : heap) (memo : list (loc * loc)) (v : jsval) :
  copying h0 [] h1 memo -> known memo v -> fresh_val 0 (length h1) (rename memo v).
Proof.
  intros C K. destruct v as [| | | | | |l]; try done. simpl in K.
  destruct (known_elem _ _ K) as [l' Hin]. simpl.
  rewrite (proj2 (lookup_memo_elem _ _ _ (cp_keys _ _ _ _ C)) Hin). simpl.
  pose proof (cp_new _ _ _ _ C) as Hn. rewrite Forall_forall in Hn.
  split; [lia|]. apply Hn. apply list_elem_of_fmap. by exists (l, l').
Qed.

(** ** The pooling defaults *)

(** The first defined value of [k] in a source of [_.defaults]. *)
Fixpoint first_defined (k : string) (src : list (string * jsval)) : jsval :=
  match src with
  | [] => JUndef
  | (k', v) :: src' =>
      if String.eqb k k' && negb (strict_eq v JUndef) then v else first_defined k src'
  end.

Lemma defaults_from_get (k : string) (src dst : list (string * jsval)) :
  prop_get k (defaults_from src dst)
  = if strict_eq (prop_get k dst) JUndef then first_defined k src else prop_get k dst.
Proof.
  revert dst. induction src as [|[k' v] src IH]; intros dst; simpl.
  - destruct (strict_eq (prop_get k dst) JUndef) eqn:E; [|done]. by apply strict_eq_true in E.
  - rewrite IH. destruct (String.eqb k k') eqn:Ek.
    + apply String.eqb_eq in Ek. subst k'.
      destruct (strict_eq (prop_get k dst) JUndef) eqn:Ed; [|by rewrite Ed].
      rewrite prop_get_set_eq. simpl. by destruct (strict_eq v JUndef).
    + apply String.eqb_neq in Ek. simpl.
      destruct (strict_eq (prop_get k' dst) JUndef); [|done].
      by rewrite prop_get_set_ne.
Qed.

Definition pooling_sources : list (list (string * jsval)) :=
  [defaultPoolingConfig; [("validate", JFun "_validate")]].

(** The default of the pool setting [k]. *)
Definition pool_default (k : string) : jsval :=
  prop_get k (defaultPoolingConfig ++ [("validate", JFun "_validate")]).

Lemma pooling_defaults_get (k : string) (dst : list (string * jsval)) :
  prop_get k (defaults_props dst pooling_sources)
  = if strict_eq (prop_get k dst) JUndef then pool_default k else prop_get k dst.
Proof.
  unfold defaults_props, pooling_sources. cbn [foldl]. rewrite !defaults_from_get.
  destruct (strict_eq (prop_get k dst) JUndef) eqn:E; [|by rewrite E].
  unfold pool_default, defaultPoolingConfig. cbn.
  destruct (String.eqb k "max"); [done|]. destruct (String.eqb k "min"); [done|].
  destruct (String.eqb k "idle"); [done|]. destruct (String.eqb k "handleDisconnects"); [done|].
  cbn. destruct (String.eqb k "validate"); done.
Qed.
(** ** What the constructor builds *)

Lemma rename_false (memo : list (loc * loc)) (x : jsval) :
  strict_eq (rename memo x) (JBool false) = strict_eq x (JBool false).
Proof.
  destruct x as [| | | | | |l]; try done. simpl. by destruct (lookup_memo memo l).
Qed.

Lemma prop_get_known (memo : list (loc * loc)) (k : string) (ps : list (string * jsval)) :
  Forall (fun kv : string * jsval => known memo (snd kv)) ps -> known memo (prop_get k ps).
Proof.
  induction ps as [|[k' v] ps IH]; [done|]. intros [Hv Hps]%Forall_cons.
  cbn [prop_get]. destruct (String.eqb k k'); [done|by apply IH].
Qed.

Lemma get_lookup (h : heap) (l : loc) (o : obj) (k : string) :
  h !! l = Some o -> get h (JRef l) k = Some (prop_get k (props o)).
Proof. intros H. simpl. by rewrite H. Qed.

(** The object that becomes [config.pool]: [config.pool || {}] completed
    with the pooling defaults. *)
Lemma pool_object (h1 : heap) (p : jsval) :
  fresh_val 0 (length h1) p ->
  exists h3 d kd,
    (let '(h2, dst) := if truthy p then (h1, p) else alloc h1 (Obj KObj []) in
     defaults h2 dst pooling_sources) = (h3, JRef d)
    /\ h3 !! d = Some (Obj kd (defaults_props (props_of h1 p) pooling_sources))
    /\ (forall i, i < length h1 -> i <> d -> h3 !! i = h1 !! i)
    /\ length h1 <= length h3
    /\ (p = JRef d \/ d = length h1).
Proof.
  intros Hp.
  assert (Hnew : forall h2 dst,
            (dst = JRef (length h1) /\ h2 = h1 ++ [Obj KObj []]) \/ (not_ref dst /\ h2 = h1) ->
            props_of h1 p = [] ->
            exists h3 d kd,
              defaults h2 dst pooling_sources = (h3, JRef d)
              /\ h3 !! d = Some (Obj kd (defaults_props (props_of h1 p) pooling_sources))
              /\ (forall i, i < length h1 -> i <> d -> h3 !! i = h1 !! i)
              /\ length h1 <= length h3
              /\ (p = JRef d \/ d = length h1)).
  { intros h2 dst Hd ->.
    exists (h1 ++ [Obj KObj (defaults_props [] pooling_sources)]), (length h1), KObj.
    split; [|split; [|split; [|split]]].
    - destruct Hd as [[-> ->]|[Hd ->]].
      + unfold defaults. rewrite list_lookup_middle by done.
        rewrite insert_app_r_alt by done. by rewrite Nat.sub_diag.
      + by destruct dst.
    - by rewrite list_lookup_middle.
    - intros i Hi _. by rewrite lookup_app_l.
    - rewrite length_app. lia.
    - by right. }
  destruct p as [| |[]|n|str|name|lp];
    try (apply Hnew; [|done]; cbn; first [by left | by right]).
  - cbn [truthy]. destruct (negb (n =? 0)%Z); apply Hnew; try done; cbn; first [by left | by right].
  - cbn [truthy]. destruct (negb (String.eqb str "")); apply Hnew; try done; cbn;
      first [by left | by right].
  - simpl in Hp. destruct (lookup_lt_is_Some_2 h1 lp ltac:(lia)) as [op Hop].
    exists (<[lp := Obj (kind op) (defaults_props (props op) pooling_sources)]> h1), lp, (kind op).
    cbn [truthy]. unfold defaults, props_of. rewrite Hop.
    split; [done|]. split; [by rewrite list_lookup_insert_eq by lia|].
    split; [intros i Hi Hne; by rewrite list_lookup_insert_ne|].
    split; [by rewrite length_insert|by left].
Qed.

(** The facts about a manager built from the plain object [l] of [h0]:
    [c] is its snapshot and [d] the pool configuration of the snapshot. *)
Record built_from (h0 : heap) (l : loc) (o : obj) (s : state) (memo : list (loc * loc))
    (c d : loc) : Prop := BuiltFrom {
  bf_config : config s = JRef c;
  bf_memo : (l, c) ∈ memo;
  bf_pool : get (heap_of s) (JRef c) "pool" = Some (JRef d);
  bf_top : forall k, d <> c -> k <> "pool" ->
      get (heap_of s) (JRef c) k = Some (rename memo (prop_get k (props o)));
  bf_settings : forall k, d <> c \/ k <> "pool" ->
      get (heap_of s) (JRef d) k
      = Some (let y := rename memo (own_setting h0 (prop_get "pool" (props o)) k) in
              if strict_eq y JUndef then pool_default k else y);
  bf_cyclic : d = c -> prop_get "pool" (props o) = JRef l
}.

Lemma constructor_spec (h0 : heap) (l : loc) (o : obj) (dv defv : jsval) :
  region_fresh 0 h0 -> h0 !! l = Some o -> kind o = KObj ->
  (prop_get "pool" (props o) = JBool false
   /\ exists h1, constructor h0 (JRef l) dv defv = Some (Threw h1 pool_false_error))
  \/ (prop_get "pool" (props o) <> JBool false
      /\ exists h4 memo c d,
           constructor h0 (JRef l) dv defv
           = Some (Built (State h4 (JRef c) dv defv None false None true ∅ [] [] 0) [EOnExit])
           /\ built_from h0 l o (State h4 (JRef c) dv defv None false None true ∅ [] [] 0)
                memo c d).
Proof.
  intros Hwf Ho Hk.
  assert (Hl : l < length h0) by (by eapply lookup_lt_Some).
  destruct (cloneDeep_total h0 (JRef l) Hwf ltac:(simpl; lia)) as [[h1 cfg] Hclone].
  destruct (cloneDeep_copies h0 h1 (JRef l) cfg Hwf ltac:(simpl; lia) ltac:(done) Hclone)
    as (memo & C & K & ->).
  simpl in K. destruct (known_elem _ _ K) as [c Hin].
  pose proof (proj2 (lookup_memo_elem _ _ _ (cp_keys _ _ _ _ C)) Hin) as Hlook.
  destruct (cp_done _ _ _ _ C l c Hin) as (o' & Ho' & Hko & Hc); [by intros ?%elem_of_nil|].
  rewrite Ho in Ho'. symmetry in Ho'. simplify_eq.
  assert (Hcl : c < length h1) by (by eapply lookup_lt_Some).
  unfold constructor. rewrite Hclone. simpl. rewrite Hlook. simpl. rewrite Hc. simpl.
  set (x := prop_get "pool" (props o)).
  assert (Hpool : prop_get "pool" (props (copy memo o)) = rename memo x).
  { unfold copy. rewrite Hk. cbn [props]. apply prop_get_rename. }
  rewrite !Hpool, rename_false.
  assert (Hkx : known memo x).
  { unfold known_obj in Hko. rewrite Hk in Hko. by apply prop_get_known. }
  destruct (strict_eq x (JBool false)) eqn:Ex.
  { left. apply strict_eq_true in Ex. split; [done|]. by exists h1. }
  right. apply strict_eq_false in Ex. split; [done|]. cbn [negb].
  destruct (pool_object h1 (rename memo x) (copied_valid _ _ _ _ C Hkx))
    as (h3 & d & kd & Hdef & Hd & Hframe & Hlen & Hcase).
  change [defaultPoolingConfig; [("validate", JFun "_validate")]] with pooling_sources.
  revert Hdef.
  destruct (if truthy (rename memo x) then (h1, rename memo x) else alloc h1 (Obj KObj []))
    as [h2 dst].
  intros ->.
  assert (Hcyc : d = c -> x = JRef l).
  { intros ->. destruct Hcase as [Hp|Hp]; [|lia].
    destruct x as [| | | | | |lp]; try done. simpl in Hp, Hkx.
    destruct (known_elem _ _ Hkx) as [lp' Hin'].
    rewrite (proj2 (lookup_memo_elem _ _ _ (cp_keys _ _ _ _ C)) Hin') in Hp. simplify_eq.
    f_equal. by eapply memo_injective; [apply (cp_vals _ _ _ _ C)| |]. }
  assert (Hc3 : exists oc, h3 !! c = Some oc
            /\ ((d = c /\ oc = Obj kd (defaults_props (props_of h1 (rename memo x)) pooling_sources))
                \/ (d <> c /\ oc = copy memo o))).
  { destruct (decide (d = c)) as [->|Hne].
    - eexists. split; [exact Hd|]. by left.
    - exists (copy memo o). split; [by rewrite Hframe|]. by right. }
  destruct Hc3 as (oc & Hoc & Hcases). unfold set. rewrite Hoc. cbn [mbind option_bind].
  eexists _, memo, c, d. split; [reflexivity|].
  assert (Hcl3 : c < length h3) by lia.
  assert (Hdl3 : d < length h3) by (by eapply lookup_lt_Some).
  split; cbn [config heap_of].
  - done.
  - done.
  - cbn [get]. rewrite list_lookup_insert_eq by done. cbn. by rewrite prop_get_set_eq.
  - intros k Hne Hkp. destruct Hcases as [[-> _]|[_ ->]]; [done|].
    cbn [get]. rewrite list_lookup_insert_eq by done. simpl.
    rewrite prop_get_set_ne by done. unfold copy. rewrite Hk. cbn [props].
    by rewrite prop_get_rename.
  - intros k Hdk.
    assert (Hval : prop_get k (defaults_props (props_of h1 (rename memo x)) pooling_sources)
                   = (let y := rename memo (own_setting h0 x k) in
                      if strict_eq y JUndef then pool_default k else y)).
    { by rewrite pooling_defaults_get, (copied_props h0). }
    destruct Hcases as [[-> ->]|[Hne ->]].
    + rewrite (get_lookup _ _ _ k (list_lookup_insert_eq _ _ _ Hcl3)). cbn [props].
      destruct Hdk as [Hdk|Hdk]; [done|]. rewrite prop_get_set_ne by done.
      f_equal. exact Hval.
    + erewrite get_lookup; [|rewrite list_lookup_insert_ne by done; exact Hd]. cbn [props].
      f_equal. exact Hval.
  - done.
Qed.

(** X12: the constructor, for a configuration that is a plain object.  It
    throws ['Support for pool:false was removed in v4.0'] exactly when
    [config.pool] is [false]; in every other case it builds the manager —
    no [TypeError] is possible — with the exit hook registered, no pool,
    no detection in flight and the version it was given. *)
Theorem constructor_pool_false (h0 : heap) (l : loc) (o : obj) (dv defv : jsval) :
  region_fresh 0 h0 ->
  h0 !! l = Some o ->
  kind o = KObj ->
  (prop_get "pool" (props o) = JBool false ->
   exists h1, constructor h0 (JRef l) dv defv = Some (Threw h1 pool_false_error))
  /\ (prop_get "pool" (props o) <> JBool false ->
      exists h c,
        constructor h0 (JRef l) dv defv
        = Some (Built (State h (JRef c) dv defv None false None true ∅ [] [] 0) [EOnExit])).
Proof.
  intros Hwf Ho Hk.
  destruct (constructor_spec h0 l o dv defv Hwf Ho Hk)
    as [[Hx [h1 H]]|[Hx (h4 & memo & c & d & H & _)]].
  - split; [by exists h1|done].
  - split; [done|]. intros _. by exists h4, c.
Qed.

Lemma constructor_built (h0 : heap) (l : loc) (o : obj) (dv defv : jsval)
    (s : state) (effs : list effect) :
  region_fresh 0 h0 -> h0 !! l = Some o -> kind o = KObj ->
  constructor h0 (JRef l) dv defv = Some (Built s effs) ->
  effs = [EOnExit] /\ databaseVersion s = dv /\ versionPromise s = None /\ closed s = false
  /\ pool s = None
  /\ exists memo c d, built_from h0 l o s memo c d.
Proof.
  intros Hwf Ho Hk H.
  destruct (constructor_spec h0 l o dv defv Hwf Ho Hk)
    as [[Hx [h1 H']]|[Hx (h4 & memo & c & d & H' & B)]]; rewrite H' in H; simplify_eq.
  repeat (split; [done|]). by exists memo, c, d.
Qed.

Lemma built_top (h0 : heap) (l : loc) (o : obj) (s : state) (memo : list (loc * loc))
    (c d : loc) (k : string) :
  built_from h0 l o s memo c d ->
  prop_get "pool" (props o) <> JRef l ->
  k <> "pool" ->
  not_ref (prop_get k (props o)) ->
  get (heap_of s) (config s) k = Some (prop_get k (props o)).
Proof.
  intros B Hx Hkp Hv.
  rewrite (bf_config _ _ _ _ _ _ _ B).
  rewrite (bf_top _ _ _ _ _ _ _ B k); [|by intros ?%(bf_cyclic _ _ _ _ _ _ _ B)|done].
  by rewrite rename_not_ref.
Qed.

Lemma built_defined (h0 : heap) (l : loc) (o : obj) (s : state) (memo : list (loc * loc))
    (c d : loc) (k : string) :
  built_from h0 l o s memo c d ->
  pool_default k <> JUndef ->
  exists v, get (heap_of s) (JRef d) k = Some v /\ v <> JUndef.
Proof.
  intros B Hdef. eexists. split.
  - apply (bf_settings _ _ _ _ _ _ _ B k). right. intros ->. by apply Hdef.
  - cbn zeta. destruct (strict_eq _ JUndef) eqn:E; [done|]. by apply strict_eq_false in E.
Qed.

Lemma built_initPools (h0 : heap) (l : loc) (o : obj) (s : state) (memo : list (loc * loc))
    (c d : loc) :
  built_from h0 l o s memo c d ->
  prop_get "pool" (props o) <> JRef l ->
  not_ref (prop_get "replication" (props o)) ->
  truthy (prop_get "replication" (props o)) = false ->
  exists validate max min idle,
    get (heap_of s) (config s) "pool" = Some (JRef d)
    /\ get (heap_of s) (JRef d) "validate" = Some validate
    /\ get (heap_of s) (JRef d) "max" = Some max
    /\ get (heap_of s) (JRef d) "min" = Some min
    /\ get (heap_of s) (JRef d) "idle" = Some idle
    /\ validate <> JUndef /\ max <> JUndef /\ min <> JUndef /\ idle <> JUndef
    /\ initPools s
       = (with_pool (Some SinglePool) s, [ECreatePool PSingle validate max min idle]).
Proof.
  intros B Hx Hr Ht.
  pose proof (built_top _ _ _ _ _ _ _ "replication" B Hx ltac:(done) Hr) as Hrep.
  assert (Hp : get (heap_of s) (config s) "pool" = Some (JRef d)).
  { rewrite (bf_config _ _ _ _ _ _ _ B). apply (bf_pool _ _ _ _ _ _ _ B). }
  destruct (built_defined _ _ _ _ _ _ _ "validate" B ltac:(done)) as (validate & Hv1 & Hv2).
  destruct (built_defined _ _ _ _ _ _ _ "max" B ltac:(done)) as (max & Hm1 & Hm2).
  destruct (built_defined _ _ _ _ _ _ _ "min" B ltac:(done)) as (min & Hn1 & Hn2).
  destruct (built_defined _ _ _ _ _ _ _ "idle" B ltac:(done)) as (idle & Hi1 & Hi2).
  exists validate, max, min, idle. repeat (split; [done|]).
  unfold initPools, initPools_body, createPool, pool_field, mbind, read, mret.
  rewrite Hrep, Ht. cbn [negb].
  do 4 (rewrite Hp; cbn beta iota; rewrite ?Hv1, ?Hm1, ?Hn1, ?Hi1; cbn beta iota).
  by destruct s.
Qed.

(** X13: the snapshot has the caller's settings.  Every top-level setting
    other than [pool] whose value is not an object has in [this.config]
    the value it has in the caller's configuration ([config.pool] being
    another object than the configuration itself). *)
Theorem constructor_copies_settings (h0 : heap) (l : loc) (o : obj) (dv defv : jsval)
    (s : state) (effs : list effect) :
  region_fresh 0 h0 ->
  h0 !! l = Some o ->
  kind o = KObj ->
  constructor h0 (JRef l) dv defv = Some (Built s effs) ->
  prop_get "pool" (props o) <> JRef l ->
  forall k,
    k <> "pool" ->
    not_ref (prop_get k (props o)) ->
    get (heap_of s) (config s) k = Some (prop_get k (props o)).
Proof.
  intros Hwf Ho Hk H Hx k Hkp Hv.
  destruct (constructor_built _ _ _ _ _ _ _ Hwf Ho Hk H) as (_ & _ & _ & _ & _ & memo & c & d & B).
  by apply (built_top h0 l o s memo c d).
Qed.

(** X14: the pool settings of the snapshot.  [this.config.pool] is always
    an object.  A setting the caller defined, with a value that is not an
    object, keeps the caller's value; a setting the caller left
    [undefined] — or every setting, when [config.pool] is no plain
    object — has its default: [max] 5, [min] 0, [idle] 10000,
    [handleDisconnects] true, [validate] the manager's own [_validate].
    None of these five is ever [undefined]. *)
Theorem constructor_pool_settings (h0 : heap) (l : loc) (o : obj) (dv defv : jsval)
    (s : state) (effs : list effect) :
  region_fresh 0 h0 ->
  h0 !! l = Some o ->
  kind o = KObj ->
  constructor h0 (JRef l) dv defv = Some (Built s effs) ->
  exists d,
    get (heap_of s) (config s) "pool" = Some (JRef d)
    /\ (forall k,
          let y := own_setting h0 (prop_get "pool" (props o)) k in
          not_ref y ->
          get (heap_of s) (JRef d) k = Some (if strict_eq y JUndef then pool_default k else y))
    /\ (forall k,
          pool_default k <> JUndef ->
          exists v, get (heap_of s) (JRef d) k = Some v /\ v <> JUndef).
Proof.
  intros Hwf Ho Hk H.
  destruct (constructor_built _ _ _ _ _ _ _ Hwf Ho Hk H) as (_ & _ & _ & _ & _ & memo & c & d & B).
  exists d. rewrite (bf_config _ _ _ _ _ _ _ B). split; [apply (bf_pool _ _ _ _ _ _ _ B)|].
  split.
  - intros k y Hy. rewrite (bf_settings _ _ _ _ _ _ _ B k).
    + cbn zeta. fold y. by rewrite (rename_not_ref memo y).
    + destruct (decide (d = c)) as [Hdc|]; [|by left]. right. intros ->.
      apply (bf_cyclic _ _ _ _ _ _ _ B) in Hdc. subst y. rewrite Hdc in Hy.
      simpl in Hy. rewrite Ho in Hy. destruct o as [ko ps]. simpl in Hk. subst ko.
      simpl in Hdc. by rewrite Hdc in Hy.
  - intros k Hdef. by apply (built_defined h0 l o s memo c d).
Qed.

(** X15: [initPools] on a manager just built, without replication.  It
    does not throw, it leaves the heap as it is, and it creates the single
    pool with the [validate], [max], [min] and [idle] of the snapshot's
    pool settings, none of which is [undefined]. *)
Theorem initPools_after_constructor (h0 : heap) (l : loc) (o : obj) (dv defv : jsval)
    (s : state) (effs : list effect) :
  region_fresh 0 h0 ->
  h0 !! l = Some o ->
  kind o = KObj ->
  constructor h0 (JRef l) dv defv = Some (Built s effs) ->
  prop_get "pool" (props o) <> JRef l ->
  not_ref (prop_get "replication" (props o)) ->
  truthy (prop_get "replication" (props o)) = false ->
  exists d validate max min idle,
    get (heap_of s) (config s) "pool" = Some (JRef d)
    /\ get (heap_of s) (JRef d) "validate" = Some validate
    /\ get (heap_of s) (JRef d) "max" = Some max
    /\ get (heap_of s) (JRef d) "min" = Some min
    /\ get (heap_of s) (JRef d) "idle" = Some idle
    /\ validate <> JUndef /\ max <> JUndef /\ min <> JUndef /\ idle <> JUndef
    /\ initPools s
       = (with_pool (Some SinglePool) s, [ECreatePool PSingle validate max min idle]).
Proof.
  intros Hwf Ho Hk H Hx Hr Ht.
  destruct (constructor_built _ _ _ _ _ _ _ Hwf Ho Hk H) as (_ & _ & _ & _ & _ & memo & c & d & B).
  exists d. exact (built_initPools h0 l o s memo c d B Hx Hr Ht).
Qed.

(** X16: a configuration without a [replication] entry ([undefined], or
    [null]).  The manager is built and [initPools] creates the single
    pool, but with the version to detect every [getConnection] throws a
    [TypeError] — the read of [this.config.replication.write] — and
    starts nothing, before [initPools] and after it. *)
Theorem getConnection_without_replication (h0 : heap) (l : loc) (o : obj) (defv : jsval)
    (s : state) (effs : list effect) (c : nat) (options : jsval) :
  region_fresh 0 h0 ->
  h0 !! l = Some o ->
  kind o = KObj ->
  constructor h0 (JRef l) (JNum 0) defv = Some (Built s effs) ->
  prop_get "pool" (props o) <> JRef l ->
  prop_get "replication" (props o) = JUndef \/ prop_get "replication" (props o) = JNull ->
  getConnection s c options = (s, [EThrow TypeError])
  /\ pool (fst (initPools s)) = Some SinglePool
  /\ getConnection (fst (initPools s)) c options = (fst (initPools s), [EThrow TypeError]).
Proof.
  intros Hwf Ho Hk H Hx Hr.
  assert (Hnr : not_ref (prop_get "replication" (props o))) by (by destruct Hr as [-> | ->]).
  assert (Ht : truthy (prop_get "replication" (props o)) = false)
    by (by destruct Hr as [-> | ->]).
  destruct (constructor_built _ _ _ _ _ _ _ Hwf Ho Hk H)
    as (_ & Hdv & Hvp & Hcl & _ & memo & c' & d & B).
  pose proof (built_top _ _ _ _ _ _ _ "replication" B Hx ltac:(done) Hnr) as Hrep.
  destruct (built_initPools h0 l o s memo c' d B Hx Hnr Ht)
    as (v1 & v2 & v3 & v4 & _ & _ & _ & _ & _ & _ & _ & _ & _ & Hinit).
  rewrite Hinit. cbn [fst].
  assert (Hd : detection_target s = None).
  { unfold detection_target. rewrite Hrep. by destruct Hr as [-> | ->]. }
  split; [|split; [done|]].
  - unfold getConnection. rewrite Hcl, Hdv, Hvp, Hd. done.
  - unfold getConnection. cbn [closed databaseVersion versionPromise with_pool].
    rewrite Hcl, Hdv, Hvp.
    assert (Hd' : detection_target (with_pool (Some SinglePool) s) = None) by exact Hd.
    by rewrite Hd'.
Qed.

(** ** The targets of the replication inherit the top-level settings *)

Lemma prop_get_absent (k : string) (ps : list (string * jsval)) :
  k ∉ ps.*1 -> prop_get k ps = JUndef.
Proof.
  induction ps as [|[k' v] ps IH]; [done|]. rewrite fmap_cons.
  intros [Hne Hni]%not_elem_of_cons. simpl in *.
  rewrite (proj2 (String.eqb_neq k k')) by done. by apply IH.
Qed.

Lemma first_defined_omit (k : string) (ps : list (string * jsval)) :
  NoDup ps.*1 ->
  first_defined k (List.filter (fun kv => negb (String.eqb (fst kv) "replication")) ps)
  = if String.eqb k "replication" then JUndef else prop_get k ps.
Proof.
  induction ps as [|[k' v] ps IH]; intros Hnd.
  - simpl. by destruct (String.eqb k "replication").
  - rewrite fmap_cons in Hnd. apply NoDup_cons in Hnd as [Hk' Hnd]. specialize (IH Hnd).
    cbn [List.filter fst prop_get]. destruct (String.eqb k' "replication") eqn:Er; cbn [negb].
    + rewrite IH. destruct (String.eqb k "replication") eqn:Ek; [done|].
      apply String.eqb_eq in Er. subst k'. by rewrite Ek.
    + cbn [first_defined]. rewrite IH. destruct (String.eqb k k') eqn:Ek; cbn [andb].
      * apply String.eqb_eq in Ek. subst k'. rewrite Er.
        destruct (strict_eq v JUndef) eqn:Ev; cbn [negb]; [|done].
        apply strict_eq_true in Ev. subst v. by apply prop_get_absent.
      * done.
Qed.

Section Inherit.

(** The heap before [initPools], the snapshot [c] and its replication
    configuration [r] with the write target [w], and the addresses [T] of
    the targets. *)
Variables (hi : heap) (c r : loc) (w : jsval) (T : list loc).

Definition top_settings : list (string * jsval) := omit hi (JRef c) "replication".

(** The value of setting [k] of a target once it is completed. *)
Definition completed (own : list (string * jsval)) (k : string) : jsval :=
  if strict_eq (prop_get k own) JUndef then first_defined k top_settings else prop_get k own.

Record inheriting (D : list loc) (h : heap) : Prop :=
  Inheriting {
    ih_len : length hi <= length h;
    ih_config : h !! c = hi !! c;
    ih_write : get h (JRef r) "write" = Some w;
    ih_targets : forall lt oi, lt ∈ T -> hi !! lt = Some oi ->
        exists o, h !! lt = Some o
                  /\ forall k, prop_get k (props o) = prop_get k (props oi)
                               \/ prop_get k (props o) = completed (props oi) k;
    ih_sub : forall lt, lt ∈ D -> lt ∈ T;
    ih_done : forall lt oi, lt ∈ D -> hi !! lt = Some oi ->
        exists o, h !! lt = Some o /\ forall k, prop_get k (props o) = completed (props oi) k
  }.

(** [config.replication.read] is the array [rd] of the targets [es]. *)
Definition reads (h : heap) (rd : jsval) (es : list jsval) : Prop :=
  get h (JRef r) "read" = Some rd /\ elems_of h rd = Some es.

Hypothesis c_not_target : c ∉ T.
Hypothesis r_not_target : r ∉ T.
Hypothesis r_not_c : r <> c.
Hypothesis c_valid : c < length hi.
Hypothesis targets_valid : Forall (fun lt => lt < length hi) T.

Lemma inheriting_alloc (D : list loc) (h : heap) (o : obj) :
  inheriting D h -> inheriting D (h ++ [o]).
Proof using c_valid r_not_c.
  intros [L C W Tg Sb Dn]. split; try done.
  - rewrite length_app. lia.
  - rewrite lookup_app_l by lia. done.
  - by apply get_app.
  - intros lt oi Hlt Hoi. destruct (Tg lt oi Hlt Hoi) as (o' & Ho' & Hk).
    exists o'. split; [by apply lookup_app_l_Some|done].
  - intros lt oi Hlt Hoi. destruct (Dn lt oi Hlt Hoi) as (o' & Ho' & Hk).
    exists o'. split; [by apply lookup_app_l_Some|done].
Qed.

Lemma reads_alloc (h : heap) (o : obj) (rd : jsval) (es : list jsval) :
  reads h rd es -> reads (h ++ [o]) rd es.
Proof. intros [R E]. split; [by apply get_app|by apply elems_of_app]. Qed.

Lemma inheriting_write (D : list loc) (h : heap) (k : string) (x : jsval) :
  inheriting D h ->
  (k = "write" /\ x = w) \/ k = "read" ->
  exists h', set h (JRef r) k x = Some h'
             /\ inheriting D h'
             /\ (forall v, elems_of h' v = elems_of h v)
             /\ (k = "read" -> get h' (JRef r) "read" = Some x)
             /\ (k = "write" -> get h' (JRef r) "read" = get h (JRef r) "read").
Proof using r_not_target r_not_c.
  intros [L C W Tg Sb Dn] Hk.
  assert (Hr : exists orr, h !! r = Some orr).
  { simpl in W. destruct (h !! r) as [orr|]; [by exists orr|done]. }
  destruct Hr as [orr Hr]. unfold set. rewrite Hr. simpl. eexists. split; [done|].
  assert (Hs : set h (JRef r) k x
               = Some (<[r := Obj (kind orr) (prop_set k x (props orr))]> h)).
  { unfold set. by rewrite Hr. }
  assert (Hrl : r < length h) by (by eapply lookup_lt_Some).
  assert (Hread : k = "read" -> get (<[r := Obj (kind orr) (prop_set k x (props orr))]> h)
                                   (JRef r) "read" = Some x).
  { intros ->. simpl. rewrite list_lookup_insert_eq by done. simpl. by rewrite prop_get_set_eq. }
  split; [split|split; [|split]].
  - by rewrite length_insert.
  - by rewrite list_lookup_insert_ne.
  - destruct Hk as [[-> ->]| ->].
    + simpl. rewrite list_lookup_insert_eq by done. simpl. by rewrite prop_get_set_eq.
    + by rewrite (get_set_ne _ _ _ _ _ _ _ Hs).
  - intros lt oi Hlt Hoi. destruct (Tg lt oi Hlt Hoi) as (o' & Ho' & Hk').
    exists o'. split; [|done]. rewrite list_lookup_insert_ne; [done|]. by intros ->.
  - done.
  - intros lt oi Hlt Hoi. destruct (Dn lt oi Hlt Hoi) as (o' & Ho' & Hk').
    exists o'. split; [|done]. rewrite list_lookup_insert_ne; [done|].
    intros ->. by apply r_not_target, Sb.
  - intros v. by rewrite (elems_of_set _ _ _ _ _ _ Hs).
  - done.
  - intros ->. rewrite list_lookup_insert_eq by done. rewrite Hr. simpl.
    by rewrite prop_get_set_ne.
Qed.

Lemma elems_of_insert (h : heap) (l : loc) (o o' : obj) (v : jsval) :
  h !! l = Some o -> kind o' = kind o -> elems_of (<[l := o']> h) v = elems_of h v.
Proof.
  intros Ho Hk. destruct v as [| | | | | |l0]; try done. simpl.
  destruct (decide (l = l0)) as [->|].
  - rewrite list_lookup_insert_eq by (by eapply lookup_lt_Some). rewrite Ho.
    destruct o, o'. simpl in *. by subst.
  - by rewrite list_lookup_insert_ne.
Qed.

Lemma get_insert_ne (h : heap) (l l0 : loc) (o : obj) (k : string) :
  l <> l0 -> get (<[l := o]> h) (JRef l0) k = get h (JRef l0) k.
Proof. intros Hne. simpl. by rewrite list_lookup_insert_ne. Qed.

Lemma completed_again (own ps : list (string * jsval)) (k : string) :
  prop_get k ps = prop_get k own \/ prop_get k ps = completed own k ->
  prop_get k (defaults_from top_settings ps) = completed own k.
Proof.
  rewrite defaults_from_get. unfold completed. intros [-> | ->]; [done|].
  destruct (strict_eq (prop_get k own) JUndef) eqn:E.
  - destruct (strict_eq (first_defined k top_settings) JUndef) eqn:E'; [|done].
    by apply strict_eq_true in E'.
  - by rewrite E.
Qed.

Lemma inheriting_defaults (D : list loc) (h : heap) (lt : loc) :
  inheriting D h -> lt ∈ T ->
  exists h', defaults h (JRef lt) [omit h (JRef c) "replication"] = (h', JRef lt)
             /\ inheriting (lt :: D) h'
             /\ (forall rd es, reads h rd es -> reads h' rd es).
Proof using c_not_target r_not_target targets_valid.
  intros [L C W Tg Sb Dn] Hlt.
  assert (Hv : lt < length hi) by (rewrite Forall_forall in targets_valid; by apply targets_valid).
  destruct (lookup_lt_is_Some_2 hi lt Hv) as [oi Hoi].
  destruct (Tg lt oi Hlt Hoi) as (o & Ho & Hk).
  assert (Hsrc : omit h (JRef c) "replication" = top_settings).
  { unfold top_settings, omit, props_of. by rewrite C. }
  rewrite Hsrc. unfold defaults. rewrite Ho. eexists. split; [done|].
  assert (Hltl : lt < length h) by (by eapply lookup_lt_Some).
  assert (Hnew : forall k, prop_get k (defaults_props (props o) [top_settings])
                           = completed (props oi) k).
  { intros k. cbn [defaults_props foldl]. by apply completed_again. }
  split; [split|].
  - by rewrite length_insert.
  - rewrite list_lookup_insert_ne; [done|]. by intros ->.
  - rewrite get_insert_ne; [done|]. by intros ->.
  - intros lt' oi' Hlt' Hoi'. destruct (decide (lt = lt')) as [<-|Hne].
    + rewrite Hoi in Hoi'. simplify_eq. eexists.
      split; [by rewrite list_lookup_insert_eq|]. intros k. right. apply Hnew.
    + rewrite list_lookup_insert_ne by done. by apply Tg.
  - intros lt' [->|H]%elem_of_cons; [done|by apply Sb].
  - intros lt' oi' Hlt' Hoi'. destruct (decide (lt = lt')) as [<-|Hne].
    + rewrite Hoi in Hoi'. simplify_eq. eexists.
      split; [by rewrite list_lookup_insert_eq|]. apply Hnew.
    + rewrite list_lookup_insert_ne by done. apply Dn; [|done].
      apply elem_of_cons in Hlt' as [->|?]; done.
  - intros rd es [R E]. split.
    + rewrite get_insert_ne; [done|]. by intros ->.
    + by rewrite (elems_of_insert _ _ o).
Qed.

Lemma inheriting_map_defaults (es : list jsval) :
  Forall (fun e => exists lt, e = JRef lt /\ lt ∈ T) es ->
  forall D h,
    inheriting D h ->
    exists h' D',
      map_defaults (JRef c) es h = (h', Some es)
      /\ inheriting D' h'
      /\ (forall lt, lt ∈ D \/ JRef lt ∈ es -> lt ∈ D')
      /\ (forall rd es0, reads h rd es0 -> reads h' rd es0).
Proof using c_not_target r_not_target targets_valid.
  induction 1 as [|e es (lt & -> & Hlt) Hes IH]; intros D h Hi.
  - exists h, D. split; [done|]. split; [done|]. split; [|done].
    intros lt [?|?%elem_of_nil]; done.
  - destruct (inheriting_defaults D h lt Hi Hlt) as (h1 & Hd & Hi1 & Hr1).
    destruct (IH (lt :: D) h1 Hi1) as (h2 & D2 & Hm & Hi2 & Hsub & Hr2).
    exists h2, D2. split; [|split; [done|split]].
    + cbn [map_defaults]. unfold mbind, omitM, defaultsM, mret. rewrite Hd, Hm. done.
    + intros lt' [H'|[[= ->]|H']%elem_of_cons]; apply Hsub.
      * left. apply elem_of_cons. by right.
      * left. apply elem_of_cons. by left.
      * by right.
    + intros rd es0 H'. by apply Hr2, Hr1.
Qed.

Lemma mbind_step {A B} (m : M A) (f : A -> M B) (h h' : heap) (a : A) :
  m h = (h', Some a) -> mbind m f h = f a h'.
Proof. intros H. unfold mbind. by rewrite H. Qed.

Variables (rd0 pv : jsval) (es : list jsval).
Hypothesis replication_obj : get hi (JRef c) "replication" = Some (JRef r).
Hypothesis read0 : get hi (JRef r) "read" = Some rd0.
Hypothesis write0 : get hi (JRef r) "write" = Some w.
Hypothesis targets_read : es = match elems_of hi rd0 with Some es0 => es0 | None => [rd0] end.
Hypothesis targets_all : Forall (fun e => exists lt, e = JRef lt /\ lt ∈ T) (w :: es).
Hypothesis pool_obj : get hi (JRef c) "pool" = Some pv.
Hypothesis pool_readable : is_Some (get hi pv "validate").

Lemma inheriting_start : inheriting [] hi.
Proof using write0.
  split; try done.
  - intros lt oi _ Hoi. exists oi. split; [done|]. intros k. by left.
  - by intros lt ?%elem_of_nil.
  - by intros lt oi ?%elem_of_nil.
Qed.

(** [if (!Array.isArray(config.replication.read)) ...]. *)
Lemma inheriting_array :
  exists h3 rd,
    (if isArray hi rd0 then (hi, Some tt)
     else (let* a := new (Obj (KArr [rd0]) []) in write (JRef r) "read" a) hi) = (h3, Some tt)
    /\ inheriting [] h3 /\ reads h3 rd es.
Proof using c_valid r_not_target r_not_c write0 read0 targets_read targets_all.
  unfold isArray. destruct (elems_of hi rd0) as [es0|] eqn:E.
  - exists hi, rd0. split; [done|]. subst es. split; [apply inheriting_start|done].
  - pose proof (inheriting_alloc [] hi (Obj (KArr [rd0]) []) inheriting_start) as H1.
    destruct (inheriting_write [] _ "read" (JRef (length hi)) H1 ltac:(by right))
      as (h3 & Hs & H3 & He & Hr & _).
    exists h3, (JRef (length hi)). split; [|split; [done|]].
    + unfold mbind, new, alloc, write. by rewrite Hs.
    + split; [by apply Hr|]. rewrite He. subst es. simpl.
      by rewrite list_lookup_middle.
Qed.

Lemma pool_fields (D : list loc) (h : heap) (pk : pool_kind) :
  inheriting D h ->
  exists validate max min idle,
    get h pv "validate" = Some validate /\ get h pv "max" = Some max
    /\ get h pv "min" = Some min /\ get h pv "idle" = Some idle
    /\ createPool pk (JRef c) h = (h, Some (ECreatePool pk validate max min idle)).
Proof using pool_obj pool_readable c_valid r_not_c.
  intros [L C W Tg Sb Dn].
  assert (Hp : get h (JRef c) "pool" = Some pv).
  { simpl in *. by rewrite C. }
  assert (Hk : forall k, exists v, get h pv k = Some v).
  { intros k. destruct pool_readable as [v0 Hv0].
    destruct pv as [| | | | | |lp]; try done; try by eexists.
    simpl in Hv0. destruct (hi !! lp) as [op|] eqn:E; [|done].
    apply lookup_lt_Some in E. destruct (lookup_lt_is_Some_2 h lp ltac:(lia)) as [op' Hop'].
    simpl. rewrite Hop'. by eexists. }
  destruct (Hk "validate") as [v1 H1]. destruct (Hk "max") as [v2 H2].
  destruct (Hk "min") as [v3 H3]. destruct (Hk "idle") as [v4 H4].
  exists v1, v2, v3, v4. repeat (split; [done|]).
  unfold createPool, pool_field, mbind, read, mret.
  do 4 (rewrite Hp; cbn beta iota; rewrite ?H1, ?H2, ?H3, ?H4; cbn beta iota). done.
Qed.

Lemma initPools_body_replication :
  exists hf D a validate max min idle,
    initPools_body (JRef c) hi
    = (hf, Some (Router 0, [ECreatePool PRead validate max min idle;
                            ECreatePool PWrite validate max min idle]))
    /\ inheriting D hf
    /\ reads hf (JRef a) es
    /\ (forall lt, JRef lt ∈ w :: es -> lt ∈ D)
    /\ get hf pv "validate" = Some validate /\ get hf pv "max" = Some max
    /\ get hf pv "min" = Some min /\ get hf pv "idle" = Some idle.
Proof using All.
  pose proof targets_all as Hall. apply Forall_cons in Hall as [(lw & Hw & Hlw) Hes].
  destruct inheriting_array as (h3 & rd & Harr & I3 & R3).
  destruct (inheriting_defaults [] h3 lw I3 Hlw) as (h6 & Hd6 & I6 & R6).
  destruct (inheriting_write [lw] h6 "write" w I6 ltac:(by left)) as (h7 & Hs7 & I7 & E7 & _ & Hr7).
  assert (R7 : reads h7 rd es).
  { destruct (R6 rd es R3) as [Ra Rb]. split; [by rewrite Hr7|by rewrite E7]. }
  destruct (inheriting_map_defaults es Hes [lw] h7 I7) as (h10 & D & Hm & I10 & Hsub & R10).
  pose proof (inheriting_alloc D h10 (Obj (KArr es) []) I10) as I11.
  destruct (inheriting_write D _ "read" (JRef (length h10)) I11 ltac:(by right))
    as (h12 & Hs12 & I12 & E12 & Hr12 & _).
  destruct (pool_fields D h12 PRead I12) as (v1 & v2 & v3 & v4 & G1 & G2 & G3 & G4 & Hc1).
  destruct (pool_fields D h12 PWrite I12) as (v1' & v2' & v3' & v4' & G1' & G2' & G3' & G4' & Hc2).
  assert (v1' = v1 /\ v2' = v2 /\ v3' = v3 /\ v4' = v4) as (-> & -> & -> & ->)
    by (repeat split; congruence).
  exists h12, D, (length h10), v1, v2, v3, v4.
  split; [|split; [done|split; [|split; [|done]]]].
  - unfold initPools_body.
    rewrite (mbind_step _ _ hi hi (JRef r)) by (unfold read; by rewrite replication_obj).
    cbn [truthy negb].
    rewrite (mbind_step _ _ hi hi rd0) by (unfold read; by rewrite read0).
    rewrite (mbind_step _ _ hi h3 tt) by exact Harr.
    rewrite (mbind_step _ _ h3 h3 w) by (unfold read; by rewrite (ih_write _ _ I3)).
    rewrite (mbind_step _ _ h3 h3 (omit h3 (JRef c) "replication")) by done.
    rewrite (mbind_step _ _ h3 h6 w) by (unfold defaultsM; rewrite Hw, Hd6; done).
    rewrite (mbind_step _ _ h6 h7 tt) by (unfold write; by rewrite Hs7).
    rewrite (mbind_step _ _ h7 h7 rd) by (unfold read; by rewrite (proj1 R7)).
    rewrite (mbind_step _ _ h7 h7 es) by (unfold elemsM; by rewrite (proj2 R7)).
    rewrite (mbind_step _ _ h7 h10 es) by exact Hm.
    rewrite (mbind_step _ _ h10 (h10 ++ [Obj (KArr es) []]) (JRef (length h10))) by done.
    rewrite (mbind_step _ _ _ h12 tt) by (unfold write; by rewrite Hs12).
    rewrite (mbind_step _ _ h12 h12 _ Hc1).
    rewrite (mbind_step _ _ h12 h12 _ Hc2). done.
  - split; [by apply Hr12|]. rewrite E12. simpl. by rewrite list_lookup_middle.
  - intros lt [Heq|Hin]%elem_of_cons; apply Hsub; [left|by right].
    rewrite Hw in Heq. simplify_eq. apply elem_of_cons. by left.
Qed.

End Inherit.

(** A target of the replication: an object of the heap other than the
    snapshot and its replication configuration. *)
Definition is_target (h : heap) (c r : loc) (t : jsval) : bool :=
  match t with
  | JRef lt => (lt <? length h)%nat && negb (lt =? c)%nat && negb (lt =? r)%nat
  | _ => false
  end.

Definition address (t : jsval) : option loc :=
  match t with
  | JRef l => Some l
  | _ => None
  end.

Lemma is_target_spec (h : heap) (c r : loc) (ts : list jsval) (t : jsval) :
  forallb (is_target h c r) ts = true -> t ∈ ts ->
  exists lt, t = JRef lt /\ lt ∈ omap address ts /\ lt < length h /\ lt <> c /\ lt <> r.
Proof.
  intros Hall Hin. rewrite forallb_forall in Hall.
  specialize (Hall t (proj1 (list_elem_of_In _ _) Hin)).
  destruct t as [| | | | | |lt]; try done. simpl in Hall.
  apply andb_prop in Hall as [Hall H3]. apply andb_prop in Hall as [H1 H2].
  apply Nat.ltb_lt in H1. apply negb_true_iff, Nat.eqb_neq in H2, H3.
  exists lt. split; [done|]. split; [|done].
  apply list_elem_of_omap. by exists (JRef lt).
Qed.

Lemma address_target (h : heap) (c r : loc) (ts : list jsval) (lt : loc) :
  forallb (is_target h c r) ts = true -> lt ∈ omap address ts ->
  lt < length h /\ lt <> c /\ lt <> r.
Proof.
  intros Hall (t & Hin & Ht)%list_elem_of_omap.
  destruct (is_target_spec h c r ts t Hall Hin) as (lt' & -> & _ & H).
  simpl in Ht. by simplify_eq.
Qed.

(** X17: [initPools] with replication completes the targets.  When the
    write target and the read targets are objects — other than the
    snapshot and its replication configuration — [initPools] installs the
    router, keeps the write target and the list of the read targets (a
    single read target counts as a list of one), and in every target a
    setting the target defines keeps its value while a setting it leaves
    [undefined] takes the value of the top-level configuration; only
    [replication] itself is never inherited.  Both pools are created with
    the same four pool settings. *)
Theorem replication_targets_inherit
    (s : state) (c r : loc) (oc : obj) (w rd0 : jsval) :
  config s = JRef c ->
  heap_of s !! c = Some oc ->
  NoDup (props oc).*1 ->
  prop_get "replication" (props oc) = JRef r ->
  r <> c ->
  get (heap_of s) (JRef r) "read" = Some rd0 ->
  get (heap_of s) (JRef r) "write" = Some w ->
  let es := match elems_of (heap_of s) rd0 with Some es0 => es0 | None => [rd0] end in
  forallb (is_target (heap_of s) c r) (w :: es) = true ->
  is_Some (get (heap_of s) (prop_get "pool" (props oc)) "validate") ->
  let s' := fst (initPools s) in
  pool s' = Some (Router 0)
  /\ write_target s' = Some w
  /\ read_targets (heap_of s') (config s') = Some es
  /\ (forall t k own,
        t ∈ w :: es ->
        get (heap_of s) t k = Some own ->
        get (heap_of s') t k
        = Some (if strict_eq own JUndef
                then if String.eqb k "replication" then JUndef else prop_get k (props oc)
                else own))
  /\ exists validate max min idle,
       snd (initPools s) = [ECreatePool PRead validate max min idle;
                            ECreatePool PWrite validate max min idle].
Proof.
  intros Hc Hoc Hnd Hr Hrc Hrd Hw es Hts Hpool s'.
  set (T := omap address (w :: es)).
  assert (Hcl : c < length (heap_of s)) by (by eapply lookup_lt_Some).
  destruct (initPools_body_replication (heap_of s) c r w T) with (rd0 := rd0) (es := es)
      (pv := prop_get "pool" (props oc))
    as (hf & D & a & v1 & v2 & v3 & v4 & Hbody & I & [R1 R2] & HD & _); try done.
  - intros Hin. by destruct (address_target _ _ _ _ _ Hts Hin) as (_ & ? & _).
  - intros Hin. by destruct (address_target _ _ _ _ _ Hts Hin) as (_ & _ & ?).
  - apply Forall_forall. intros lt Hin. by destruct (address_target _ _ _ _ _ Hts Hin).
  - simpl. by rewrite Hoc, <- Hr.
  - apply Forall_forall. intros t Hin.
    destruct (is_target_spec _ _ _ _ t Hts Hin) as (lt & -> & Hlt & _). by exists lt.
  - simpl. by rewrite Hoc.
  - subst s'. unfold initPools. rewrite Hc, Hbody. cbn [fst snd].
    assert (Hrep : get hf (JRef c) "replication" = Some (JRef r)).
    { simpl. rewrite (ih_config _ _ _ _ _ _ _ I), Hoc. simpl. by rewrite Hr. }
    split; [done|]. split; [|split; [|split]].
    + unfold write_target. cbn [heap_of config with_pool with_heap]. rewrite Hc, Hrep.
      simpl. apply (ih_write _ _ _ _ _ _ _ I).
    + unfold read_targets. cbn [heap_of config with_pool with_heap]. rewrite Hc, Hrep.
      simpl. simpl in R1. rewrite R1. done.
    + intros t k own Hin Hown.
      destruct (is_target_spec _ _ _ _ t Hts Hin) as (lt & -> & Hlt & Hv & _).
      destruct (lookup_lt_is_Some_2 _ _ Hv) as [oi Hoi].
      destruct (ih_done _ _ _ _ _ _ _ I lt oi (HD lt Hin) Hoi) as (o & Ho & Hk).
      cbn [heap_of with_pool with_heap]. simpl. rewrite Ho. simpl. rewrite Hk.
      simpl in Hown. rewrite Hoi in Hown. simpl in Hown. simplify_eq.
      unfold completed, top_settings, omit, props_of. rewrite Hoc.
      by rewrite first_defined_omit.
    + by exists v1, v2, v3, v4.
Qed.

(** * [refreshTypeParser]

    The data types are objects of the heap with the properties [parse],
    [types] and [key]; none of them overrides [hasOwnProperty].  The
    collection is an array or an object whose keys are the names of the
    types.  The dialect's subclass defines [_refreshTypeParser]; its calls
    are the result, in order.  The name of the dialect is a string: the
    manager is made by the dialect that the string has selected. *)

Section TypeParser.

(** The string a value that is not a string is converted to by [+]. *)
Variable to_string : heap -> jsval -> string.

















End TypeParser.

(** * Examples

    The theorems above at concrete managers, and the runs on which the
    code departs from the specification. *)

(** A stand-in for [semver.valid] on the version strings of the examples. *)
Definition example_valid (version : string) : bool := String.eqb version "9.6.0".

Definition no_manager : state :=
  State [] JUndef JUndef JUndef None false None false ∅ [] [] 0.

Definition built (r : option outcome) : state :=
  match r with
  | Some (Built s _) => s
  | _ => no_manager
  end.

(** A configuration without replication, at address 0 of the caller's
    heap, and the manager built from it, whose version is to be detected. *)
Definition single_heap : heap :=
  [Obj KObj [("host", JStr "db"); ("replication", JBool false)]].

Definition single : state :=
  built (constructor single_heap (JRef 0) (JNum 0) (JStr "9.0.0")).

Lemma single_built :
  constructor single_heap (JRef 0) (JNum 0) (JStr "9.0.0") = Some (Built single [EOnExit]).
Proof. reflexivity. Qed.

Lemma single_fresh : fresh_unresolved single.
Proof. repeat split; done. Defined.

(** A configuration with one write target and two read targets, and the
    manager built from it, whose version is known. *)
Definition repl_heap : heap :=
  [Obj KObj [("host", JStr "main"); ("replication", JRef 1)];
   Obj KObj [("read", JRef 2); ("write", JRef 5)];
   Obj (KArr [JRef 3; JRef 4]) [];
   Obj KObj [("host", JStr "replica1")];
   Obj KObj [("host", JStr "replica2")];
   Obj KObj [("host", JStr "master")]].

Definition repl : state :=
  built (constructor repl_heap (JRef 0) (JStr "9.6.0") (JStr "9.0.0")).

Lemma repl_built :
  constructor repl_heap (JRef 0) (JStr "9.6.0") (JStr "9.0.0") = Some (Built repl [EOnExit]).
Proof. reflexivity. Qed.

(** The manager with its router. *)
Definition routed : state := fst (initPools repl).

(** Three callers while the version is unresolved, and a detection that
    succeeds. *)
Definition three_callers : list event :=
  [EvInitPools;
   EvGetConnection 1 JUndef; EvGetConnection 2 JUndef;
   EvHooksDone 0 (inr tt); EvGetConnection 3 JUndef;
   EvAlloc (Obj KObj []); EvConnectDone 0 (inr (JRef 3));
   EvVersionDone 0 (inr (JStr "9.6.0")); EvDisconnectDone 0 (inr tt)].

Lemma shared_version_detection_witness :
  fresh_unresolved single
  /\ calls 2 (snd (run example_valid single three_callers))
     <= 1 + detection_failures example_valid single three_callers.
Proof.
  split; [exact single_fresh|].
  exact (proj1 (proj2 (shared_version_detection example_valid single three_callers
                         single_fresh))).
Defined.

Example three_callers_log :
  snd (run example_valid single three_callers)
  = [ECreatePool PSingle (JFun "_validate") (JNum 5) (JNum 0) (JNum 10000);
     ERunHooks 0 Detection (JRef 1);
     EConnect 0 Detection (JRef 1);
     EDatabaseVersion 0 (QueryOptions (JRef 3) true true);
     EDisconnect Detection (JRef 3);
     EPoolAcquire 1 PSingle JUndef; EPoolAcquire 2 PSingle JUndef;
     EPoolAcquire 3 PSingle JUndef].
Proof. reflexivity. Qed.

(** A detection that fails, and the call that follows it: the version
    query of the first detection is rejected, the second caller arrives
    while the version is still unresolved and starts a detection of its
    own. *)
Definition retry : list event :=
  [EvInitPools;
   EvGetConnection 1 JUndef; EvHooksDone 0 (inr tt);
   EvAlloc (Obj KObj []); EvConnectDone 0 (inr (JRef 3));
   EvVersionDone 0 (inl (Error "query failed"));
   EvGetConnection 2 JUndef; EvHooksDone 1 (inr tt);
   EvAlloc (Obj KObj []); EvConnectDone 1 (inr (JRef 4));
   EvVersionDone 1 (inr (JStr "9.6.0")); EvDisconnectDone 1 (inr tt)].

(** C1 as stated fails: two calls of [getConnection], both made while the
    version is unresolved, and two private connections are opened and two
    version queries executed. *)
Lemma two_detections_after_failure :
  databaseVersion (fst (run example_valid single (take 1 retry))) = JNum 0
  /\ databaseVersion (fst (run example_valid single (take 6 retry))) = JNum 0
  /\ snd (run example_valid single retry)
     = [ECreatePool PSingle (JFun "_validate") (JNum 5) (JNum 0) (JNum 10000);
        ERunHooks 0 Detection (JRef 1);
        EConnect 0 Detection (JRef 1);
        EDatabaseVersion 0 (QueryOptions (JRef 3) true true);
        EReject 1 (Error "query failed");
        ERunHooks 1 Detection (JRef 1);
        EConnect 1 Detection (JRef 1);
        EDatabaseVersion 1 (QueryOptions (JRef 4) true true);
        EDisconnect Detection (JRef 4);
        EPoolAcquire 2 PSingle JUndef]
  /\ calls 2 (snd (run example_valid single retry)) = 2
  /\ calls 3 (snd (run example_valid single retry)) = 2
  /\ ~ calls 2 (snd (run example_valid single retry)) <= 1.
Proof. repeat split; try reflexivity. vm_compute. lia. Qed.

(** The detection in its first phase, after one call. *)
Definition detecting : state :=
  fst (run example_valid single [EvInitPools; EvGetConnection 1 JUndef]).

Lemma versionPromise_reset_witness :
  tasks detecting !! 0 = Some (Task Detection (Hooks (JRef 1)))
  /\ closed detecting = false
  /\ detection_target detecting = Some (JRef 1)
  /\ versionPromise detecting = Some 0
  /\ versionPromise
       (fst (step example_valid detecting (EvHooksDone 0 (inl (Error "hook failed")))))
     = None.
Proof.
  split; [reflexivity|]. split; [reflexivity|]. split; [reflexivity|].
  split; [reflexivity|].
  exact (proj1 (proj1 (versionPromise_reset example_valid detecting 0 (Hooks (JRef 1))
                         (JRef 1) eq_refl eq_refl eq_refl)
                  (Error "hook failed"))).
Defined.

Lemma version_detection_sequence_witness :
  closed (fst (initPools single)) = false
  /\ databaseVersion (fst (initPools single)) = JNum 0
  /\ versionPromise (fst (initPools single)) = None
  /\ detection_target (fst (initPools single)) = Some (JRef 1)
  /\ jobs (fst (initPools single)) = []
  /\ exists s',
       run example_valid (fst (initPools single))
         [EvGetConnection 1 JUndef; EvHooksDone 0 (inr tt); EvConnectDone 0 (inr (JRef 3));
          EvVersionDone 0 (inr (JStr "not a version")); EvDisconnectDone 0 (inr tt)]
       = (s', [ERunHooks 0 Detection (JRef 1);
               EConnect 0 Detection (JRef 1);
               EDatabaseVersion 0 (QueryOptions (JRef 3) true true);
               EDisconnect Detection (JRef 3);
               EPoolAcquire 1 PSingle JUndef])
       /\ databaseVersion s' = JStr "9.0.0".
Proof.
  split; [reflexivity|]. split; [reflexivity|]. split; [reflexivity|].
  split; [reflexivity|]. split; [reflexivity|].
  destruct (version_detection_sequence example_valid (fst (initPools single)) 1 JUndef
              (JRef 1) (JRef 3) (JStr "not a version") eq_refl eq_refl eq_refl eq_refl eq_refl)
    as (s' & Hrun & Hv & _).
  exists s'. split; [exact Hrun|exact Hv].
Defined.

(** Three creations in the read pool, between an acquisition and a
    creation in the write pool. *)
Definition creations : list event :=
  [EvFactoryCreate PRead; EvGetConnection 1 JUndef; EvFactoryCreate PRead;
   EvHooksDone 1 (inr tt); EvFactoryCreate PRead; EvFactoryCreate PWrite;
   EvHooksDone 0 (inr tt)].

Lemma creations_no_initPools : EvInitPools ∉ creations.
Proof.
  intros H. unfold creations in H.
  repeat (apply elem_of_cons in H as [H|H]; [discriminate H|]).
  by apply elem_of_nil in H.
Defined.



Example creations_log :
  snd (run example_valid routed creations)
  = [ERunHooks 0 (Creation PRead) (JRef 9);
     EPoolAcquire 1 PWrite JUndef;
     ERunHooks 1 (Creation PRead) (JRef 10);
     EConnect 1 (Creation PRead) (JRef 10);
     ERunHooks 2 (Creation PRead) (JRef 9);
     ERunHooks 3 (Creation PWrite) (JRef 11);
     EConnect 0 (Creation PRead) (JRef 9)].
Proof. reflexivity. Qed.






(** The events after the construction of [repl]: the pools are
    initialised, a read connection and a write connection are created. *)
Definition after_construction : list event :=
  [EvInitPools; EvFactoryCreate PRead; EvHooksDone 0 (inr tt);
   EvAlloc (Obj KObj []); EvConnectDone 0 (inr (JRef 14));
   EvGetConnection 1 JUndef; EvTick; EvReleaseConnection (JRef 14); EvClose].


Lemma repl_heap_closed : region_fresh 0 repl_heap.
Proof.
  intros l o _ Hl. unfold repl_heap in Hl.
  do 6 (destruct l as [|l]; [simpl in Hl; simplify_eq; split; simpl; repeat constructor; lia|]).
  done.
Defined.



(** ** The rest of the manager at concrete managers *)

(** The completions of the detection in flight in [detecting]. *)
Definition completions : list event :=
  [EvHooksDone 0 (inr tt); EvAlloc (Obj KObj []); EvConnectDone 0 (inr (JRef 3));
   EvVersionDone 0 (inr (JStr "9.6.0")); EvDisconnectDone 0 (inr tt)].

Lemma close_cancels_nothing_witness :
  Forall (fun ev => consults_closing ev = false) completions
  /\ run example_valid (fst (close detecting)) completions
     = (fst (close (fst (run example_valid detecting completions))),
        snd (run example_valid detecting completions)).
Proof.
  split; [repeat constructor|].
  exact (close_cancels_nothing example_valid detecting completions ltac:(repeat constructor)).
Defined.

(** The caller that waited when the manager was closed reaches the pool. *)
Example closed_while_detecting :
  snd (run example_valid (fst (close detecting)) completions)
  = [EConnect 0 Detection (JRef 1);
     EDatabaseVersion 0 (QueryOptions (JRef 3) true true);
     EDisconnect Detection (JRef 3);
     EPoolAcquire 1 PSingle JUndef].
Proof. reflexivity. Qed.

(** A manager at rest satisfies the invariant of the detection. *)
Lemma settled_inv (s : state) :
  tasks s = ∅ -> versionPromise s = None -> jobs s = [] -> defaultVersion s <> JNum 0 ->
  detection_inv s.
Proof.
  intros Ht Hp Hj Hd.
  split; try done; unfold det_phase; rewrite ?Hp, ?Ht, ?Hj; try done.
  all: intros t; by rewrite lookup_empty.
Defined.

Lemma repl_settled : detection_inv repl.
Proof. apply settled_inv; done. Defined.

Lemma known_version_no_detection_witness :
  detection_inv repl
  /\ databaseVersion repl <> JNum 0
  /\ calls 2 (snd (run example_valid repl after_construction)) = 0.
Proof.
  split; [exact repl_settled|]. split; [done|].
  exact (proj1 (known_version_no_detection example_valid repl after_construction
                  repl_settled ltac:(done)) 2).
Defined.

(** The manager without replication, its pool initialised. *)
Definition pooled : state := fst (initPools single).

Lemma callers_resumed_in_order_witness :
  closed pooled = false
  /\ databaseVersion pooled = JNum 0
  /\ versionPromise pooled = None
  /\ detection_target pooled = Some (JRef 1)
  /\ jobs pooled = []
  /\ waiters pooled = []
  /\ snd (run example_valid pooled
            (EvGetConnection 1 JUndef :: called [(2, JUndef)]
             ++ EvHooksDone 0 (inr tt) :: called [(3, JNull)]
             ++ EvConnectDone 0 (inr (JRef 3)) :: called []
             ++ [EvVersionDone 0 (inr (JStr "9.6.0")); EvDisconnectDone 0 (inr tt)]))
     = [ERunHooks 0 Detection (JRef 1);
        EConnect 0 Detection (JRef 1);
        EDatabaseVersion 0 (QueryOptions (JRef 3) true true);
        EDisconnect Detection (JRef 3);
        EPoolAcquire 1 PSingle JUndef;
        EPoolAcquire 2 PSingle JUndef;
        EPoolAcquire 3 PSingle JUndef].
Proof.
  do 6 (split; [reflexivity|]).
  exact (callers_resumed_in_order example_valid pooled 1 JUndef [(2, JUndef)] [(3, JNull)] []
           (JRef 1) (JRef 3) (JStr "9.6.0") eq_refl eq_refl eq_refl eq_refl eq_refl eq_refl).
Defined.

(** The options of a read, allocated by the caller. *)
Definition with_select : state :=
  fst (run example_valid routed
         [EvAlloc (Obj KObj [("type", JStr "SELECT"); ("priority", JNum 1)])]).

Lemma getConnection_routes_witness :
  closed with_select = false
  /\ databaseVersion with_select <> JNum 0
  /\ jobs with_select = []
  /\ pool with_select = Some (Router 0)
  /\ snd (run example_valid with_select [EvGetConnection 7 (JRef 14); EvTick])
     = [EPoolAcquire 7 PRead (JNum 1)].
Proof.
  split; [reflexivity|]. split; [discriminate|]. split; [reflexivity|]. split; [reflexivity|].
  exact (proj1 (proj2 (getConnection_routes example_valid with_select (Router 0) 7 (JRef 14)
                         eq_refl ltac:(discriminate) eq_refl eq_refl))).
Defined.

(** A creation in the read pool whose connection the dialect is about to
    deliver: the object at address 14. *)
Definition connecting_read : state :=
  fst (run example_valid routed
         [EvFactoryCreate PRead; EvHooksDone 0 (inr tt);
          EvAlloc (Obj KObj [("socket", JNum 1)])]).

Definition afterwards : list event :=
  [EvGetConnection 1 JUndef; EvTick; EvFactoryCreate PWrite; EvAlloc (Obj KObj [])].

Lemma created_handle_round_trip_witness :
  pool connecting_read = Some (Router 1)
  /\ tasks connecting_read !! 0 = Some (Task (Creation PRead) (Connecting (JRef 9)))
  /\ PRead <> PSingle
  /\ 14 < length (heap_of connecting_read)
  /\ Forall (keeps_tag (JRef 14)) afterwards
  /\ router_destroy
       (heap_of (fst (run example_valid
                        (fst (step example_valid connecting_read
                                (EvConnectDone 0 (inr (JRef 14)))))
                        afterwards)))
       (JRef 14)
     = Some (PRead, JRef 14).
Proof.
  split; [reflexivity|]. split; [reflexivity|]. split; [discriminate|].
  split; [vm_compute; lia|]. split; [repeat constructor|].
  exact (proj2 (proj2 (proj2
           (created_handle_round_trip example_valid connecting_read 1 0 14 PRead (JRef 9)
              afterwards eq_refl eq_refl ltac:(discriminate) ltac:(vm_compute; lia)
              ltac:(repeat constructor))))).
Defined.
Lemma connect_targets_witness :
  write_target routed = Some (JRef 11)
  /\ tasks routed = ∅
  /\ (EvInitPools ∉ creations)
  /\ ERunHooks 3 (Creation PWrite) (JRef 11) ∈ snd (run example_valid routed creations)
  /\ prescribed (JRef 11) (config routed) (Creation PWrite) (JRef 11).
Proof.
  assert (Hin : ERunHooks 3 (Creation PWrite) (JRef 11)
                ∈ snd (run example_valid routed creations)).
  { apply (list_elem_of_lookup_2 _ 5). reflexivity. }
  split; [reflexivity|]. split; [reflexivity|]. split; [exact creations_no_initPools|].
  split; [exact Hin|].
  exact (connect_targets example_valid routed creations (JRef 11) eq_refl eq_refl
           creations_no_initPools 3 (Creation PWrite) (JRef 11) (or_introl Hin)).
Defined.


(** A detection and a release on the manager whose pools were never
    initialised. *)
Definition unpooled : list event :=
  [EvGetConnection 1 JUndef; EvHooksDone 0 (inr tt); EvAlloc (Obj KObj []);
   EvConnectDone 0 (inr (JRef 3)); EvVersionDone 0 (inr (JStr "9.6.0"));
   EvDisconnectDone 0 (inr tt); EvReleaseConnection (JRef 3)].

Lemma unpooled_no_initPools : EvInitPools ∉ unpooled.
Proof.
  intros H. unfold unpooled in H.
  repeat (apply elem_of_cons in H as [H|H]; [discriminate H|]).
  by apply elem_of_nil in H.
Defined.

Lemma no_pool_before_initPools_witness :
  pool single = None
  /\ (EvInitPools ∉ unpooled)
  /\ Forall (fun e => pool_call e = false) (snd (run example_valid single unpooled)).
Proof.
  split; [reflexivity|]. split; [exact unpooled_no_initPools|].
  exact (proj1 (proj2 (no_pool_before_initPools example_valid single unpooled
                         eq_refl unpooled_no_initPools))).
Defined.

(** The detection runs, and its caller is rejected. *)
Example unpooled_log :
  snd (run example_valid single unpooled)
  = [ERunHooks 0 Detection (JRef 1);
     EConnect 0 Detection (JRef 1);
     EDatabaseVersion 0 (QueryOptions (JRef 3) true true);
     EDisconnect Detection (JRef 3);
     EReject 1 TypeError;
     EThrow TypeError].
Proof. reflexivity. Qed.

(** The router is closed and the pool engine calls back. *)
Definition draining : list event :=
  [EvClose; EvDrainCallback DrainRead; EvDrainCallback NoCallback].

Lemma draining_no_initPools : EvInitPools ∉ draining.
Proof.
  intros H. unfold draining in H.
  repeat (apply elem_of_cons in H as [H|H]; [discriminate H|]).
  by apply elem_of_nil in H.
Defined.

Lemma draining_handed_out : callbacks_handed_out example_valid routed [] draining.
Proof.
  split; [exact I|]. split.
  - exists PWrite. apply (list_elem_of_lookup_2 _ 0). reflexivity.
  - split; [|exact I]. exists PRead. apply (list_elem_of_lookup_2 _ 2). reflexivity.
Defined.

Lemma router_drain_never_destroys_witness :
  pool routed = Some (Router 0)
  /\ (EvInitPools ∉ draining)
  /\ callbacks_handed_out example_valid routed [] draining
  /\ Forall (fun e => destroys_all e = false) (snd (run example_valid routed draining)).
Proof.
  split; [reflexivity|]. split; [exact draining_no_initPools|].
  split; [exact draining_handed_out|].
  exact (proj2 (proj2 (router_drain_never_destroys example_valid routed 0 draining
                         eq_refl draining_no_initPools draining_handed_out))).
Defined.

Example draining_log :
  snd (run example_valid routed draining)
  = [EPoolDrain PWrite DrainRead; ERemoveExitListener; EPoolDrain PRead NoCallback].
Proof. reflexivity. Qed.
(** The configurations of the examples are heaps without dangling
    references. *)
Lemma single_heap_closed : region_fresh 0 single_heap.
Proof.
  intros l o _ Hl. unfold single_heap in Hl.
  destruct l as [|l]; [simpl in Hl; simplify_eq; split; simpl; repeat constructor|done].
Defined.

(** A configuration with [pool: false]. *)
Definition unpooled_heap : heap :=
  [Obj KObj [("host", JStr "db"); ("pool", JBool false)]].

Lemma unpooled_heap_closed : region_fresh 0 unpooled_heap.
Proof.
  intros l o _ Hl. unfold unpooled_heap in Hl.
  destruct l as [|l]; [simpl in Hl; simplify_eq; split; simpl; repeat constructor|done].
Defined.

Lemma constructor_pool_false_witness :
  region_fresh 0 unpooled_heap
  /\ unpooled_heap !! 0 = Some (Obj KObj [("host", JStr "db"); ("pool", JBool false)])
  /\ exists h1, constructor unpooled_heap (JRef 0) (JNum 0) (JStr "9.0.0")
                = Some (Threw h1 pool_false_error).
Proof.
  split; [exact unpooled_heap_closed|]. split; [reflexivity|].
  exact (proj1 (constructor_pool_false unpooled_heap 0 _ (JNum 0) (JStr "9.0.0")
                  unpooled_heap_closed eq_refl eq_refl) eq_refl).
Defined.

Lemma constructor_copies_settings_witness :
  region_fresh 0 repl_heap
  /\ repl_heap !! 0 = Some (Obj KObj [("host", JStr "main"); ("replication", JRef 1)])
  /\ constructor repl_heap (JRef 0) (JStr "9.6.0") (JStr "9.0.0") = Some (Built repl [EOnExit])
  /\ get (heap_of repl) (config repl) "host" = Some (JStr "main").
Proof.
  split; [exact repl_heap_closed|]. split; [reflexivity|]. split; [exact repl_built|].
  exact (constructor_copies_settings repl_heap 0 _ (JStr "9.6.0") (JStr "9.0.0") repl [EOnExit]
           repl_heap_closed eq_refl eq_refl repl_built ltac:(discriminate)
           "host" ltac:(discriminate) I).
Defined.

(** A configuration that sets [pool.max] and leaves the rest to the
    defaults. *)
Definition tuned_heap : heap :=
  [Obj KObj [("pool", JRef 1); ("replication", JBool false)];
   Obj KObj [("max", JNum 10); ("min", JUndef)]].

Definition tuned : state :=
  built (constructor tuned_heap (JRef 0) (JNum 0) (JStr "9.0.0")).

Lemma tuned_built :
  constructor tuned_heap (JRef 0) (JNum 0) (JStr "9.0.0") = Some (Built tuned [EOnExit]).
Proof. reflexivity. Qed.

Lemma tuned_heap_closed : region_fresh 0 tuned_heap.
Proof.
  intros l o _ Hl. unfold tuned_heap in Hl.
  do 2 (destruct l as [|l]; [simpl in Hl; simplify_eq; split; simpl; repeat constructor; lia|]).
  done.
Defined.

Lemma constructor_pool_settings_witness :
  region_fresh 0 tuned_heap
  /\ tuned_heap !! 0 = Some (Obj KObj [("pool", JRef 1); ("replication", JBool false)])
  /\ constructor tuned_heap (JRef 0) (JNum 0) (JStr "9.0.0") = Some (Built tuned [EOnExit])
  /\ exists d,
       get (heap_of tuned) (config tuned) "pool" = Some (JRef d)
       /\ get (heap_of tuned) (JRef d) "max" = Some (JNum 10)
       /\ get (heap_of tuned) (JRef d) "min" = Some (JNum 0)
       /\ get (heap_of tuned) (JRef d) "validate" = Some (JFun "_validate").
Proof.
  split; [exact tuned_heap_closed|]. split; [reflexivity|]. split; [exact tuned_built|].
  destruct (constructor_pool_settings tuned_heap 0 _ (JNum 0) (JStr "9.0.0") tuned [EOnExit]
              tuned_heap_closed eq_refl eq_refl tuned_built) as (d & Hp & Hk & _).
  exists d. split; [exact Hp|].
  split; [exact (Hk "max" I)|]. split; [exact (Hk "min" I)|exact (Hk "validate" I)].
Defined.

Lemma initPools_after_constructor_witness :
  region_fresh 0 single_heap
  /\ single_heap !! 0 = Some (Obj KObj [("host", JStr "db"); ("replication", JBool false)])
  /\ constructor single_heap (JRef 0) (JNum 0) (JStr "9.0.0") = Some (Built single [EOnExit])
  /\ exists d validate max min idle,
       get (heap_of single) (config single) "pool" = Some (JRef d)
       /\ initPools single
          = (with_pool (Some SinglePool) single, [ECreatePool PSingle validate max min idle]).
Proof.
  split; [exact single_heap_closed|]. split; [reflexivity|]. split; [exact single_built|].
  destruct (initPools_after_constructor single_heap 0 _ (JNum 0) (JStr "9.0.0") single [EOnExit]
              single_heap_closed eq_refl eq_refl single_built ltac:(discriminate) I eq_refl)
    as (d & v1 & v2 & v3 & v4 & Hp & _ & _ & _ & _ & _ & _ & _ & _ & Hinit).
  by exists d, v1, v2, v3, v4.
Defined.

(** A configuration without a [replication] entry. *)
Definition bare_heap : heap := [Obj KObj [("host", JStr "db")]].

Definition bare : state :=
  built (constructor bare_heap (JRef 0) (JNum 0) (JStr "9.0.0")).

Lemma bare_built :
  constructor bare_heap (JRef 0) (JNum 0) (JStr "9.0.0") = Some (Built bare [EOnExit]).
Proof. reflexivity. Qed.

Lemma bare_heap_closed : region_fresh 0 bare_heap.
Proof.
  intros l o _ Hl. unfold bare_heap in Hl.
  destruct l as [|l]; [simpl in Hl; simplify_eq; split; simpl; repeat constructor|done].
Defined.

Lemma getConnection_without_replication_witness :
  region_fresh 0 bare_heap
  /\ bare_heap !! 0 = Some (Obj KObj [("host", JStr "db")])
  /\ constructor bare_heap (JRef 0) (JNum 0) (JStr "9.0.0") = Some (Built bare [EOnExit])
  /\ getConnection bare 1 JUndef = (bare, [EThrow TypeError]).
Proof.
  split; [exact bare_heap_closed|]. split; [reflexivity|]. split; [exact bare_built|].
  exact (proj1 (getConnection_without_replication bare_heap 0 _ (JStr "9.0.0") bare [EOnExit]
                  1 JUndef bare_heap_closed eq_refl eq_refl bare_built ltac:(discriminate)
                  (or_introl eq_refl))).
Defined.

(** The snapshot of [repl]: the object at address 6. *)
Definition repl_snapshot : obj :=
  Obj KObj [("host", JStr "main"); ("replication", JRef 7); ("pool", JRef 12)].

Lemma repl_snapshot_keys : NoDup (props repl_snapshot).*1.
Proof. apply (bool_decide_unpack _). exact I. Defined.

Lemma replication_targets_inherit_witness :
  config repl = JRef 6
  /\ heap_of repl !! 6 = Some repl_snapshot
  /\ NoDup (props repl_snapshot).*1
  /\ get (heap_of repl) (JRef 7) "read" = Some (JRef 8)
  /\ get (heap_of repl) (JRef 7) "write" = Some (JRef 11)
  /\ forallb (is_target (heap_of repl) 6 7) [JRef 11; JRef 9; JRef 10] = true
  /\ get (heap_of (fst (initPools repl))) (JRef 9) "pool" = Some (JRef 12)
  /\ get (heap_of (fst (initPools repl))) (JRef 9) "host" = Some (JStr "replica1").
Proof.
  split; [reflexivity|]. split; [reflexivity|]. split; [exact repl_snapshot_keys|].
  split; [reflexivity|]. split; [reflexivity|]. split; [reflexivity|].
  pose proof (replication_targets_inherit repl 6 7 repl_snapshot (JRef 11) (JRef 8)
                eq_refl eq_refl repl_snapshot_keys eq_refl ltac:(discriminate) eq_refl eq_refl
                eq_refl ltac:(by eexists)) as (_ & _ & _ & H & _).
  split.
  - exact (H (JRef 9) "pool" JUndef ltac:(apply (list_elem_of_lookup_2 _ 1); reflexivity)
             eq_refl).
  - exact (H (JRef 9) "host" (JStr "replica1")
             ltac:(apply (list_elem_of_lookup_2 _ 1); reflexivity) eq_refl).
Defined.



